(** * addSortBy: the sort-key store and the hierarchical row sorter

    A shallow embedding of [src/lib/plugins/addSortBy.ts]:
    - [createSortKeysStore] ([toggleId], [clearId]) as transitions on the
      list of sort keys held by the store;
    - [getSortedRows] as a function in an error monad (a [TypeError] is
      the only exception the code can raise), over rows whose cells are
      looked up in a finite map; [Array.prototype.sort], which it
      calls, is the engine's: it is any sort that reorders the array
      and meets what ECMAScript asks of it, and two such sorts are
      given, the one of V8 among them;
    - the same function over an explicit object store, to speak about
      what it writes, with the proof that it computes what the first
      one computes;
    - the ['thead.tr.th'] hook's [toggle] and [clear] props. *)

From Stdlib Require Import ZArith Lia.
From stdpp Require Import gmap strings list fin_maps sorting.

Set Warnings "-register-all".
Open Scope Z_scope.

(** ** Results of code that may throw *)

Inductive result (A : Type) : Type :=
| Ok (a : A)
| TypeError.
Arguments Ok {A} a.
Arguments TypeError {A}.

Definition rbind {A B} (r : result A) (f : A → result B) : result B :=
  match r with
  | Ok a => f a
  | TypeError => TypeError
  end.

Notation "'let*' x ':=' r 'in' k" := (rbind r (λ x, k))
  (at level 10, x name, r at level 100, k at level 200, only parsing).

Fixpoint mapM {A B} (f : A → result B) (l : list A) : result (list B) :=
  match l with
  | [] => Ok []
  | x :: l' => let* y := f x in let* ys := mapM f l' in Ok (y :: ys)
  end.

(** ** Sort keys *)

Inductive Order := asc | desc.

Module SortKey.
Record t := mk { id : string; order : Order }.
End SortKey.

Definition is_asc (o : Order) : bool :=
  match o with asc => true | desc => false end.

Definition is_desc (o : Order) : bool :=
  match o with asc => false | desc => true end.

(** [Array.prototype.findIndex]: the first index whose element satisfies
    the predicate, [-1] when there is none. *)
Fixpoint findIndex {A} (p : A → bool) (l : list A) : Z :=
  match l with
  | [] => -1
  | x :: l' =>
      if p x then 0
      else let i := findIndex p l' in if i =? -1 then -1 else i + 1
  end.

(** [Array.prototype.find]. *)
Fixpoint find {A} (p : A → bool) (l : list A) : option A :=
  match l with
  | [] => None
  | x :: l' => if p x then Some x else find p l'
  end.

(** [arr.slice(0, n)] and [arr.slice(n)] for a non-negative [n]. *)
Definition slice_to {A} (n : Z) (l : list A) : list A := take (Z.to_nat n) l.
Definition slice_from {A} (n : Z) (l : list A) : list A := drop (Z.to_nat n) l.

Record ToggleOptions := { multiSort : option bool }.

Definition has_id (id : string) (key : SortKey.t) : bool :=
  String.eqb (SortKey.id key) id.

(** The updater run by [toggleId]; [multiSort] defaults to [true].  The
    element at [keyIdx] exists whenever [keyIdx] is not [-1]
    ([findIndex_lookup]), so the [None] branches are never taken. *)
Definition toggleId (id : string) (options : ToggleOptions)
    (sortKeys : list SortKey.t) : list SortKey.t :=
  let multiSort := default true (multiSort options) in
  let keyIdx := findIndex (has_id id) sortKeys in
  if negb multiSort then
    if keyIdx =? -1 then [SortKey.mk id asc]
    else
      match sortKeys !! Z.to_nat keyIdx with
      | Some key =>
          if is_asc (SortKey.order key) then [SortKey.mk id desc] else []
      | None => []
      end
  else
    if keyIdx =? -1 then sortKeys ++ [SortKey.mk id asc]
    else
      match sortKeys !! Z.to_nat keyIdx with
      | Some key =>
          if is_asc (SortKey.order key) then
            slice_to keyIdx sortKeys ++ [SortKey.mk id desc]
              ++ slice_from (keyIdx + 1) sortKeys
          else slice_to keyIdx sortKeys ++ slice_from (keyIdx + 1) sortKeys
      | None => sortKeys
      end.

(** The updater run by [clearId]. *)
Definition clearId (id : string) (sortKeys : list SortKey.t) : list SortKey.t :=
  let keyIdx := findIndex (has_id id) sortKeys in
  if keyIdx =? -1 then sortKeys
  else slice_to keyIdx sortKeys ++ slice_from (keyIdx + 1) sortKeys.

(** The order shown for a column: [$sortKeys.find(k => k.id === id)?.order]. *)
Definition orderOf (id : string) (sortKeys : list SortKey.t) : option Order :=
  SortKey.order <$> find (has_id id) sortKeys.

(** Calls made on the store through [toggleId] and [clearId]. *)
Inductive StoreCall :=
| CallToggle (id : string) (options : ToggleOptions)
| CallClear (id : string).

Definition callStore (c : StoreCall) (sortKeys : list SortKey.t) : list SortKey.t :=
  match c with
  | CallToggle id options => toggleId id options sortKeys
  | CallClear id => clearId id sortKeys
  end.

Definition callsStore (cs : list StoreCall) (sortKeys : list SortKey.t)
    : list SortKey.t :=
  foldl (λ keys c, callStore c keys) sortKeys cs.

Definition keyIds (sortKeys : list SortKey.t) : list string :=
  SortKey.id <$> sortKeys.

(** ** Cells, rows and column options *)

(** Cell values as the comparator sees them: it asks [typeof] for
    ['string'] and ['number'] and hands everything else to [getSortValue]
    or ignores it.  Numbers are kept as integers; [undefined] is what
    reading [value] off a cell without one gives. *)
Inductive Value :=
| VUndefined
| VNumber (n : Z)
| VString (s : string)
| VArray (vs : list Value)
| VObject (tag : nat).

Definition isStringOrNumber (v : Value) : bool :=
  match v with
  | VNumber _ | VString _ => true
  | _ => false
  end.

(** Modelled from the spec: the cell classes of [$lib/bodyCells] are not
    part of the sources; a cell is either a data cell carrying a value or
    a cell of another kind, and every cell knows its column id. *)
Inductive BodyCell :=
| DataBodyCell (id : string) (value : Value)
| DisplayBodyCell (id : string).

Module Cell.
Definition id (c : BodyCell) : string :=
  match c with
  | DataBodyCell id _ => id
  | DisplayBodyCell id => id
  end.

(** [c instanceof DataBodyCell] *)
Definition isData (c : BodyCell) : bool :=
  match c with
  | DataBodyCell _ _ => true
  | DisplayBodyCell _ => false
  end.

(** [c.value]; a cell of another kind has no such property. *)
Definition value (c : BodyCell) : Value :=
  match c with
  | DataBodyCell _ v => v
  | DisplayBodyCell _ => VUndefined
  end.
End Cell.

(** Modelled from the spec: [BodyRow] of [$lib/bodyRows] is not part of
    the sources; the sorter reads [cellForId] and [subRows], every other
    field is carried along ([rowId] stands for them). *)
Inductive BodyRow := mkBodyRow {
  rowId : string;
  cellForId : gmap string BodyCell;
  subRows : option (list BodyRow)
}.

(** Modelled from the spec: [getCloned] of [$lib/utils/clone] is not part
    of the sources; [getCloned(row, {subRows})] is a new row that shares
    every field with [row] except [subRows]. *)
Definition getCloned (row : BodyRow) (sortedSubRows : list BodyRow) : BodyRow :=
  {| rowId := rowId row;
     cellForId := cellForId row;
     subRows := Some sortedSubRows |}.

Record SortByColumnOptions := {
  disable : option bool;
  getSortValue : option (Value → Value);
  invert : option bool
}.

(** ** [Array.prototype.sort]

    The sort is the engine's, not the program's.  ECMAScript
    (Array.prototype.sort, SortIndexedProperties) lets the engine make
    any sequence of calls to the comparison function, has it stop at
    the first call that throws, and fixes the order of the result only
    when the comparison function is a consistent comparator for the
    elements of the array; for any other comparison function the order
    is implementation-defined. *)

Section ConsistentComparator.
Context {A : Type} (comparefn : A → A → result Z).

(** [a <CF b], [a =CF b] and [a >CF b]: the comparison function
    answers with a negative number, with zero, with a positive number. *)
Definition ltCF (a b : A) : Prop := ∃ v, comparefn a b = Ok v ∧ v < 0.
Definition eqCF (a b : A) : Prop := comparefn a b = Ok 0.
Definition gtCF (a b : A) : Prop := ∃ v, comparefn a b = Ok v ∧ 0 < v.

(** A consistent comparator for a set of values, as ECMAScript defines
    it: every call returns a number, and [=CF] is reflexive, symmetric
    and transitive, and [<CF] and [>CF] are transitive.  (That a call
    always returns the same number, and changes no object, holds of
    every function here.) *)
Record consistentComparator (elements : list A) : Prop := {
  cc_returns : ∀ a b, a ∈ elements → b ∈ elements → ∃ v, comparefn a b = Ok v;
  cc_refl : ∀ a, a ∈ elements → eqCF a a;
  cc_sym : ∀ a b, a ∈ elements → b ∈ elements → eqCF a b → eqCF b a;
  cc_trans_eq : ∀ a b c, a ∈ elements → b ∈ elements → c ∈ elements →
    eqCF a b → eqCF b c → eqCF a c;
  cc_trans_lt : ∀ a b c, a ∈ elements → b ∈ elements → c ∈ elements →
    ltCF a b → ltCF b c → ltCF a c;
  cc_trans_gt : ∀ a b c, a ∈ elements → b ∈ elements → c ∈ elements →
    gtCF a b → gtCF b c → gtCF a c
}.
End ConsistentComparator.

(** A result of the sort is given by the list [p] of the indices the
    elements had in the input, in the order of the result.  The element
    of index [i] stands before the element of index [j]. *)
Definition before (p : list nat) (i j : nat) : Prop :=
  ∃ k k', p !! k = Some i ∧ p !! k' = Some j ∧ (k < k')%nat.

(** The sort order ECMAScript requires when the comparison function is
    a consistent comparator: an element stands before every element it
    is less than, and before every element it equals that followed it
    in the input (the sort is stable). *)
Definition sortOrder (comparefn : nat → nat → result Z) (n : nat)
    (p : list nat) : Prop :=
  (∀ i j, (i < n)%nat → (j < n)%nat → ltCF comparefn i j → before p i j) ∧
  (∀ i j, (i < j)%nat → (j < n)%nat → eqCF comparefn i j → before p i j).

(** The order a consistent comparator and the places in the input give
    to the indices: less, or equal and earlier.  The sort order is the
    one reordering that is sorted for it ([sortOrder_StronglySorted],
    [sortOrder_unique]). *)
Definition stableLt (comparefn : nat → nat → result Z) (i j : nat) : Prop :=
  ltCF comparefn i j ∨ (eqCF comparefn i j ∧ (i < j)%nat).

(** An engine's sort.  It sees the elements through the comparison
    function only, so it is given the comparison function on the
    indices of the array and the length, and answers with the indices
    in their new order.  It is any function of which the following
    holds:
    - it calls the comparison function on elements of the array only;
    - its result is a reordering of the array;
    - it returns when no call throws;
    - an array of fewer than two elements is returned without a call;
    - for a consistent comparator the result is in sort order.
    The last is what ECMAScript requires.  The others ECMAScript
    requires for a consistent comparator and leaves to the engine for
    any other; they hold of a sort that moves the elements of the array
    and compares them until it is done, and are proved of the two
    engines below.  Nothing else is known of an engine's result, or of
    which calls it makes. *)
Class Engine := {
  sortIndices : (nat → nat → result Z) → nat → result (list nat);
  sortIndices_ext comparefn comparefn' n :
    (∀ i j, (i < n)%nat → (j < n)%nat → comparefn i j = comparefn' i j) →
    sortIndices comparefn n = sortIndices comparefn' n;
  sortIndices_Permutation comparefn n p :
    sortIndices comparefn n = Ok p → p ≡ₚ seq 0 n;
  sortIndices_returns comparefn n :
    (∀ i j, (i < n)%nat → (j < n)%nat → ∃ v, comparefn i j = Ok v) →
    ∃ p, sortIndices comparefn n = Ok p;
  sortIndices_small comparefn n :
    (n < 2)%nat → sortIndices comparefn n = Ok (seq 0 n);
  sortIndices_sortOrder comparefn n p :
    consistentComparator comparefn (seq 0 n) →
    sortIndices comparefn n = Ok p → sortOrder comparefn n p
}.

Section ArraySort.
Context {E : Engine} {A : Type} (comparefn : A → A → result Z).

(** The comparison function on the indices of the array [l]. *)
Definition comparefnAt (l : list A) (i j : nat) : result Z :=
  match l !! i, l !! j with
  | Some a, Some b => comparefn a b
  | _, _ => TypeError
  end.

Definition elementAt (l : list A) (i : nat) : result A :=
  match l !! i with
  | Some a => Ok a
  | None => TypeError
  end.

(** [l.sort(comparefn)]: the elements of [l] in the order the engine
    gives.  The indices the engine answers with are indices of [l]
    ([sortIndices_Permutation]), so [elementAt] finds an element. *)
Definition arraySort (l : list A) : result (list A) :=
  let* p := sortIndices (comparefnAt l) (length l) in
  mapM (elementAt l) p.
End ArraySort.

(** ** Two engines

    Two sorts that are engines in the above sense
    ([insertionEngine], [v8Engine]).  They give the same result for
    every consistent comparator, as all engines do
    ([arraySort_engine_independent]), and not for every other. *)
Section Engines.
Context {A : Type} (comparefn : A → A → result Z).

(** Insertion from the right end: each element is moved behind the
    elements of the sorted rest that the comparison function puts
    before it, with [comparefn a b] called for [a] the element that
    came first. *)
Fixpoint sortInsert (a : A) (sorted : list A) : result (list A) :=
  match sorted with
  | [] => Ok [a]
  | b :: rest =>
      let* c := comparefn a b in
      if 0 <? c then let* rest' := sortInsert a rest in Ok (b :: rest')
      else Ok (a :: b :: rest)
  end.

Fixpoint insertionSort (l : list A) : result (list A) :=
  match l with
  | [] => Ok []
  | a :: l' => let* sorted := insertionSort l' in sortInsert a sorted
  end.

(** What V8 (node, Chrome) runs on an array of fewer than 64 elements
    (third_party/v8/builtins/array-sort.tq): [CountAndMakeRun] finds
    the run the array starts with, calling [comparefn] with the later
    element first, and reverses it when it is strictly descending;
    [BinaryInsertionSort] then inserts each further element, the pivot,
    at the place a binary search gives, calling [comparefn pivot
    element].  On longer arrays V8 sorts pieces in this way and merges
    them; here every array is sorted in this way. *)
Fixpoint countRun (isDescending : bool) (previousElement : A) (rest : list A)
    : result nat :=
  match rest with
  | [] => Ok O
  | currentElement :: rest' =>
      let* order := comparefn currentElement previousElement in
      if (if isDescending then 0 <=? order else order <? 0) then Ok O
      else
        let* runLength := countRun isDescending currentElement rest' in
        Ok (S runLength)
  end.

Definition countAndMakeRun (workArray : list A) : result (list A * list A) :=
  match workArray with
  | elementHigh :: elementLow :: rest =>
      let* order := comparefn elementLow elementHigh in
      let isDescending := order <? 0 in
      let* more := countRun isDescending elementLow rest in
      let run := elementHigh :: elementLow :: take more rest in
      Ok (if isDescending then reverse run else run, drop more rest)
  | _ => Ok (workArray, [])
  end.

(** The search for the place of the pivot in [sorted], between [left]
    and [right], the loop [while (left < right)].  [fuel] bounds the
    number of halvings; the search never runs out of it when it is at
    least [right - left] ([binarySearch_fuel]). *)
Fixpoint binarySearch (fuel : nat) (pivot : A) (sorted : list A)
    (left right : nat) : result nat :=
  match fuel with
  | O => Ok left
  | S fuel' =>
      if (left <? right)%nat then
        let mid := (left + Nat.div2 (right - left))%nat in
        match sorted !! mid with
        | None => TypeError
        | Some element =>
            let* order := comparefn pivot element in
            if order <? 0 then binarySearch fuel' pivot sorted left mid
            else binarySearch fuel' pivot sorted (S mid) right
        end
      else Ok left
  end.

Fixpoint binaryInsertionSort (sorted rest : list A) : result (list A) :=
  match rest with
  | [] => Ok sorted
  | pivot :: rest' =>
      let* left := binarySearch (length sorted) pivot sorted 0 (length sorted) in
      binaryInsertionSort (take left sorted ++ pivot :: drop left sorted) rest'
  end.

Definition v8Sort (workArray : list A) : result (list A) :=
  if (length workArray <? 2)%nat then Ok workArray
  else
    let* runs := countAndMakeRun workArray in
    binaryInsertionSort runs.1 runs.2.
End Engines.

(** ** [getSortedRows] *)

Section Sorter.
Context {E : Engine}.

(** [compare] of [$lib/utils/compare] is not part of the sources: any
    function from two values to a number. *)
Variable compare : Value → Value → Z.

Variable sortKeys : list SortKey.t.
Variable columnOptions : gmap string SortByColumnOptions.

(** [columnOptions[id]?.invert ?? false] and
    [columnOptions[id]?.getSortValue] *)
Definition invertOf (id : string) : bool :=
  match columnOptions !! id with
  | Some o => default false (invert o)
  | None => false
  end.

Definition getSortValueOf (id : string) : option (Value → Value) :=
  match columnOptions !! id with
  | Some o => getSortValue o
  | None => None
  end.

(** The comparison function handed to [sort], as a loop over the keys
    that are left.  [a.cellForId[key.id]] may be [undefined]; reading
    [cellA.id] and, for a data cell [cellA], [cellB.value] then throws. *)
Fixpoint compareRows (keys : list SortKey.t) (a b : BodyRow) : result Z :=
  match keys with
  | [] => Ok 0
  | key :: keys' =>
      let invert := invertOf (SortKey.id key) in
      let cellA := cellForId a !! SortKey.id key in
      let cellB := cellForId b !! SortKey.id key in
      match cellA with
      | None => TypeError
      | Some cellA =>
          let getSortValue := getSortValueOf (Cell.id cellA) in
          if negb (Cell.isData cellA) then Ok 0
          else
            let valueA := Cell.value cellA in
            match cellB with
            | None => TypeError
            | Some cellB =>
                let valueB := Cell.value cellB in
                let order :=
                  match getSortValue with
                  | Some f => compare (f valueA) (f valueB)
                  | None =>
                      if isStringOrNumber valueA then compare valueA valueB
                      else 0
                  end in
                if negb (order =? 0) then
                  let orderFactor := 1 in
                  let orderFactor :=
                    if is_desc (SortKey.order key) then orderFactor * -1
                    else orderFactor in
                  let orderFactor :=
                    if invert then orderFactor * -1 else orderFactor in
                  Ok (order * orderFactor)
                else compareRows keys' a b
            end
      end
  end.

Definition rowCompare : BodyRow → BodyRow → result Z := compareRows sortKeys.

(** The loop of lines 145-152 needs the sorted sub-rows of the rows in
    their new order.  To keep the recursion structural each row is
    paired, before the level is reordered, with the pending result of
    that loop's body for it; the pairs are reordered by their rows and
    the results are then taken in the new order, which is the order in
    which the source computes them ([getSortedRows_unfold]). *)
Fixpoint withSortedSubRows (row : BodyRow) : result BodyRow :=
  match subRows row with
  | None => Ok row
  | Some sub =>
      let* sortedSubRows :=
        (let* sorted :=
           arraySort (λ p q, rowCompare p.1 q.1)
             (map (λ r, (r, withSortedSubRows r)) sub) in
         mapM snd sorted) in
      Ok (getCloned row sortedSubRows)
  end.

Definition getSortedRows (rows : list BodyRow) : result (list BodyRow) :=
  let* sorted :=
    arraySort (λ p q, rowCompare p.1 q.1)
      (map (λ r, (r, withSortedSubRows r)) rows) in
  mapM snd sorted.
End Sorter.

(** ** The props of the ['thead.tr.th'] hook *)

(** What the hook reads of a header cell. *)
Record HeaderCell := { cellId : string; isData : bool }.

Section Plugin.
(** Browser events, and [isShiftClick] of [$lib/utils/event], are not
    part of the sources. *)
Variable Event : Type.
Variable isShiftClick : Event → bool.

Record SortByConfig := {
  initialSortKeys : option (list SortKey.t);
  disableMultiSort : option bool;
  isMultiSortEvent : option (Event → bool)
}.

Variable config : SortByConfig.
Variable columnOptions : gmap string SortByColumnOptions.

Definition disabledSortIds : list string :=
  fst <$> filter (λ entry, disable entry.2 = Some true)
                 (map_to_list columnOptions).

Definition includes (ids : list string) (id : string) : bool :=
  bool_decide (id ∈ ids).

(** [toggle] of the props: the store's keys after the call. *)
Definition thToggle (cell : HeaderCell) (event : Event)
    (sortKeys : list SortKey.t) : list SortKey.t :=
  let disabled := includes disabledSortIds (cellId cell) in
  if negb (isData cell) then sortKeys
  else if disabled then sortKeys
  else
    toggleId (cellId cell)
      {| multiSort :=
           Some (if default false (disableMultiSort config) then false
                 else default isShiftClick (isMultiSortEvent config) event) |}
      sortKeys.

(** [clear] of the props. *)
Definition thClear (cell : HeaderCell) (sortKeys : list SortKey.t)
    : list SortKey.t :=
  if negb (isData cell) then sortKeys
  else if includes disabledSortIds (cellId cell) then sortKeys
  else clearId (cellId cell) sortKeys.

Record ThProps := {
  propOrder : option Order;
  propToggle : Event → list SortKey.t → list SortKey.t;
  propClear : list SortKey.t → list SortKey.t;
  propDisabled : bool
}.

Definition thProps (cell : HeaderCell) (sortKeys : list SortKey.t) : ThProps :=
  {| propOrder := orderOf (cellId cell) sortKeys;
     propToggle := thToggle cell;
     propClear := thClear cell;
     propDisabled := includes disabledSortIds (cellId cell) |}.
End Plugin.

(** ** [getSortedRows] over an object store

    Arrays and rows are objects at locations; [subRows] of a row object
    is a reference to an array object, and copying an array copies
    references.  This is the model in which writes are visible. *)
Module Store.
Definition loc := positive.

Inductive object :=
| RowObj (rowId : string) (cellForId : gmap string BodyCell)
         (subRows : option loc)
| RowsObj (elems : list loc)
| KeysObj (keys : list SortKey.t).

Inductive outcome (A : Type) : Type :=
| Returned (a : A)
| Thrown
| Exhausted.
Arguments Returned {A} a.
Arguments Thrown {A}.
Arguments Exhausted {A}.

Definition M (A : Type) : Type := gmap loc object → outcome A * gmap loc object.

Definition ret {A} (a : A) : M A := λ h, (Returned a, h).

Definition bind {A B} (m : M A) (f : A → M B) : M B :=
  λ h, match m h with
       | (Returned a, h') => f a h'
       | (Thrown, h') => (Thrown, h')
       | (Exhausted, h') => (Exhausted, h')
       end.

Definition throw {A} : M A := λ h, (Thrown, h).
Definition exhausted {A} : M A := λ h, (Exhausted, h).

(** A new object at a location not in use. *)
Definition alloc (o : object) : M loc :=
  λ h, let l := fresh (dom h) in (Returned l, <[l := o]> h).

Definition load (l : loc) : M object :=
  λ h, match h !! l with
       | Some o => (Returned o, h)
       | None => (Thrown, h)
       end.

Definition store (l : loc) (o : object) : M unit :=
  λ h, (Returned tt, <[l := o]> h).

Definition loadRows (l : loc) : M (list loc) :=
  bind (load l) (λ o, match o with RowsObj elems => ret elems | _ => throw end).

(** A computation keeps [h0] when it ends in a store that has every
    object of [h0] as it was. *)
Definition keeps {A} (h0 : gmap loc object) (m : M A) : Prop :=
  ∀ h, h0 ⊆ h → h0 ⊆ (m h).2.

(** The row at a location as the comparison function sees it: it reads
    [cellForId] only. *)
Definition rowView (h : gmap loc object) (l : loc) : option BodyRow :=
  match h !! l with
  | Some (RowObj rid cells _) =>
      Some {| rowId := rid; cellForId := cells; subRows := None |}
  | _ => None
  end.

Section Sorter.
Context {E : Engine}.
Variable compare : Value → Value → Z.
Variable sortKeys : loc.
Variable columnOptions : gmap string SortByColumnOptions.

(** The comparison function: it reads the key array and the two rows
    and writes nothing. *)
Definition comparefn (h : gmap loc object) (a b : loc) : result Z :=
  match h !! sortKeys, rowView h a, rowView h b with
  | Some (KeysObj keys), Some rowA, Some rowB =>
      compareRows compare columnOptions keys rowA rowB
  | _, _, _ => TypeError
  end.

(** [arr.sort(comparefn)], in place.  When the comparison function
    throws, an engine may leave the array partly reordered; it is left
    as it was here.  Either way no other object is written. *)
Definition sortInPlace (arr : loc) : M unit :=
  bind (loadRows arr) (λ elems h,
    match arraySort (comparefn h) elems with
    | Ok sorted => store arr (RowsObj sorted) h
    | TypeError => (Thrown, h)
    end).

(** The loop of lines 145-152 over the indices that are left. *)
Fixpoint sortSubRowsFrom (getSortedRows : loc → M loc) (arr : loc)
    (indices : list nat) : M unit :=
  match indices with
  | [] => ret tt
  | i :: indices' =>
      bind (loadRows arr) (λ elems,
        match elems !! i with
        | None => throw
        | Some r =>
            bind (load r) (λ o,
              match o with
              | RowObj rid cells None =>
                  sortSubRowsFrom getSortedRows arr indices'
              | RowObj rid cells (Some subRows) =>
                  bind (getSortedRows subRows) (λ sortedSubRows,
                  bind (alloc (RowObj rid cells (Some sortedSubRows))) (λ clone,
                  bind (store arr (RowsObj (<[i := clone]> elems))) (λ _,
                  sortSubRowsFrom getSortedRows arr indices')))
              | _ => throw
              end)
        end)
  end.

(** [fuel] bounds the depth of the recursion; a store may hold a
    cyclic [subRows] chain, on which the source overflows its stack. *)
Fixpoint getSortedRows (fuel : nat) (rows : loc) : M loc :=
  match fuel with
  | O => exhausted
  | S fuel' =>
      bind (loadRows rows) (λ elems,
      bind (alloc (RowsObj elems)) (λ _sortedRows,
      bind (sortInPlace _sortedRows) (λ _,
      bind (sortSubRowsFrom (getSortedRows fuel') _sortedRows
              (seq 0 (length elems))) (λ _,
      ret _sortedRows))))
  end.
End Sorter.
End Store.

(** ** Forests held by a store *)

(** The number of levels below a row. *)
Fixpoint rowDepth (row : BodyRow) : nat :=
  match subRows row with
  | None => O
  | Some sub => S (list_max (map rowDepth sub))
  end.

(** A store holds a forest: every row is a row object with the row's
    fields, and its sub-rows are held by the array its [subRows] refers to. *)
Inductive reprRow (h : gmap Store.loc Store.object) : Store.loc → BodyRow → Prop :=
| reprRow_leaf l row :
    h !! l = Some (Store.RowObj (rowId row) (cellForId row) None) →
    subRows row = None →
    reprRow h l row
| reprRow_node l row s elems sub :
    h !! l = Some (Store.RowObj (rowId row) (cellForId row) (Some s)) →
    subRows row = Some sub →
    h !! s = Some (Store.RowsObj elems) →
    Forall2 (reprRow h) elems sub →
    reprRow h l row.

Definition reprRows (h : gmap Store.loc Store.object) (l : Store.loc)
    (rows : list BodyRow) : Prop :=
  ∃ elems, h !! l = Some (Store.RowsObj elems) ∧ Forall2 (reprRow h) elems rows.

(** The fuel is enough for every level of the forest. *)
Definition fits (fuel : nat) (rows : list BodyRow) : Prop :=
  (0 < fuel)%nat ∧ Forall (λ row, (rowDepth row < fuel)%nat) rows.

(** Two results are both thrown, or both returned and related. *)
Definition resultRel {X Y} (P : X → Y → Prop) (r : result X) (r' : result Y)
    : Prop :=
  match r, r' with
  | Ok x, Ok y => P x y
  | TypeError, TypeError => True
  | _, _ => False
  end.

(** ** Notions used to state the properties *)

(** The cycle a column goes through: absent, ascending, descending, absent. *)
Definition cycleNext (o : option Order) : option Order :=
  match o with
  | None => Some asc
  | Some asc => Some desc
  | Some desc => None
  end.

Definition isMulti (options : ToggleOptions) : bool :=
  default true (multiSort options).

(** A property of every row of a forest, at every level. *)
Inductive EveryRow (P : BodyRow → Prop) : BodyRow → Prop :=
| EveryRow_intro row :
    P row →
    (∀ sub, subRows row = Some sub → Forall (EveryRow P) sub) →
    EveryRow P row.

(** The row has a cell for the column of every key. *)
Definition hasCellsFor (keys : list SortKey.t) (row : BodyRow) : Prop :=
  ∀ key, key ∈ keys → is_Some (cellForId row !! SortKey.id key).

(** ** Stable reordering

    [p] lists, for each place of the output, the index in the input of
    the row that stands there.  The reordering is stable for [tie] when
    two rows that tie stand in the output in the order they had in the
    input. *)
Definition stableReordering {A} (tie : A → A → Prop) (l : list A)
    (p : list nat) : Prop :=
  p ≡ₚ seq 0 (length l) ∧
  ∀ i j a b,
    (i < j)%nat → l !! i = Some a → l !! j = Some b → tie a b →
    ∃ k k', p !! k = Some i ∧ p !! k' = Some j ∧ (k < k')%nat.

(** The output forest is the input forest stably reordered at every
    level: a level is a stable reordering of the input level, and each
    of its rows is the input row with stably reordered sub-rows. *)
Inductive StablySorted (tie : BodyRow → BodyRow → Prop)
    : list BodyRow → list BodyRow → Prop :=
| StablySorted_level rows out p :
    stableReordering tie rows p →
    Forall2 (λ i row', ∃ row, rows !! i = Some row ∧
                              StablySortedRow tie row row') p out →
    StablySorted tie rows out
with StablySortedRow (tie : BodyRow → BodyRow → Prop)
    : BodyRow → BodyRow → Prop :=
| StablySorted_leaf row :
    subRows row = None → StablySortedRow tie row row
| StablySorted_node row sub sub' :
    subRows row = Some sub → StablySorted tie sub sub' →
    StablySortedRow tie row (getCloned row sub').

(** A property of every level of a forest: of the root rows and of the
    sub-rows of every row. *)
Inductive EveryLevel (Q : list BodyRow → Prop) : list BodyRow → Prop :=
| EveryLevel_intro rows :
    Q rows →
    Forall (λ row, ∀ sub, subRows row = Some sub → EveryLevel Q sub) rows →
    EveryLevel Q rows.

(** ** Orders on an array *)

(** The comparison function does not put [a] behind [b]. *)
Definition inOrder {A} (comparefn : A → A → result Z) (a b : A) : Prop :=
  ∃ c, comparefn a b = Ok c ∧ c ≤ 0.

(** Whether a comparison function is a consistent comparator for the
    elements of an array, decided by calling it on all of them. *)
Definition answers (P : Z → bool) (r : result Z) : bool :=
  match r with
  | Ok v => P v
  | TypeError => false
  end.

Definition consistentb {A} (comparefn : A → A → result Z) (l : list A) : bool :=
  let lt a b := answers (λ v, v <? 0) (comparefn a b) in
  let eq a b := answers (λ v, v =? 0) (comparefn a b) in
  let gt a b := answers (λ v, 0 <? v) (comparefn a b) in
  let transitive (R : A → A → bool) :=
    forallb (λ a, forallb (λ b, forallb (λ c,
      implb (R a b && R b c) (R a c)) l) l) l in
  forallb (λ a, forallb (λ b, answers (λ _, true) (comparefn a b)) l) l
  && forallb (λ a, eq a a) l
  && forallb (λ a, forallb (λ b, implb (eq a b) (eq b a)) l) l
  && transitive eq && transitive lt && transitive gt.

(** The keys tie for a pair of rows: the comparison function answers 0. *)
Definition tied (compare : Value → Value → Z)
    (columnOptions : gmap string SortByColumnOptions)
    (sortKeys : list SortKey.t) (a b : BodyRow) : Prop :=
  rowCompare compare sortKeys columnOptions a b = Ok 0.

(** ** Well-typed columns

    The comparison function looks at the first row's cell and value
    only, as both should have the same properties (lines 113 and 126).
    A level is well typed for a key when they have: every row has a
    data cell for the key's column, under the column's id; where the
    column has no [getSortValue] the values are all strings or numbers,
    or none is; and [compare] is a consistent comparator for the values
    it is called on. *)
Definition sortValues (columnOptions : gmap string SortByColumnOptions)
    (key : SortKey.t) (values : list Value) : list Value :=
  match getSortValueOf columnOptions (SortKey.id key) with
  | Some f => f <$> values
  | None => values
  end.

Definition wellTypedColumn (compare : Value → Value → Z)
    (columnOptions : gmap string SortByColumnOptions)
    (rows : list BodyRow) (key : SortKey.t) : Prop :=
  ∃ values,
    Forall2 (λ row v, cellForId row !! SortKey.id key
                      = Some (DataBodyCell (SortKey.id key) v)) rows values ∧
    ((getSortValueOf columnOptions (SortKey.id key) = None ∧
      Forall (λ v, isStringOrNumber v = false) values) ∨
     ((getSortValueOf columnOptions (SortKey.id key) = None →
       Forall (λ v, isStringOrNumber v = true) values) ∧
      consistentComparator (λ u v, Ok (compare u v))
        (sortValues columnOptions key values))).

Definition wellTypedLevel (compare : Value → Value → Z)
    (columnOptions : gmap string SortByColumnOptions)
    (sortKeys : list SortKey.t) (rows : list BodyRow) : Prop :=
  Forall (wellTypedColumn compare columnOptions rows) sortKeys.

(** The comparison by [first], and by [rest] where [first] ties. *)
Definition thenBy {A} (first rest : A → A → result Z) (a b : A) : result Z :=
  match first a b with
  | Ok 0 => rest a b
  | r => r
  end.

(** ** A comparison of values and some tables, for closed examples *)

(** Modelled from the spec: [compare] of [$lib/utils/compare] is not part
    of the sources; numbers are compared numerically, strings by their
    characters, arrays element by element with the first difference
    deciding and a proper prefix first; anything else gives no order. *)
Fixpoint specCompare (a b : Value) : Z :=
  match a, b with
  | VNumber x, VNumber y => x - y
  | VString s, VString t =>
      match String.compare s t with Lt => -1 | Eq => 0 | Gt => 1 end
  | VArray xs, VArray ys =>
      (fix elementwise (xs ys : list Value) : Z :=
         match xs, ys with
         | [], [] => 0
         | [], _ :: _ => -1
         | _ :: _, [] => 1
         | x :: xs', y :: ys' =>
             let c := specCompare x y in
             if c =? 0 then elementwise xs' ys' else c
         end) xs ys
  | _, _ => 0
  end.

Definition dataCells (cells : list (string * Value)) : gmap string BodyCell :=
  list_to_map ((λ '(id, v), (id, DataBodyCell id v)) <$> cells).

Definition leafRow (rid : string) (cells : list (string * Value)) : BodyRow :=
  {| rowId := rid; cellForId := dataCells cells; subRows := None |}.

Definition parentRow (rid : string) (cells : list (string * Value))
    (sub : list BodyRow) : BodyRow :=
  {| rowId := rid; cellForId := dataCells cells; subRows := Some sub |}.

Definition noOptions : gmap string SortByColumnOptions := ∅.

Definition invertColumn (id : string) (b : bool)
    : gmap string SortByColumnOptions :=
  {[ id := {| disable := None; getSortValue := None; invert := Some b |} ]}.

Definition person (rid name : string) (age : Z) : BodyRow :=
  leafRow rid [("name"%string, VString name); ("age"%string, VNumber age)].

Definition people : list BodyRow :=
  [person "0" "Bob" 30; person "1" "Amy" 30; person "2" "Amy" 25].

Definition byAgeDescNameAsc : list SortKey.t :=
  [SortKey.mk "age" desc; SortKey.mk "name" asc].

(** A forest with one level of sub-rows. *)
Definition family : list BodyRow :=
  [person "2" "Amy" 25;
   parentRow "0" [("name"%string, VString "Bob"); ("age"%string, VNumber 30)]
     [person "0.0" "Zed" 5; person "0.1" "Al" 7];
   person "1" "Amy" 30].

Definition familySorted : list BodyRow :=
  [parentRow "0" [("name"%string, VString "Bob"); ("age"%string, VNumber 30)]
     [person "0.1" "Al" 7; person "0.0" "Zed" 5];
   person "1" "Amy" 30;
   person "2" "Amy" 25].

Definition byAgeDesc : list SortKey.t := [SortKey.mk "age" desc].

(** The store that holds [family], the keys [byAgeDesc] at location 1
    and the array of the root rows at location 2. *)
Definition familyStore : gmap Store.loc Store.object :=
  list_to_map
    [(1%positive, Store.KeysObj byAgeDesc);
     (2%positive, Store.RowsObj [3; 4; 5]%positive);
     (3%positive, Store.RowObj "2" (cellForId (person "2" "Amy" 25)) None);
     (4%positive, Store.RowObj "0" (cellForId (person "0" "Bob" 30))
                    (Some 6%positive));
     (5%positive, Store.RowObj "1" (cellForId (person "1" "Amy" 30)) None);
     (6%positive, Store.RowsObj [7; 8]%positive);
     (7%positive, Store.RowObj "0.0" (cellForId (person "0.0" "Zed" 5)) None);
     (8%positive, Store.RowObj "0.1" (cellForId (person "0.1" "Al" 7)) None)].

(** Rows with an action cell, which is not a data cell, and an age. *)
Definition withAction (rid : string) (age : Z) : BodyRow :=
  {| rowId := rid;
     cellForId :=
       list_to_map [("action"%string, DisplayBodyCell "action");
                    ("age"%string, DataBodyCell "age" (VNumber age))];
     subRows := None |}.

Definition rowIds (r : result (list BodyRow)) : result (list string) :=
  let* rows := r in Ok (rowId <$> rows).

(** ** Tables on which the comparison function is not consistent *)

(** Four rows of which the third has no age. *)
Definition mixedAges : list BodyRow :=
  [leafRow "r0" [("age"%string, VNumber 1)];
   leafRow "r1" [("age"%string, VNumber 0)];
   leafRow "r2" [("age"%string, VUndefined)];
   leafRow "r3" [("age"%string, VNumber 0)]].

Definition byAgeAsc : list SortKey.t := [SortKey.mk "age" asc].

(** A row whose action cell shows no data, and a row whose action cell
    holds a value. *)
Definition actionRows : list BodyRow :=
  [withAction "0" 30;
   leafRow "1" [("action"%string, VString "x"); ("age"%string, VNumber 25)]].

Definition byActionAge : list SortKey.t :=
  [SortKey.mk "action" asc; SortKey.mk "age" asc].





(** ** Further notions: the keys of the other columns *)

(** The keys of the columns other than [id], in their order. *)
Definition otherKeys (id : string) (sortKeys : list SortKey.t) : list SortKey.t :=
  filter (λ key, SortKey.id key ≠ id) sortKeys.

(** [n] calls of [toggleId] for one column. *)
Fixpoint toggleTimes (n : nat) (id : string) (options : ToggleOptions)
    (sortKeys : list SortKey.t) : list SortKey.t :=
  match n with
  | O => sortKeys
  | S n' => toggleTimes n' id options (toggleId id options sortKeys)
  end.

(** ** The props of the ['tbody.tr.td'] hook, and calls of the header props *)

Record TdProps := { tdOrder : option Order }.

Definition tdProps (cell : BodyCell) (sortKeys : list SortKey.t) : TdProps :=
  {| tdOrder := orderOf (Cell.id cell) sortKeys |}.

(** What a user does on a header: a call of its [toggle] prop with the
    event, or of its [clear] prop. *)
Inductive HeaderCall (Event : Type) :=
| HeaderToggle (cell : HeaderCell) (event : Event)
| HeaderClear (cell : HeaderCell).
Arguments HeaderToggle {Event} cell event.
Arguments HeaderClear {Event} cell.

Section HeaderCalls.
Variable Event : Type.
Variable isShiftClick : Event → bool.
Variable config : SortByConfig Event.
Variable columnOptions : gmap string SortByColumnOptions.

Definition callHeader (c : HeaderCall Event) (sortKeys : list SortKey.t)
    : list SortKey.t :=
  match c with
  | HeaderToggle cell event =>
      propToggle Event
        (thProps Event isShiftClick config columnOptions cell sortKeys)
        event sortKeys
  | HeaderClear cell =>
      propClear Event
        (thProps Event isShiftClick config columnOptions cell sortKeys) sortKeys
  end.

Definition callsHeader (cs : list (HeaderCall Event))
    (sortKeys : list SortKey.t) : list SortKey.t :=
  foldl (λ keys c, callHeader c keys) sortKeys cs.
End HeaderCalls.

(** A configuration for the examples: events are whether shift was held. *)
Definition singleSortConfig : SortByConfig bool :=
  {| initialSortKeys := None; disableMultiSort := Some true;
     isMultiSortEvent := None |}.

Definition defaultConfig : SortByConfig bool :=
  {| initialSortKeys := None; disableMultiSort := None;
     isMultiSortEvent := None |}.

Definition shiftHeld (event : bool) : bool := event.

Definition ageHeader : HeaderCell := {| cellId := "age"; isData := true |}.
Definition actionHeader : HeaderCell := {| cellId := "action"; isData := false |}.

(** ** Keys with the other direction *)

Definition flipOrder (o : Order) : Order :=
  match o with asc => desc | desc => asc end.

Definition flipKey (key : SortKey.t) : SortKey.t :=
  SortKey.mk (SortKey.id key) (flipOrder (SortKey.order key)).

(** The row has, for the column of the key, a data cell whose value is
    neither a string nor a number, and the options have no
    [getSortValue] for the cell. *)
Definition unsupportedAt (columnOptions : gmap string SortByColumnOptions)
    (key : SortKey.t) (row : BodyRow) : Prop :=
  ∃ id v,
    cellForId row !! SortKey.id key = Some (DataBodyCell id v) ∧
    isStringOrNumber v = false ∧
    getSortValueOf columnOptions id = None.

(** Rows with a column of tags, which are arrays, and an age. *)
Definition tagged (rid : string) (tags : list Value) (age : Z) : BodyRow :=
  leafRow rid [("tags"%string, VArray tags); ("age"%string, VNumber age)].

Definition taggedRows : list BodyRow :=
  [tagged "0" [VString "b"] 30; tagged "1" [VString "a"] 25].

(** A chain: one row, with one sub-row, and no cells. *)
Definition chain : list BodyRow :=
  [parentRow "p" [] [leafRow "c" []]].

(** ** Shared rows, and the stores of the plugin *)

(** How a row [r'] of the result stands to the row [r] of the input it
    comes from, between the store [h] before and the store [h'] after
    the call: it is the same object, which has no sub-rows, or it is a
    new object with the fields of [r] and a new array of sub-rows. *)
Definition sharedRow (h h' : gmap Store.loc Store.object)
    (r r' : Store.loc) : Prop :=
  (r' = r ∧ ∃ rid cells, h' !! r = Some (Store.RowObj rid cells None)) ∨
  (h !! r' = None ∧
   ∃ rid cells s s',
     h' !! r = Some (Store.RowObj rid cells (Some s)) ∧
     h' !! r' = Some (Store.RowObj rid cells (Some s')) ∧
     h !! s' = None).

(** The values of the plugin's [preSortedRows] and [sortedRows] stores:
    references to arrays of rows. *)
Record PluginStores := {
  preSortedRows : Store.loc;
  sortedRows : Store.loc
}.

(** The function given to [derived] in [deriveRows], run on the values
    of [rows] and [sortKeys]: a throw of [getSortedRows] leaves
    [sortedRows] as it was. *)
Definition deriveRows {E : Engine} (compare : Value → Value → Z)
    (sortKeys : Store.loc)
    (columnOptions : gmap string SortByColumnOptions) (fuel : nat)
    (rows : Store.loc) (stores : PluginStores)
    (h : gmap Store.loc Store.object)
    : Store.outcome Store.loc * PluginStores * gmap Store.loc Store.object :=
  let stores := {| preSortedRows := rows; sortedRows := sortedRows stores |} in
  match Store.getSortedRows compare sortKeys columnOptions fuel rows h with
  | (Store.Returned _sortedRows, h') =>
      (Store.Returned _sortedRows,
       {| preSortedRows := preSortedRows stores; sortedRows := _sortedRows |},
       h')
  | (outcome, h') => (outcome, stores, h')
  end.

(** * The sort-key store *)

Section FindIndex.
Context {A : Type} (p : A → bool).

Lemma findIndex_ge (l : list A) : -1 ≤ findIndex p l.
Proof.
  induction l as [|x l IH]; simpl; [lia|].
  destruct (p x); [lia|].
  destruct (Z.eqb_spec (findIndex p l) (-1)); lia.
Qed.

Lemma findIndex_none (l : list A) :
  findIndex p l = -1 ↔ Forall (λ x, p x = false) l.
Proof.
  induction l as [|x l IH]; simpl.
  - split; [constructor | reflexivity].
  - destruct (p x) eqn:Hx.
    + split; [lia | intros H; inversion H; congruence].
    + pose proof (findIndex_ge l) as Hge.
      destruct (Z.eqb_spec (findIndex p l) (-1)) as [E|E].
      * split; [constructor; tauto | reflexivity].
      * split; [lia | intros HF; inversion HF; tauto].
Qed.

(** A found index splits the list at the first element that satisfies
    the predicate. *)
Lemma findIndex_split (l : list A) :
  findIndex p l ≠ -1 →
  ∃ before x after,
    l = before ++ x :: after ∧ p x = true ∧
    Forall (λ y, p y = false) before ∧
    findIndex p l = Z.of_nat (length before).
Proof.
  induction l as [|x l IH]; simpl; [congruence|].
  destruct (p x) eqn:Hx.
  - intros _. exists [], x, l. repeat split; auto.
  - destruct (Z.eqb_spec (findIndex p l) (-1)) as [E|E]; [congruence|].
    intros _. destruct (IH E) as (before & y & after & -> & Hy & Hb & Hi).
    exists (x :: before), y, after. repeat split; auto.
    rewrite Hi. simpl length. lia.
Qed.

Lemma findIndex_lookup (l : list A) :
  findIndex p l ≠ -1 → is_Some (l !! Z.to_nat (findIndex p l)).
Proof.
  intros H. destruct (findIndex_split l H) as (before & x & after & -> & _ & _ & ->).
  rewrite Nat2Z.id. exists x. by rewrite list_lookup_middle.
Qed.

Lemma find_app_none (before after : list A) :
  Forall (λ y, p y = false) before →
  find p (before ++ after) = find p after.
Proof.
  induction 1 as [|y before Hy _ IH]; simpl; [done|]. by rewrite Hy.
Qed.

Lemma find_none (l : list A) :
  find p l = None ↔ Forall (λ x, p x = false) l.
Proof.
  induction l as [|x l IH]; simpl.
  - split; [constructor | reflexivity].
  - destruct (p x) eqn:Hx.
    + split; [discriminate | intros H; inversion H; congruence].
    + rewrite IH. split; [by constructor | by inversion 1].
Qed.

Lemma find_some_split (l : list A) (x : A) :
  find p l = Some x →
  ∃ before after,
    l = before ++ x :: after ∧ p x = true ∧
    Forall (λ y, p y = false) before.
Proof.
  induction l as [|y l IH]; simpl; [discriminate|].
  destruct (p y) eqn:Hy.
  - intros [= ->]. by exists [], l.
  - intros H. destruct (IH H) as (before & after & -> & Hx & Hb).
    exists (y :: before), after. repeat split; auto.
Qed.
End FindIndex.

Lemma has_id_true (id : string) (key : SortKey.t) :
  has_id id key = true ↔ SortKey.id key = id.
Proof. unfold has_id. apply String.eqb_eq. Qed.

Lemma has_id_false (id : string) (key : SortKey.t) :
  has_id id key = false ↔ SortKey.id key ≠ id.
Proof. unfold has_id. apply String.eqb_neq. Qed.

Lemma no_key_with_id (id : string) (keys : list SortKey.t) :
  Forall (λ key, has_id id key = false) keys ↔ id ∉ keyIds keys.
Proof.
  unfold keyIds. rewrite Forall_forall, list_elem_of_fmap. split.
  - intros H (key & -> & Hin). apply H in Hin. by apply has_id_false in Hin.
  - intros H key Hin. apply has_id_false. intros <-. apply H. by exists key.
Qed.

(** What [toggleId] and [clearId] do, by the place of the first key of
    the column. *)
Lemma toggleId_absent (id : string) (options : ToggleOptions)
    (keys : list SortKey.t) :
  id ∉ keyIds keys →
  toggleId id options keys =
    if isMulti options then keys ++ [SortKey.mk id asc] else [SortKey.mk id asc].
Proof.
  intros H. apply no_key_with_id, findIndex_none in H.
  unfold toggleId, isMulti. rewrite H. simpl.
  by destruct (default true (multiSort options)).
Qed.

Lemma toggleId_present (id : string) (options : ToggleOptions)
    (before after : list SortKey.t) (o : Order) :
  id ∉ keyIds before →
  toggleId id options (before ++ SortKey.mk id o :: after) =
    match o with
    | asc =>
        if isMulti options then before ++ SortKey.mk id desc :: after
        else [SortKey.mk id desc]
    | desc => if isMulti options then before ++ after else []
    end.
Proof.
  intros Hb. apply no_key_with_id in Hb.
  set (keys := before ++ SortKey.mk id o :: after).
  assert (Hne : findIndex (has_id id) keys ≠ -1).
  { rewrite findIndex_none. intros HF. apply Forall_app in HF as [_ HF].
    inversion HF as [|?? Hk _]; subst. unfold has_id in Hk. simpl in Hk.
    by rewrite String.eqb_refl in Hk. }
  destruct (findIndex_split (has_id id) keys Hne)
    as (before' & x & after' & Heq & Hx & Hb' & Hi).
  assert (before' = before ∧ x = SortKey.mk id o ∧ after' = after) as (-> & -> & ->).
  { clear Hi Hne. subst keys. revert before' Heq Hb'.
    induction Hb as [|y before Hy Hb IH]; intros [|z before'] Heq Hb'; simpl in *.
    - by inversion Heq.
    - inversion Heq; subst. inversion Hb'; subst.
      unfold has_id in *; simpl in *. rewrite String.eqb_refl in *. discriminate.
    - inversion Heq; subst. congruence.
    - inversion Heq; subst. inversion Hb'; subst.
      destruct (IH before') as (-> & ? & ?); auto. }
  unfold toggleId, isMulti. fold keys. rewrite Hi.
  destruct (Z.eqb_spec (Z.of_nat (length before)) (-1)) as [E|_]; [lia|].
  unfold slice_to, slice_from.
  replace (Z.to_nat (Z.of_nat (length before) + 1)) with (S (length before)) by lia.
  rewrite Nat2Z.id. subst keys.
  rewrite list_lookup_middle by done.
  rewrite take_app_length.
  rewrite drop_app_ge by lia.
  replace (S (length before) - length before)%nat with 1%nat by lia.
  destruct (default true (multiSort options)), o; simpl; done.
Qed.

Lemma clearId_absent (id : string) (keys : list SortKey.t) :
  id ∉ keyIds keys → clearId id keys = keys.
Proof.
  intros H. apply no_key_with_id, findIndex_none in H.
  unfold clearId. by rewrite H.
Qed.

Lemma keys_split (id : string) (keys : list SortKey.t) :
  id ∉ keyIds keys ∨
  ∃ before o after,
    keys = before ++ SortKey.mk id o :: after ∧ id ∉ keyIds before.
Proof.
  destruct (find (has_id id) keys) as [key|] eqn:Hf.
  - right. apply find_some_split in Hf as (before & after & -> & Hk & Hb).
    apply has_id_true in Hk. destruct key as [id' o]; simpl in Hk; subst id'.
    exists before, o, after. split; [done|]. by apply no_key_with_id.
  - left. by apply no_key_with_id, find_none.
Qed.

Lemma clearId_present (id : string) (before after : list SortKey.t) (o : Order) :
  id ∉ keyIds before →
  clearId id (before ++ SortKey.mk id o :: after) = before ++ after.
Proof.
  intros Hb.
  pose proof (toggleId_present id {| multiSort := Some true |} before after desc Hb) as Ht.
  pose proof (toggleId_present id {| multiSort := Some true |} before after asc Hb) as Ht'.
  apply no_key_with_id in Hb.
  set (keys := before ++ SortKey.mk id o :: after).
  assert (Hi : findIndex (has_id id) keys = Z.of_nat (length before)).
  { subst keys. clear Ht Ht'. induction Hb as [|y before Hy _ IH]; simpl.
    - unfold has_id at 1. simpl. by rewrite String.eqb_refl.
    - rewrite Hy, IH.
      destruct (Z.eqb_spec (Z.of_nat (length before)) (-1)); lia. }
  unfold clearId. fold keys. rewrite Hi.
  destruct (Z.eqb_spec (Z.of_nat (length before)) (-1)) as [E|_]; [lia|].
  unfold slice_to, slice_from.
  replace (Z.to_nat (Z.of_nat (length before) + 1)) with (S (length before)) by lia.
  rewrite Nat2Z.id. subst keys.
  rewrite take_app_length, drop_app_ge by lia.
  by replace (S (length before) - length before)%nat with 1%nat by lia.
Qed.

Lemma orderOf_absent (id : string) (keys : list SortKey.t) :
  id ∉ keyIds keys → orderOf id keys = None.
Proof.
  intros H. apply no_key_with_id, find_none in H. unfold orderOf. by rewrite H.
Qed.

Lemma orderOf_present (id : string) (before after : list SortKey.t) (o : Order) :
  id ∉ keyIds before →
  orderOf id (before ++ SortKey.mk id o :: after) = Some o.
Proof.
  intros H. apply no_key_with_id in H. unfold orderOf.
  rewrite find_app_none by done. simpl. unfold has_id at 1. simpl.
  by rewrite String.eqb_refl.
Qed.

Lemma keyIds_app (l k : list SortKey.t) : keyIds (l ++ k) = keyIds l ++ keyIds k.
Proof. apply fmap_app. Qed.

(** C3: [toggleId] moves a column through the cycle absent, ascending,
    descending, absent.  With [multiSort] an absent column is appended
    as ascending at the end, an ascending key becomes descending where
    it stands and a descending key is removed with the other keys left
    in their order; without [multiSort] the whole sequence becomes the
    single ascending key, the single descending key, or empty.  On a
    sequence without duplicate columns the order shown for the column
    advances by one step of the cycle. *)
Theorem toggleId_three_state_cycle (id : string) (options : ToggleOptions)
    (keys : list SortKey.t) :
  match orderOf id keys with
  | None =>
      toggleId id options keys =
        if isMulti options then keys ++ [SortKey.mk id asc]
        else [SortKey.mk id asc]
  | Some asc =>
      ∃ before after,
        keys = before ++ SortKey.mk id asc :: after ∧ (id ∉ keyIds before) ∧
        toggleId id options keys =
          if isMulti options then before ++ SortKey.mk id desc :: after
          else [SortKey.mk id desc]
  | Some desc =>
      ∃ before after,
        keys = before ++ SortKey.mk id desc :: after ∧ (id ∉ keyIds before) ∧
        toggleId id options keys =
          if isMulti options then before ++ after else []
  end ∧
  (NoDup (keyIds keys) →
   orderOf id (toggleId id options keys) = cycleNext (orderOf id keys)).
Proof.
  destruct (keys_split id keys) as [Habs|(before & o & after & -> & Hb)].
  - rewrite (orderOf_absent _ _ Habs), (toggleId_absent _ _ _ Habs).
    split; [done|]. intros _. simpl.
    destruct (isMulti options).
    + by apply orderOf_present.
    + by apply (orderOf_present id [] []), not_elem_of_nil.
  - rewrite (orderOf_present _ _ _ _ Hb), (toggleId_present _ _ _ _ _ Hb).
    split.
    + destruct o; by exists before, after.
    + intros Hnd. destruct o; simpl.
      * destruct (isMulti options).
        -- by apply orderOf_present.
        -- by apply (orderOf_present id [] []), not_elem_of_nil.
      * destruct (isMulti options); [|done].
        apply orderOf_absent.
        rewrite keyIds_app in *. simpl in Hnd.
        apply NoDup_app in Hnd as (_ & _ & Hnd). apply NoDup_cons in Hnd as [Hn _].
        rewrite elem_of_app. tauto.
Qed.

(** The cycle on the empty sequence and on a sequence with another key. *)
Lemma toggleId_three_state_cycle_witness :
  let multi := {| multiSort := Some true |} in
  let keys := [SortKey.mk "name" asc; SortKey.mk "age" desc] in
  NoDup (keyIds keys) ∧
  toggleId "age" multi keys = [SortKey.mk "name" asc] ∧
  orderOf "age" (toggleId "age" multi keys) = None.
Proof.
  intros multi keys.
  assert (Hnd : NoDup (keyIds keys)).
  { apply (bool_decide_unpack _). vm_compute. exact I. }
  split; [exact Hnd|].
  pose proof (toggleId_three_state_cycle "age" multi keys) as [_ Hcycle].
  split; [reflexivity|]. exact (Hcycle Hnd).
Defined.

(** The scenarios of the specification. *)
Example toggleId_multi_scenario :
  let multi := {| multiSort := Some true |} in
  toggleId "age" multi [] = [SortKey.mk "age" asc] ∧
  toggleId "age" multi [SortKey.mk "age" asc] = [SortKey.mk "age" desc] ∧
  toggleId "age" multi [SortKey.mk "age" desc] = [].
Proof. repeat split; reflexivity. Qed.

Example toggleId_single_scenario :
  toggleId "name" {| multiSort := Some false |} [SortKey.mk "age" asc]
    = [SortKey.mk "name" asc].
Proof. reflexivity. Qed.

(** Each call keeps the columns of the keys pairwise distinct. *)
Lemma toggleId_NoDup (id : string) (options : ToggleOptions)
    (keys : list SortKey.t) :
  NoDup (keyIds keys) → NoDup (keyIds (toggleId id options keys)).
Proof.
  intros Hnd.
  destruct (keys_split id keys) as [Habs|(before & o & after & -> & Hb)].
  - rewrite (toggleId_absent _ _ _ Habs). destruct (isMulti options).
    + rewrite keyIds_app. apply NoDup_app. repeat split; [done| |apply NoDup_singleton].
      intros x Hx Hx'. apply list_elem_of_singleton in Hx'. by subst.
    + apply NoDup_singleton.
  - rewrite (toggleId_present _ _ _ _ _ Hb).
    destruct o, (isMulti options); simpl;
      [by rewrite keyIds_app in * | apply NoDup_singleton | | apply NoDup_nil_2].
    rewrite keyIds_app in *. simpl in Hnd.
    apply NoDup_app in Hnd as (H1 & H2 & H3). apply NoDup_cons in H3 as [_ H3].
    apply NoDup_app. repeat split; [done| |done].
    intros x Hx Hx'. apply (H2 x Hx). by right.
Qed.

Lemma clearId_NoDup (id : string) (keys : list SortKey.t) :
  NoDup (keyIds keys) → NoDup (keyIds (clearId id keys)).
Proof.
  intros Hnd.
  destruct (keys_split id keys) as [Habs|(before & o & after & -> & Hb)].
  - by rewrite (clearId_absent _ _ Habs).
  - rewrite (clearId_present _ _ _ _ Hb).
    rewrite keyIds_app in *. simpl in Hnd.
    apply NoDup_app in Hnd as (H1 & H2 & H3). apply NoDup_cons in H3 as [_ H3].
    apply NoDup_app. repeat split; [done| |done].
    intros x Hx Hx'. apply (H2 x Hx). by right.
Qed.

(** C7: starting from keys with pairwise distinct columns, no sequence
    of [toggleId] and [clearId] calls leads to keys in which a column
    occurs twice. *)
Theorem sortKeys_unique_invariant (calls : list StoreCall)
    (keys : list SortKey.t) :
  NoDup (keyIds keys) → NoDup (keyIds (callsStore calls keys)).
Proof.
  unfold callsStore. revert keys.
  induction calls as [|c calls IH]; intros keys Hnd; simpl; [done|].
  apply IH. destruct c; simpl; [by apply toggleId_NoDup | by apply clearId_NoDup].
Qed.

Lemma sortKeys_unique_invariant_witness :
  let calls :=
    [CallToggle "age" {| multiSort := None |};
     CallToggle "name" {| multiSort := Some true |};
     CallToggle "age" {| multiSort := Some true |};
     CallClear "name";
     CallToggle "name" {| multiSort := Some false |}] in
  NoDup (keyIds []) ∧
  callsStore calls [] = [SortKey.mk "name" asc] ∧
  NoDup (keyIds (callsStore calls [])).
Proof.
  intros calls.
  assert (Hnd : NoDup (keyIds [])) by apply NoDup_nil_2.
  split; [exact Hnd|]. split; [reflexivity|].
  exact (sortKeys_unique_invariant calls [] Hnd).
Defined.

(** * The header hook *)

Section PluginFacts.
Context (Event : Type) (isShiftClick : Event → bool).
Context (config : SortByConfig Event).
Context (columnOptions : gmap string SortByColumnOptions).

Lemma disabledSortIds_spec (id : string) :
  id ∈ disabledSortIds columnOptions ↔
  ∃ o, columnOptions !! id = Some o ∧ disable o = Some true.
Proof.
  unfold disabledSortIds. rewrite list_elem_of_fmap. split.
  - intros ([id' o] & -> & Hin). apply list_elem_of_filter in Hin as [Hd Hin].
    apply elem_of_map_to_list in Hin. by exists o.
  - intros (o & Hl & Hd). exists (id, o). split; [done|].
    apply list_elem_of_filter. split; [done|]. by apply elem_of_map_to_list.
Qed.

(** C10: for a header cell that is not a data cell, and for a column
    whose options have [disable] set to [true], the [toggle] and
    [clear] props of the hook leave the sort keys as they are. *)
Theorem thProps_suppressed (cell : HeaderCell) (event : Event)
    (keys : list SortKey.t) :
  isData cell = false ∨
  (∃ o, columnOptions !! cellId cell = Some o ∧ disable o = Some true) →
  let props := thProps Event isShiftClick config columnOptions cell keys in
  propToggle Event props event keys = keys ∧
  propClear Event props keys = keys.
Proof.
  intros H. simpl. unfold thToggle, thClear, includes.
  destruct H as [->|Hdis]; simpl; [done|].
  apply disabledSortIds_spec in Hdis.
  rewrite (bool_decide_eq_true_2 _ Hdis). by destruct (isData cell).
Qed.
End PluginFacts.

(** * Results of code that may throw *)

Lemma rbind_Ok {A B} (r : result A) (f : A → result B) (b : B) :
  rbind r f = Ok b ↔ ∃ a, r = Ok a ∧ f a = Ok b.
Proof.
  destruct r as [a|]; simpl.
  - split; [by exists a | by intros (? & [= <-] & ?)].
  - split; [discriminate | by intros (? & ? & ?)].
Qed.

Lemma mapM_Ok {A B} (f : A → result B) (l : list A) (l' : list B) :
  mapM f l = Ok l' ↔ Forall2 (λ x y, f x = Ok y) l l'.
Proof.
  revert l'. induction l as [|x l IH]; intros l'; simpl.
  - split; [intros [= <-]; constructor | by inversion 1].
  - rewrite rbind_Ok. split.
    + intros (y & Hy & H). apply rbind_Ok in H as (ys & Hys & [= <-]).
      constructor; [done|]. by apply IH.
    + inversion 1 as [|? y ? ys Hy Hys]; subst. exists y. split; [done|].
      apply rbind_Ok. exists ys. split; [by apply IH | done].
Qed.

Lemma mapM_ext_Forall {A B} (f g : A → result B) (l : list A) :
  Forall (λ x, f x = g x) l → mapM f l = mapM g l.
Proof. induction 1 as [|x l Hx _ IH]; simpl; [done|]. by rewrite Hx, IH. Qed.

Lemma mapM_map {A B C} (f : B → result C) (g : A → B) (l : list A) :
  mapM f (map g l) = mapM (λ x, f (g x)) l.
Proof. induction l as [|x l IH]; simpl; [done|]. by rewrite IH. Qed.

Lemma mapM_total {A B} (f : A → result B) (l : list A) :
  Forall (λ x, ∃ y, f x = Ok y) l → ∃ l', mapM f l = Ok l'.
Proof.
  induction 1 as [|x l [y Hy] _ [l' IH]]; simpl; [by eexists|].
  rewrite Hy, IH. by eexists.
Qed.

(** * Consistent comparators *)

Section ConsistentFacts.
Context {A : Type} (comparefn : A → A → result Z) (elements : list A).
Hypothesis consistent : consistentComparator comparefn elements.

Lemma ltCF_eqCF (a b : A) : ltCF comparefn a b → eqCF comparefn a b → False.
Proof. intros (v & Hv & Hlt) Heq. red in Heq. rewrite Heq in Hv. injection Hv. lia. Qed.

Lemma gtCF_eqCF (a b : A) : gtCF comparefn a b → eqCF comparefn a b → False.
Proof. intros (v & Hv & Hlt) Heq. red in Heq. rewrite Heq in Hv. injection Hv. lia. Qed.

Lemma ltCF_gtCF (a b : A) : ltCF comparefn a b → gtCF comparefn a b → False.
Proof.
  intros (v & Hv & Hlt) (w & Hw & Hgt). rewrite Hv in Hw. injection Hw. lia.
Qed.

Lemma cc_cases (a b : A) :
  a ∈ elements → b ∈ elements →
  ltCF comparefn a b ∨ eqCF comparefn a b ∨ gtCF comparefn a b.
Proof.
  intros Ha Hb. destruct (cc_returns _ _ consistent a b Ha Hb) as [v Hv].
  destruct (Z.lt_trichotomy v 0) as [?|[->|?]].
  - left. by exists v.
  - right. by left.
  - right. right. by exists v.
Qed.

(** [a >CF b] gives [b <CF a], and [a <CF b] gives [b >CF a]. *)
Lemma cc_gt_lt (a b : A) :
  a ∈ elements → b ∈ elements → gtCF comparefn a b → ltCF comparefn b a.
Proof.
  intros Ha Hb Hgt. destruct (cc_cases b a Hb Ha) as [?|[Heq|Hgt']]; [done| |].
  - destruct (gtCF_eqCF a b Hgt). by apply (cc_sym _ _ consistent b a).
  - destruct (gtCF_eqCF a a).
    + by apply (cc_trans_gt _ _ consistent a b a).
    + by apply (cc_refl _ _ consistent).
Qed.

Lemma cc_lt_gt (a b : A) :
  a ∈ elements → b ∈ elements → ltCF comparefn a b → gtCF comparefn b a.
Proof.
  intros Ha Hb Hlt. destruct (cc_cases b a Hb Ha) as [Hlt'|[Heq|?]]; [| |done].
  - destruct (ltCF_eqCF a a).
    + by apply (cc_trans_lt _ _ consistent a b a).
    + by apply (cc_refl _ _ consistent).
  - destruct (ltCF_eqCF a b Hlt). by apply (cc_sym _ _ consistent b a).
Qed.

Lemma cc_lt_eq (a b c : A) :
  a ∈ elements → b ∈ elements → c ∈ elements →
  ltCF comparefn a b → eqCF comparefn b c → ltCF comparefn a c.
Proof.
  intros Ha Hb Hc Hab Hbc.
  destruct (cc_cases a c Ha Hc) as [?|[Heq|Hgt]]; [done| |].
  - destruct (ltCF_eqCF a b Hab). apply (cc_sym _ _ consistent b a Hb Ha).
    apply (cc_trans_eq _ _ consistent b c a); [done..|].
    by apply (cc_sym _ _ consistent a c).
  - destruct (gtCF_eqCF b c); [|done]. apply cc_lt_gt; [done..|].
    apply (cc_trans_lt _ _ consistent c a b); [done..| |done].
    by apply cc_gt_lt.
Qed.

Lemma cc_eq_lt (a b c : A) :
  a ∈ elements → b ∈ elements → c ∈ elements →
  eqCF comparefn a b → ltCF comparefn b c → ltCF comparefn a c.
Proof.
  intros Ha Hb Hc Hab Hbc.
  destruct (cc_cases a c Ha Hc) as [?|[Heq|Hgt]]; [done| |].
  - destruct (ltCF_eqCF b c Hbc).
    apply (cc_trans_eq _ _ consistent b a c); [done..| |done].
    by apply (cc_sym _ _ consistent a b).
  - destruct (ltCF_eqCF b a).
    + apply (cc_trans_lt _ _ consistent b c a); [done..|]. by apply cc_gt_lt.
    + by apply (cc_sym _ _ consistent a b).
Qed.

(** A consistent comparator for a set is one for every part of it. *)
Lemma consistentComparator_subseteq (part : list A) :
  part ⊆ elements → consistentComparator comparefn part.
Proof.
  intros Hsub. split.
  - intros a b Ha Hb. apply (cc_returns _ _ consistent); auto.
  - intros a Ha. apply (cc_refl _ _ consistent); auto.
  - intros a b Ha Hb. apply (cc_sym _ _ consistent); auto.
  - intros a b c Ha Hb Hc. apply (cc_trans_eq _ _ consistent); auto.
  - intros a b c Ha Hb Hc. apply (cc_trans_lt _ _ consistent); auto.
  - intros a b c Ha Hb Hc. apply (cc_trans_gt _ _ consistent); auto.
Qed.
End ConsistentFacts.

Lemma consistentComparator_Permutation {A} (comparefn : A → A → result Z)
    (l l' : list A) :
  l ≡ₚ l' → consistentComparator comparefn l → consistentComparator comparefn l'.
Proof.
  intros Hperm Hc. apply (consistentComparator_subseteq comparefn l Hc).
  intros x. by rewrite Hperm.
Qed.

(** The decision of consistency is right. *)
Lemma forallb_elem_of {A} (f : A → bool) (l : list A) :
  forallb f l = true ↔ ∀ a, a ∈ l → f a = true.
Proof.
  rewrite forallb_forall. split; intros H a Ha; apply H; by apply list_elem_of_In.
Qed.

Lemma answers_true (P : Z → bool) (r : result Z) :
  answers P r = true ↔ ∃ v, r = Ok v ∧ P v = true.
Proof.
  destruct r as [v|]; simpl.
  - split; [by exists v | by intros (? & [= <-] & ?)].
  - split; [discriminate | by intros (? & ? & ?)].
Qed.

Lemma consistentb_sound {A} (comparefn : A → A → result Z) (l : list A) :
  consistentb comparefn l = true → consistentComparator comparefn l.
Proof.
  unfold consistentb. rewrite !andb_true_iff.
  intros (((((Hret & Hrefl) & Hsym) & Heq) & Hlt) & Hgt).
  assert (Elt : ∀ a b, answers (λ v, v <? 0) (comparefn a b) = true ↔
                       ltCF comparefn a b).
  { intros a b. rewrite answers_true. unfold ltCF.
    by setoid_rewrite Z.ltb_lt. }
  assert (Eeq : ∀ a b, answers (λ v, v =? 0) (comparefn a b) = true ↔
                       eqCF comparefn a b).
  { intros a b. rewrite answers_true. unfold eqCF. split.
    - intros (v & -> & Hv). apply Z.eqb_eq in Hv. by subst.
    - intros ->. by exists 0. }
  assert (Egt : ∀ a b, answers (λ v, 0 <? v) (comparefn a b) = true ↔
                       gtCF comparefn a b).
  { intros a b. rewrite answers_true. unfold gtCF.
    by setoid_rewrite Z.ltb_lt. }
  assert (Htrans : ∀ (R : A → A → bool) a b c,
            forallb (λ a, forallb (λ b, forallb (λ c,
              implb (R a b && R b c) (R a c)) l) l) l = true →
            a ∈ l → b ∈ l → c ∈ l →
            R a b = true → R b c = true → R a c = true).
  { intros R a b c H Ha Hb Hc Hab Hbc.
    rewrite forallb_elem_of in H. specialize (H a Ha).
    rewrite forallb_elem_of in H. specialize (H b Hb).
    rewrite forallb_elem_of in H. specialize (H c Hc).
    by rewrite Hab, Hbc in H. }
  split.
  - intros a b Ha Hb. rewrite forallb_elem_of in Hret. specialize (Hret a Ha).
    rewrite forallb_elem_of in Hret. specialize (Hret b Hb).
    apply answers_true in Hret as (v & Hv & _). by exists v.
  - intros a Ha. rewrite forallb_elem_of in Hrefl. by apply Eeq, Hrefl.
  - intros a b Ha Hb Hab. rewrite forallb_elem_of in Hsym. specialize (Hsym a Ha).
    rewrite forallb_elem_of in Hsym. specialize (Hsym b Hb).
    apply Eeq in Hab. rewrite Hab in Hsym. by apply Eeq.
  - intros a b c Ha Hb Hc Hab Hbc. apply Eeq.
    apply (Htrans _ a b c Heq); [done..| |]; by apply Eeq.
  - intros a b c Ha Hb Hc Hab Hbc. apply Elt.
    apply (Htrans _ a b c Hlt); [done..| |]; by apply Elt.
  - intros a b c Ha Hb Hc Hab Hbc. apply Egt.
    apply (Htrans _ a b c Hgt); [done..| |]; by apply Egt.
Qed.

(** * Sorted lists by their places *)

Lemma StronglySorted_lookup {A} (R : A → A → Prop) (l : list A)
    (k k' : nat) (x y : A) :
  StronglySorted R l → (k < k')%nat →
  l !! k = Some x → l !! k' = Some y → R x y.
Proof.
  intros Hl. revert k k'.
  induction Hl as [|z l _ IH Hz]; intros k k' Hlt Hx Hy; [done|].
  destruct k' as [|k']; [lia|]. destruct k as [|k]; simpl in *.
  - injection Hx as ->. rewrite Forall_forall in Hz.
    by eapply Hz, list_elem_of_lookup_2.
  - apply (IH k k'); [lia|done..].
Qed.

Lemma StronglySorted_from_lookup {A} (R : A → A → Prop) (l : list A) :
  (∀ k k' x y, (k < k')%nat → l !! k = Some x → l !! k' = Some y → R x y) →
  StronglySorted R l.
Proof.
  induction l as [|z l IH]; intros H; constructor.
  - apply IH. intros k k' x y Hlt Hx Hy. apply (H (S k) (S k')); [lia|done..].
  - apply Forall_forall. intros y Hy.
    apply list_elem_of_lookup in Hy as [k Hk]. by apply (H O (S k)); [lia|..].
Qed.

(** * The stable order *)

Section StableOrder.
Context (comparefn : nat → nat → result Z) (n : nat).
Hypothesis consistent : consistentComparator comparefn (seq 0 n).

Lemma stableLt_trans (i j k : nat) :
  (i < n)%nat → (j < n)%nat → (k < n)%nat →
  stableLt comparefn i j → stableLt comparefn j k → stableLt comparefn i k.
Proof.
  intros Hi Hj Hk.
  assert (i ∈ seq 0 n ∧ j ∈ seq 0 n ∧ k ∈ seq 0 n) as (Ei & Ej & Ek)
    by (rewrite !elem_of_seq; lia).
  intros [Hij|[Hij Hlt]] [Hjk|[Hjk Hlt']].
  - left. by apply (cc_trans_lt _ _ consistent i j k).
  - left. by apply (cc_lt_eq _ _ consistent i j k).
  - left. by apply (cc_eq_lt _ _ consistent i j k).
  - right. split; [|lia]. by apply (cc_trans_eq _ _ consistent i j k).
Qed.

Lemma stableLt_asym (i j : nat) :
  (i < n)%nat → (j < n)%nat →
  stableLt comparefn i j → stableLt comparefn j i → False.
Proof.
  intros Hi Hj.
  assert (i ∈ seq 0 n ∧ j ∈ seq 0 n) as (Ei & Ej) by (rewrite !elem_of_seq; lia).
  intros [Hij|[Hij Hlt]] [Hji|[Hji Hlt']].
  - eapply ltCF_gtCF; [exact Hij|]. by apply (cc_lt_gt _ _ consistent).
  - eapply ltCF_eqCF; [exact Hij|]. by apply (cc_sym _ _ consistent).
  - eapply ltCF_eqCF; [exact Hji|]. by apply (cc_sym _ _ consistent).
  - lia.
Qed.

(** Two different indices are ordered one way or the other. *)
Lemma stableLt_total (i j : nat) :
  (i < n)%nat → (j < n)%nat → i ≠ j →
  stableLt comparefn i j ∨ stableLt comparefn j i.
Proof.
  intros Hi Hj Hne.
  assert (i ∈ seq 0 n ∧ j ∈ seq 0 n) as (Ei & Ej) by (rewrite !elem_of_seq; lia).
  destruct (cc_cases _ _ consistent i j Ei Ej) as [?|[Heq|Hgt]].
  - left. by left.
  - destruct (Nat.lt_total i j) as [?|[?|?]]; [|done|].
    + left. by right.
    + right. right. split; [|done]. by apply (cc_sym _ _ consistent).
  - right. left. by apply (cc_gt_lt _ _ consistent).
Qed.

(** A reordering of the indices that is sorted for the stable order is
    in sort order. *)
Lemma StronglySorted_sortOrder (p : list nat) :
  p ≡ₚ seq 0 n → StronglySorted (stableLt comparefn) p → sortOrder comparefn n p.
Proof.
  intros Hperm Hsorted.
  assert (Hin : ∀ i, (i < n)%nat → ∃ k, p !! k = Some i).
  { intros i Hi. apply list_elem_of_lookup. rewrite Hperm, elem_of_seq. lia. }
  assert (Hbefore : ∀ i j, (i < n)%nat → (j < n)%nat →
            stableLt comparefn i j → before p i j).
  { intros i j Hi Hj Hij.
    destruct (Hin i Hi) as [k Hk]. destruct (Hin j Hj) as [k' Hk'].
    exists k, k'. do 2 (split; [done|]).
    destruct (Nat.lt_total k k') as [?|[->|Hgt]]; [done| |].
    - rewrite Hk in Hk'. injection Hk' as ->.
      destruct (stableLt_asym j j Hj Hj Hij Hij).
    - destruct (stableLt_asym i j Hi Hj Hij).
      by apply (StronglySorted_lookup _ p k' k j i). }
  split.
  - intros i j Hi Hj Hlt. apply Hbefore; [done..|]. by left.
  - intros i j Hij Hj Heq. apply Hbefore; [lia|done|]. by right.
Qed.

(** There is one reordering in sort order. *)
Lemma sortOrder_StronglySorted (p : list nat) :
  p ≡ₚ seq 0 n → sortOrder comparefn n p → StronglySorted (stableLt comparefn) p.
Proof.
  intros Hperm [Hlt Heq].
  assert (Hnodup : NoDup p) by (rewrite Hperm; apply NoDup_seq).
  apply StronglySorted_from_lookup. intros k k' i j Hkk' Hk Hk'.
  assert (Hi : (i < n)%nat).
  { apply list_elem_of_lookup_2 in Hk. rewrite Hperm, elem_of_seq in Hk. lia. }
  assert (Hj : (j < n)%nat).
  { apply list_elem_of_lookup_2 in Hk'. rewrite Hperm, elem_of_seq in Hk'. lia. }
  assert (Hne : i ≠ j).
  { intros ->. pose proof (NoDup_lookup _ _ _ _ Hnodup Hk Hk'). lia. }
  destruct (stableLt_total i j Hi Hj Hne) as [?|Hji]; [done|].
  assert (Hb : before p j i).
  { destruct Hji as [?|[? ?]]; [by apply Hlt | by apply Heq]. }
  destruct Hb as (k1 & k2 & Hk1 & Hk2 & Hlt12).
  pose proof (NoDup_lookup _ _ _ _ Hnodup Hk Hk2).
  pose proof (NoDup_lookup _ _ _ _ Hnodup Hk' Hk1). lia.
Qed.
End StableOrder.

Lemma sortOrder_unique (comparefn : nat → nat → result Z) (n : nat)
    (p p' : list nat) :
  consistentComparator comparefn (seq 0 n) →
  p ≡ₚ seq 0 n → p' ≡ₚ seq 0 n →
  sortOrder comparefn n p → sortOrder comparefn n p' → p = p'.
Proof.
  intros Hc Hp Hp' Hs Hs'.
  apply (StronglySorted_unique_strong (stableLt comparefn)).
  - intros i j Hi Hj Hij Hji. rewrite Hp, elem_of_seq in Hi.
    rewrite Hp', elem_of_seq in Hj.
    destruct (stableLt_asym comparefn n Hc i j); [lia..|done|done].
  - by apply (sortOrder_StronglySorted comparefn n).
  - by apply (sortOrder_StronglySorted comparefn n).
  - by rewrite Hp, Hp'.
Qed.

(** * [Array.prototype.sort] on every engine *)

Section ElementAt.
Context {A : Type}.
Implicit Types l : list A.

Lemma elementAt_Ok l i a : elementAt l i = Ok a ↔ l !! i = Some a.
Proof.
  unfold elementAt. destruct (l !! i); split; intros H; by inversion H.
Qed.

Lemma Forall2_lookup_seq l : Forall2 (λ i a, l !! i = Some a) (seq 0 (length l)) l.
Proof.
  apply Forall2_same_length_lookup_2; [by rewrite length_seq|].
  intros k i a Hi Ha. apply lookup_seq in Hi as [-> _]. done.
Qed.

Lemma mapM_elementAt_seq l : mapM (elementAt l) (seq 0 (length l)) = Ok l.
Proof.
  apply mapM_Ok. eapply Forall2_impl; [apply Forall2_lookup_seq|].
  intros i a. by rewrite elementAt_Ok.
Qed.

Lemma omap_lookup_Forall2 l p l' :
  Forall2 (λ i a, l !! i = Some a) p l' → omap (λ i, l !! i) p = l'.
Proof.
  induction 1 as [|i a p l' Hi _ IH]; [done|].
  change (omap (λ i, l !! i) (i :: p))
    with (match l !! i with Some a => a :: omap (λ i, l !! i) p
          | None => omap (λ i, l !! i) p end).
  by rewrite Hi, IH.
Qed.

(** The elements at a reordering of the indices are a reordering of
    the elements. *)
Lemma lookup_Permutation l p l' :
  p ≡ₚ seq 0 (length l) → Forall2 (λ i a, l !! i = Some a) p l' → l' ≡ₚ l.
Proof.
  intros Hperm Hp.
  pose proof (omap_lookup_Forall2 l p l' Hp) as <-.
  pose proof (omap_lookup_Forall2 l _ l (Forall2_lookup_seq l)) as Hl.
  transitivity (omap (λ i, l !! i) (seq 0 (length l)));
    [by apply omap_Permutation | by rewrite Hl].
Qed.
End ElementAt.

Section ArraySortFacts.
Context {E : Engine} {A : Type}.
Implicit Types (comparefn : A → A → result Z) (l : list A).

Lemma arraySort_Ok comparefn l l' :
  arraySort comparefn l = Ok l' ↔
  ∃ p, sortIndices (comparefnAt comparefn l) (length l) = Ok p ∧
       p ≡ₚ seq 0 (length l) ∧
       Forall2 (λ i a, l !! i = Some a) p l'.
Proof.
  unfold arraySort. rewrite rbind_Ok. split.
  - intros (p & Hp & Hl'). exists p. split; [done|].
    split; [by eapply sortIndices_Permutation|].
    apply mapM_Ok in Hl'. eapply Forall2_impl; [exact Hl'|].
    intros i a. by rewrite elementAt_Ok.
  - intros (p & Hp & _ & Hl'). exists p. split; [done|].
    apply mapM_Ok. eapply Forall2_impl; [exact Hl'|].
    intros i a. by rewrite elementAt_Ok.
Qed.

Lemma arraySort_Permutation comparefn l l' :
  arraySort comparefn l = Ok l' → l' ≡ₚ l.
Proof.
  intros H. apply arraySort_Ok in H as (p & _ & Hperm & Hl').
  by eapply lookup_Permutation.
Qed.

Lemma comparefnAt_lookup comparefn l i j a b :
  l !! i = Some a → l !! j = Some b →
  comparefnAt comparefn l i j = comparefn a b.
Proof. intros Hi Hj. unfold comparefnAt. by rewrite Hi, Hj. Qed.

(** Two comparison functions that agree on the elements of the array
    sort it alike. *)
Lemma arraySort_ext comparefn comparefn' l :
  (∀ a b, a ∈ l → b ∈ l → comparefn a b = comparefn' a b) →
  arraySort comparefn l = arraySort comparefn' l.
Proof.
  intros Hext. unfold arraySort.
  rewrite (sortIndices_ext _ (comparefnAt comparefn' l)); [done|].
  intros i j Hi Hj.
  destruct (lookup_lt_is_Some_2 l i Hi) as [a Ha].
  destruct (lookup_lt_is_Some_2 l j Hj) as [b Hb].
  rewrite !(comparefnAt_lookup _ l i j a b) by done.
  apply Hext; by eapply list_elem_of_lookup_2.
Qed.

(** A comparison function that never throws on the elements lets the
    sort finish. *)
Lemma arraySort_total comparefn l :
  (∀ a b, a ∈ l → b ∈ l → ∃ c, comparefn a b = Ok c) →
  ∃ l', arraySort comparefn l = Ok l'.
Proof.
  intros Htot.
  destruct (sortIndices_returns (comparefnAt comparefn l) (length l)) as [p Hp].
  { intros i j Hi Hj.
    destruct (lookup_lt_is_Some_2 l i Hi) as [a Ha].
    destruct (lookup_lt_is_Some_2 l j Hj) as [b Hb].
    rewrite (comparefnAt_lookup _ l i j a b) by done.
    apply Htot; by eapply list_elem_of_lookup_2. }
  unfold arraySort. rewrite Hp. simpl. apply mapM_total.
  apply sortIndices_Permutation in Hp. rewrite Hp.
  apply Forall_forall. intros i Hi. apply elem_of_seq in Hi.
  destruct (lookup_lt_is_Some_2 l i) as [a Ha]; [lia|].
  exists a. by apply elementAt_Ok.
Qed.

(** An array of fewer than two elements is returned as it is, whatever
    the comparison function. *)
Lemma arraySort_small comparefn l :
  (length l < 2)%nat → arraySort comparefn l = Ok l.
Proof.
  intros Hlen. unfold arraySort. rewrite sortIndices_small by done. simpl.
  apply mapM_elementAt_seq.
Qed.

(** A comparison function that is a consistent comparator for the
    elements is one for the indices. *)
Lemma comparefnAt_consistent comparefn l :
  consistentComparator comparefn l →
  consistentComparator (comparefnAt comparefn l) (seq 0 (length l)).
Proof.
  intros Hc.
  assert (Hat : ∀ i, i ∈ seq 0 (length l) → ∃ a, l !! i = Some a ∧ a ∈ l).
  { intros i Hi. apply elem_of_seq in Hi.
    destruct (lookup_lt_is_Some_2 l i) as [a Ha]; [lia|].
    exists a. split; [done|]. by eapply list_elem_of_lookup_2. }
  split; unfold ltCF, eqCF, gtCF.
  - intros i j Hi Hj.
    destruct (Hat i Hi) as (a & Ha & Ea), (Hat j Hj) as (b & Hb & Eb).
    rewrite (comparefnAt_lookup _ l i j a b) by done.
    by apply (cc_returns _ _ Hc).
  - intros i Hi. destruct (Hat i Hi) as (a & Ha & Ea).
    rewrite (comparefnAt_lookup _ l i i a a) by done.
    by apply (cc_refl _ _ Hc).
  - intros i j Hi Hj.
    destruct (Hat i Hi) as (a & Ha & Ea), (Hat j Hj) as (b & Hb & Eb).
    rewrite (comparefnAt_lookup _ l i j a b), (comparefnAt_lookup _ l j i b a)
      by done.
    by apply (cc_sym _ _ Hc).
  - intros i j k Hi Hj Hk.
    destruct (Hat i Hi) as (a & Ha & Ea), (Hat j Hj) as (b & Hb & Eb),
      (Hat k Hk) as (c & Hc' & Ec).
    rewrite (comparefnAt_lookup _ l i j a b), (comparefnAt_lookup _ l j k b c),
      (comparefnAt_lookup _ l i k a c) by done.
    by apply (cc_trans_eq _ _ Hc).
  - intros i j k Hi Hj Hk.
    destruct (Hat i Hi) as (a & Ha & Ea), (Hat j Hj) as (b & Hb & Eb),
      (Hat k Hk) as (c & Hc' & Ec).
    rewrite (comparefnAt_lookup _ l i j a b), (comparefnAt_lookup _ l j k b c),
      (comparefnAt_lookup _ l i k a c) by done.
    by apply (cc_trans_lt _ _ Hc).
  - intros i j k Hi Hj Hk.
    destruct (Hat i Hi) as (a & Ha & Ea), (Hat j Hj) as (b & Hb & Eb),
      (Hat k Hk) as (c & Hc' & Ec).
    rewrite (comparefnAt_lookup _ l i j a b), (comparefnAt_lookup _ l j k b c),
      (comparefnAt_lookup _ l i k a c) by done.
    by apply (cc_trans_gt _ _ Hc).
Qed.

(** For a consistent comparator the sort returns, whatever the engine. *)
Lemma arraySort_consistent_returns comparefn l :
  consistentComparator comparefn l → ∃ l', arraySort comparefn l = Ok l'.
Proof. intros Hc. apply arraySort_total. apply (cc_returns _ _ Hc). Qed.

(** For a consistent comparator the sort is stable: elements for which
    the comparison function answers 0 keep the order they had. *)
Lemma arraySort_stable comparefn l l' :
  consistentComparator comparefn l →
  arraySort comparefn l = Ok l' →
  ∃ p, stableReordering (eqCF comparefn) l p ∧
       Forall2 (λ i a, l !! i = Some a) p l'.
Proof.
  intros Hc H. apply arraySort_Ok in H as (p & Hp & Hperm & Hl').
  exists p. split; [split; [done|]|done].
  intros i j a b Hij Ha Hb Htie.
  apply (sortIndices_sortOrder _ _ _ (comparefnAt_consistent _ _ Hc)) in Hp
    as [_ Heq].
  apply Heq; [done|by eapply lookup_lt_Some|].
  red. by rewrite (comparefnAt_lookup _ l i j a b).
Qed.

(** For a consistent comparator the result is sorted: no element is
    put behind one that stands after it. *)
Lemma arraySort_sorted comparefn l l' :
  consistentComparator comparefn l →
  arraySort comparefn l = Ok l' →
  StronglySorted (inOrder comparefn) l'.
Proof.
  intros Hc H. apply arraySort_Ok in H as (p & Hp & Hperm & Hl').
  pose proof (comparefnAt_consistent _ _ Hc) as Hc'.
  apply (sortIndices_sortOrder _ _ _ Hc') in Hp.
  apply (sortOrder_StronglySorted _ _ Hc' _ Hperm) in Hp.
  apply StronglySorted_from_lookup. intros k k' a b Hkk' Ha Hb.
  destruct (Forall2_lookup_r _ _ _ _ _ Hl' Ha) as (i & Hi & Hia).
  destruct (Forall2_lookup_r _ _ _ _ _ Hl' Hb) as (j & Hj & Hjb).
  pose proof (StronglySorted_lookup _ p k k' i j Hp Hkk' Hi Hj) as Hlt.
  unfold stableLt, ltCF, eqCF in Hlt.
  rewrite (comparefnAt_lookup _ l i j a b) in Hlt by done.
  destruct Hlt as [(v & Hv & Hneg)|[Hv _]].
  - exists v. split; [done|lia].
  - by exists 0.
Qed.

(** For a consistent comparator a sorted array is left as it is. *)
Lemma arraySort_sorted_id comparefn l :
  consistentComparator comparefn l →
  StronglySorted (inOrder comparefn) l →
  arraySort comparefn l = Ok l.
Proof.
  intros Hc Hsorted.
  pose proof (comparefnAt_consistent _ _ Hc) as Hc'.
  destruct (sortIndices_returns (comparefnAt comparefn l) (length l)) as [p Hp].
  { intros i j Hi Hj. apply (cc_returns _ _ Hc'); apply elem_of_seq; lia. }
  pose proof (sortIndices_Permutation _ _ _ Hp) as Hperm.
  assert (p = seq 0 (length l)) as ->.
  { apply (sortOrder_unique (comparefnAt comparefn l) (length l));
      [done..|by apply sortIndices_sortOrder|].
    apply StronglySorted_sortOrder; [done..|].
    apply StronglySorted_from_lookup. intros k k' i j Hkk' Hi Hj.
    apply lookup_seq in Hi as [-> Hk], Hj as [-> Hk']. simpl.
    destruct (lookup_lt_is_Some_2 l k Hk) as [a Ha].
    destruct (lookup_lt_is_Some_2 l k' Hk') as [b Hb].
    destruct (StronglySorted_lookup _ l k k' a b Hsorted Hkk' Ha Hb)
      as (v & Hv & Hle).
    unfold stableLt, ltCF, eqCF. rewrite (comparefnAt_lookup _ l k k' a b) by done.
    destruct (Z.eq_dec v 0) as [->|Hne].
    - right. split; [done|lia].
    - left. exists v. split; [done|lia]. }
  unfold arraySort. rewrite Hp. simpl. apply mapM_elementAt_seq.
Qed.
End ArraySortFacts.

(** For a consistent comparator the result of the sort does not depend
    on the engine. *)
Lemma arraySort_engine_independent (E E' : Engine) {A}
    (comparefn : A → A → result Z) (l : list A) :
  consistentComparator comparefn l →
  arraySort (E := E) comparefn l = arraySort (E := E') comparefn l.
Proof.
  intros Hc. pose proof (comparefnAt_consistent comparefn l Hc) as Hc'.
  assert (Hret : ∀ i j, (i < length l)%nat → (j < length l)%nat →
                        ∃ v, comparefnAt comparefn l i j = Ok v).
  { intros i j Hi Hj. apply (cc_returns _ _ Hc'); apply elem_of_seq; lia. }
  destruct (sortIndices_returns (Engine := E) _ _ Hret) as [p Hp].
  destruct (sortIndices_returns (Engine := E') _ _ Hret) as [p' Hp'].
  unfold arraySort. rewrite Hp, Hp'.
  by rewrite (sortOrder_unique (comparefnAt comparefn l) (length l) p p' Hc'
                (sortIndices_Permutation _ _ _ Hp)
                (sortIndices_Permutation _ _ _ Hp')
                (sortIndices_sortOrder _ _ _ Hc' Hp)
                (sortIndices_sortOrder _ _ _ Hc' Hp')).
Qed.

(** Sorting commutes with a projection of the elements when the
    comparison function looks at the projection only. *)
Section ArraySortMap.
Context {E : Engine} {A B : Type} (f : B → A) (comparefn : A → A → result Z).

Lemma mapM_elementAt_fmap (l : list B) (p : list nat) :
  mapM (elementAt (f <$> l)) p =
  let* l' := mapM (elementAt l) p in Ok (f <$> l').
Proof.
  induction p as [|i p IH]; simpl; [done|]. rewrite IH.
  unfold elementAt at 1 3. rewrite list_lookup_fmap.
  destruct (l !! i) as [b|]; simpl; [|done].
  by destruct (mapM (elementAt l) p).
Qed.

Lemma arraySort_map (l : list B) :
  arraySort comparefn (map f l) =
  let* l' := arraySort (λ p q, comparefn (f p) (f q)) l in Ok (map f l').
Proof.
  unfold arraySort. rewrite length_fmap.
  rewrite (sortIndices_ext _ (comparefnAt (λ p q, comparefn (f p) (f q)) l)).
  - destruct (sortIndices _ (length l)) as [p|]; simpl; [|done].
    apply mapM_elementAt_fmap.
  - intros i j _ _. unfold comparefnAt. rewrite !list_lookup_fmap.
    by destruct (l !! i), (l !! j).
Qed.
End ArraySortMap.

(** * The engine that sorts by insertion *)

Section InsertionSortFacts.
Context {A : Type}.
Implicit Types (comparefn : A → A → result Z) (l : list A).

Lemma sortInsert_Ok comparefn a l l' :
  sortInsert comparefn a l = Ok l' →
  ∃ passed rest,
    l = passed ++ rest ∧ l' = passed ++ a :: rest ∧
    Forall (gtCF comparefn a) passed ∧
    match rest with
    | [] => True
    | b :: _ => inOrder comparefn a b
    end.
Proof.
  revert l'. induction l as [|b l IH]; intros l'; simpl.
  - intros [= <-]. by exists [], [].
  - intros H. apply rbind_Ok in H as (c & Hc & H).
    destruct (Z.ltb_spec 0 c) as [Hpos|Hle].
    + apply rbind_Ok in H as (rest' & Hr & [= <-]).
      destruct (IH _ Hr) as (passed & rest & -> & -> & Hp & Hrest).
      exists (b :: passed), rest. repeat split; auto.
      constructor; [by exists c | done].
    + injection H as <-. exists [], (b :: l). repeat split; auto.
      by exists c.
Qed.

Lemma sortInsert_Permutation comparefn a l l' :
  sortInsert comparefn a l = Ok l' → l' ≡ₚ a :: l.
Proof.
  intros H. apply sortInsert_Ok in H as (passed & rest & -> & -> & _).
  by rewrite Permutation_middle.
Qed.

Lemma insertionSort_Permutation comparefn l l' :
  insertionSort comparefn l = Ok l' → l' ≡ₚ l.
Proof.
  revert l'. induction l as [|a l IH]; intros l'; simpl.
  - by intros [= <-].
  - intros H. apply rbind_Ok in H as (sorted & Hs & Hi).
    apply sortInsert_Permutation in Hi. rewrite Hi. by rewrite (IH _ Hs).
Qed.

Lemma sortInsert_ext comparefn comparefn' a l :
  Forall (λ b, comparefn a b = comparefn' a b) l →
  sortInsert comparefn a l = sortInsert comparefn' a l.
Proof.
  induction 1 as [|b l Hb _ IH]; simpl; [done|]. by rewrite Hb, IH.
Qed.

Lemma insertionSort_ext comparefn comparefn' l :
  (∀ a b, a ∈ l → b ∈ l → comparefn a b = comparefn' a b) →
  insertionSort comparefn l = insertionSort comparefn' l.
Proof.
  induction l as [|a l IH]; intros Hext; simpl; [done|].
  rewrite <- IH by (intros; apply Hext; by right).
  destruct (insertionSort comparefn l) as [sorted|] eqn:Hs; simpl; [|done].
  apply sortInsert_ext, Forall_forall. intros b Hb.
  apply Hext; [by left|]. right.
  by rewrite <- (insertionSort_Permutation _ _ _ Hs).
Qed.

Lemma sortInsert_returns comparefn a l :
  Forall (λ b, ∃ c, comparefn a b = Ok c) l →
  ∃ l', sortInsert comparefn a l = Ok l'.
Proof.
  induction 1 as [|b l [c Hc] _ [l' IH]]; simpl; [by eexists|].
  rewrite Hc. simpl. destruct (0 <? c); [|by eexists].
  rewrite IH. by eexists.
Qed.

Lemma insertionSort_returns comparefn l :
  (∀ a b, a ∈ l → b ∈ l → ∃ c, comparefn a b = Ok c) →
  ∃ l', insertionSort comparefn l = Ok l'.
Proof.
  induction l as [|a l IH]; intros Htot; simpl; [by eexists|].
  destruct IH as [sorted Hs]; [intros; apply Htot; by right|].
  rewrite Hs. simpl. apply sortInsert_returns, Forall_forall. intros b Hb.
  apply Htot; [by left|]. right.
  by rewrite <- (insertionSort_Permutation _ _ _ Hs).
Qed.
End InsertionSortFacts.

Section InsertionSortOrder.
Context (comparefn : nat → nat → result Z) (n : nat).
Hypothesis consistent : consistentComparator comparefn (seq 0 n).

(** The indices still to be inserted come before every index of the
    sorted rest. *)
Lemma insertionSort_StronglySorted (l l' : list nat) :
  StronglySorted lt l → Forall (λ i, (i < n)%nat) l →
  insertionSort comparefn l = Ok l' →
  StronglySorted (stableLt comparefn) l'.
Proof.
  revert l'. induction l as [|a l IH]; intros l' Hl Hn; simpl.
  { intros [= <-]. constructor. }
  intros H. apply rbind_Ok in H as (sorted & Hs & Hi).
  apply StronglySorted_inv in Hl as [Hl Hlt].
  apply Forall_cons in Hn as [Ha Hn].
  specialize (IH _ Hl Hn Hs).
  pose proof (insertionSort_Permutation _ _ _ Hs) as Hperm.
  rewrite <- Hperm in Hlt, Hn.
  apply sortInsert_Ok in Hi as (passed & rest & -> & -> & Hp & Hr).
  apply StronglySorted_app in IH as (Hcross & Hs1 & Hs2).
  apply Forall_app in Hlt as [Hlt1 Hlt2]. apply Forall_app in Hn as [Hn1 Hn2].
  assert (Ein : ∀ i, (i < n)%nat → i ∈ seq 0 n)
    by (intros; apply elem_of_seq; lia).
  apply StronglySorted_app_2; [|done|].
  - intros x y Hx Hy. apply elem_of_cons in Hy as [->|Hy]; [|by apply Hcross].
    rewrite Forall_forall in Hp, Hn1. left.
    apply (cc_gt_lt _ _ consistent); auto.
  - constructor; [done|]. destruct rest as [|b rest]; [constructor|].
    apply Forall_cons in Hlt2 as [Hab _]. apply Forall_cons in Hn2 as [Hb Hn2].
    assert (Hfirst : stableLt comparefn a b).
    { destruct Hr as (c & Hc & Hle). destruct (Z.eq_dec c 0) as [->|Hne].
      - right. by split.
      - left. exists c. split; [done|lia]. }
    constructor; [done|].
    apply StronglySorted_inv in Hs2 as [_ Hb_rest].
    rewrite Forall_forall in Hb_rest, Hn2. apply Forall_forall. intros y Hy.
    apply (stableLt_trans comparefn n consistent a b y); auto.
Qed.
End InsertionSortOrder.

Lemma StronglySorted_lt_seq (start len : nat) : StronglySorted lt (seq start len).
Proof.
  revert start. induction len as [|len IH]; intros start; simpl; constructor;
    [done|].
  apply Forall_forall. intros i Hi. apply elem_of_seq in Hi. lia.
Qed.

Lemma insertionSort_indices_ext comparefn comparefn' n :
  (∀ i j, (i < n)%nat → (j < n)%nat → comparefn i j = comparefn' i j) →
  insertionSort comparefn (seq 0 n) = insertionSort comparefn' (seq 0 n).
Proof.
  intros Hext. apply insertionSort_ext.
  intros i j Hi Hj. apply elem_of_seq in Hi, Hj. apply Hext; lia.
Qed.

Lemma insertionSort_indices_returns (comparefn : nat → nat → result Z) n :
  (∀ i j, (i < n)%nat → (j < n)%nat → ∃ v, comparefn i j = Ok v) →
  ∃ p, insertionSort comparefn (seq 0 n) = Ok p.
Proof.
  intros Htot. apply insertionSort_returns.
  intros i j Hi Hj. apply elem_of_seq in Hi, Hj. apply Htot; lia.
Qed.

Lemma insertionSort_indices_small (comparefn : nat → nat → result Z) n :
  (n < 2)%nat → insertionSort comparefn (seq 0 n) = Ok (seq 0 n).
Proof. destruct n as [|[|n]]; [done..|lia]. Qed.

Lemma insertionSort_indices_sortOrder (comparefn : nat → nat → result Z) n p :
  consistentComparator comparefn (seq 0 n) →
  insertionSort comparefn (seq 0 n) = Ok p → sortOrder comparefn n p.
Proof.
  intros Hc Hp. apply StronglySorted_sortOrder; [done| |].
  - by apply insertionSort_Permutation in Hp.
  - apply (insertionSort_StronglySorted comparefn n Hc (seq 0 n));
      [apply StronglySorted_lt_seq| |done].
    apply Forall_forall. intros i Hi. apply elem_of_seq in Hi. lia.
Qed.

(** The sort by insertion is an engine. *)
Definition insertionEngine : Engine := {|
  sortIndices comparefn n := insertionSort comparefn (seq 0 n);
  sortIndices_ext := insertionSort_indices_ext;
  sortIndices_Permutation comparefn n := insertionSort_Permutation comparefn (seq 0 n);
  sortIndices_returns := insertionSort_indices_returns;
  sortIndices_small := insertionSort_indices_small;
  sortIndices_sortOrder := insertionSort_indices_sortOrder
|}.

(** * The engine that sorts as V8 does *)

Section V8SortFacts.
Context {A : Type}.
Implicit Types (comparefn : A → A → result Z) (l : list A).

Lemma countRun_le comparefn isDescending previous rest more :
  countRun comparefn isDescending previous rest = Ok more →
  (more ≤ length rest)%nat.
Proof.
  revert previous more. induction rest as [|current rest IH];
    intros previous more; simpl.
  - intros [= <-]. lia.
  - intros H. apply rbind_Ok in H as (order & _ & H).
    destruct (if isDescending then _ else _).
    + injection H as <-. lia.
    + apply rbind_Ok in H as (more' & Hm & [= <-]). apply IH in Hm. lia.
Qed.

Lemma countAndMakeRun_Permutation comparefn l run rest :
  countAndMakeRun comparefn l = Ok (run, rest) → run ++ rest ≡ₚ l.
Proof.
  destruct l as [|a [|b l]]; simpl.
  - intros [= <- <-]. done.
  - intros [= <- <-]. done.
  - intros H. apply rbind_Ok in H as (order & _ & H).
    apply rbind_Ok in H as (more & _ & [= <- <-]).
    destruct (order <? 0); [rewrite reverse_Permutation|]; simpl;
      by rewrite take_drop.
Qed.

Lemma insert_Permutation (place : nat) (pivot : A) (sorted : list A) :
  take place sorted ++ pivot :: drop place sorted ≡ₚ pivot :: sorted.
Proof.
  rewrite <- Permutation_middle. by rewrite take_drop.
Qed.

Lemma binaryInsertionSort_Permutation comparefn sorted rest l' :
  binaryInsertionSort comparefn sorted rest = Ok l' → l' ≡ₚ sorted ++ rest.
Proof.
  revert sorted l'. induction rest as [|pivot rest IH]; intros sorted l'; simpl.
  - intros [= <-]. by rewrite app_nil_r.
  - intros H. apply rbind_Ok in H as (left & _ & H). apply IH in H.
    rewrite H, insert_Permutation. by rewrite <- Permutation_middle.
Qed.

Lemma v8Sort_Permutation comparefn l l' :
  v8Sort comparefn l = Ok l' → l' ≡ₚ l.
Proof.
  unfold v8Sort. destruct (length l <? 2)%nat; [by intros [= <-]|].
  intros H. apply rbind_Ok in H as ([run rest] & Hrun & H). simpl in H.
  apply binaryInsertionSort_Permutation in H.
  apply countAndMakeRun_Permutation in Hrun. by rewrite H.
Qed.

(** The calls are made on elements of the array. *)
Lemma countRun_ext comparefn comparefn' isDescending previous rest :
  (∀ a b, a ∈ previous :: rest → b ∈ previous :: rest →
          comparefn a b = comparefn' a b) →
  countRun comparefn isDescending previous rest =
  countRun comparefn' isDescending previous rest.
Proof.
  revert previous. induction rest as [|current rest IH]; intros previous Hext;
    simpl; [done|].
  rewrite (Hext current previous) by (rewrite !elem_of_cons; auto).
  rewrite IH; [done|]. intros a b Ha Hb. apply Hext; by right.
Qed.

Lemma countAndMakeRun_ext comparefn comparefn' l :
  (∀ a b, a ∈ l → b ∈ l → comparefn a b = comparefn' a b) →
  countAndMakeRun comparefn l = countAndMakeRun comparefn' l.
Proof.
  intros Hext. destruct l as [|a [|b l]]; simpl; [done..|].
  rewrite (Hext b a) by (rewrite !elem_of_cons; auto).
  destruct (comparefn' b a) as [order|]; simpl; [|done].
  rewrite (countRun_ext comparefn comparefn'); [done|].
  intros x y Hx Hy. apply Hext; by right.
Qed.

Lemma binarySearch_ext comparefn comparefn' fuel pivot sorted left right :
  (∀ b, b ∈ sorted → comparefn pivot b = comparefn' pivot b) →
  binarySearch comparefn fuel pivot sorted left right =
  binarySearch comparefn' fuel pivot sorted left right.
Proof.
  intros Hext. revert left right.
  induction fuel as [|fuel IH]; intros left right; simpl; [done|].
  destruct (left <? right)%nat; [|done].
  destruct (sorted !! _) as [element|] eqn:Hmid; [|done].
  rewrite (Hext element) by (by eapply list_elem_of_lookup_2).
  by rewrite !IH.
Qed.

(** The search ends before its fuel does. *)
Lemma binarySearch_fuel comparefn fuel fuel' pivot sorted left right :
  (right - left ≤ fuel)%nat → (right - left ≤ fuel')%nat →
  binarySearch comparefn fuel pivot sorted left right =
  binarySearch comparefn fuel' pivot sorted left right.
Proof.
  revert fuel' left right.
  induction fuel as [|fuel IH]; intros [|fuel'] left right Hf Hf'; simpl;
    try done.
  - by destruct (Nat.ltb_spec left right); [lia|].
  - by destruct (Nat.ltb_spec left right); [lia|].
  - destruct (Nat.ltb_spec left right) as [Hlt|Hge]; [|done].
    assert (Hhalf : (Nat.div2 (right - left) < right - left)%nat)
      by (apply Nat.lt_div2; lia).
    remember (Nat.div2 (right - left)) as half eqn:Ehalf. clear Ehalf.
    destruct (sorted !! _) as [element|]; [|done].
    destruct (comparefn pivot element) as [order|]; simpl; [|done].
    destruct (order <? 0); apply IH; lia.
Qed.

Lemma binaryInsertionSort_ext comparefn comparefn' sorted rest :
  (∀ a b, a ∈ sorted ++ rest → b ∈ sorted ++ rest →
          comparefn a b = comparefn' a b) →
  binaryInsertionSort comparefn sorted rest =
  binaryInsertionSort comparefn' sorted rest.
Proof.
  revert sorted. induction rest as [|pivot rest IH]; intros sorted Hext;
    simpl; [done|].
  rewrite (binarySearch_ext comparefn comparefn').
  - destruct (binarySearch comparefn' _ _ _ _ _) as [left|]; simpl; [|done].
    apply IH. intros a b Ha Hb.
    assert (Hsub : ∀ x, x ∈ (take left sorted ++ pivot :: drop left sorted) ++ rest →
                        x ∈ sorted ++ pivot :: rest).
    { intros x. by rewrite insert_Permutation, <- Permutation_middle. }
    apply Hext; by apply Hsub.
  - intros b Hb. apply Hext; rewrite elem_of_app, elem_of_cons; auto.
Qed.

Lemma v8Sort_ext comparefn comparefn' l :
  (∀ a b, a ∈ l → b ∈ l → comparefn a b = comparefn' a b) →
  v8Sort comparefn l = v8Sort comparefn' l.
Proof.
  intros Hext. unfold v8Sort. destruct (length l <? 2)%nat; [done|].
  rewrite (countAndMakeRun_ext comparefn comparefn') by done.
  destruct (countAndMakeRun comparefn' l) as [[run rest]|] eqn:Hrun; simpl;
    [|done].
  apply binaryInsertionSort_ext. intros a b Ha Hb.
  apply countAndMakeRun_Permutation in Hrun.
  apply Hext; by rewrite <- Hrun.
Qed.

(** The sort returns when no call throws. *)
Lemma countRun_returns comparefn isDescending previous rest :
  (∀ a b, a ∈ previous :: rest → b ∈ previous :: rest →
          ∃ v, comparefn a b = Ok v) →
  ∃ more, countRun comparefn isDescending previous rest = Ok more.
Proof.
  revert previous. induction rest as [|current rest IH]; intros previous Htot;
    simpl; [by eexists|].
  destruct (Htot current previous) as [order ->];
    [rewrite !elem_of_cons; auto..|]. simpl.
  destruct (if isDescending then _ else _); [by eexists|].
  destruct (IH current) as [more ->]; [|by eexists].
  intros a b Ha Hb. apply Htot; by right.
Qed.

Lemma countAndMakeRun_returns comparefn l :
  (∀ a b, a ∈ l → b ∈ l → ∃ v, comparefn a b = Ok v) →
  ∃ runs, countAndMakeRun comparefn l = Ok runs.
Proof.
  intros Htot. destruct l as [|a [|b l]]; simpl; [by eexists..|].
  destruct (Htot b a) as [order ->]; [rewrite !elem_of_cons; auto..|]. simpl.
  destruct (countRun_returns comparefn (order <? 0) b l) as [more ->];
    [|by eexists].
  intros x y Hx Hy. apply Htot; by right.
Qed.

Lemma binarySearch_returns comparefn fuel pivot sorted left right :
  (∀ b, b ∈ sorted → ∃ v, comparefn pivot b = Ok v) →
  (right ≤ length sorted)%nat →
  ∃ place, binarySearch comparefn fuel pivot sorted left right = Ok place.
Proof.
  intros Htot. revert left right.
  induction fuel as [|fuel IH]; intros left right Hright; simpl; [by eexists|].
  destruct (Nat.ltb_spec left right) as [Hlt|Hge]; [|by eexists].
  assert (Hmid : (left + Nat.div2 (right - left) < right)%nat).
  { pose proof (Nat.lt_div2 (right - left)). lia. }
  destruct (lookup_lt_is_Some_2 sorted (left + Nat.div2 (right - left))%nat)
    as [element Hel]; [lia|].
  rewrite Hel. destruct (Htot element) as [order ->];
    [by eapply list_elem_of_lookup_2|]. simpl.
  destruct (order <? 0); apply IH; lia.
Qed.

Lemma binaryInsertionSort_returns comparefn sorted rest :
  (∀ a b, a ∈ sorted ++ rest → b ∈ sorted ++ rest → ∃ v, comparefn a b = Ok v) →
  ∃ l', binaryInsertionSort comparefn sorted rest = Ok l'.
Proof.
  revert sorted. induction rest as [|pivot rest IH]; intros sorted Htot;
    simpl; [by eexists|].
  destruct (binarySearch_returns comparefn (length sorted) pivot sorted 0
              (length sorted)) as [left ->]; [|done|].
  - intros b Hb. apply Htot; rewrite elem_of_app, elem_of_cons; auto.
  - simpl. apply IH. intros a b Ha Hb.
    assert (Hsub : ∀ x, x ∈ (take left sorted ++ pivot :: drop left sorted) ++ rest →
                        x ∈ sorted ++ pivot :: rest).
    { intros x. by rewrite insert_Permutation, <- Permutation_middle. }
    apply Htot; by apply Hsub.
Qed.

Lemma v8Sort_returns comparefn l :
  (∀ a b, a ∈ l → b ∈ l → ∃ v, comparefn a b = Ok v) →
  ∃ l', v8Sort comparefn l = Ok l'.
Proof.
  intros Htot. unfold v8Sort. destruct (length l <? 2)%nat; [by eexists|].
  destruct (countAndMakeRun_returns comparefn l Htot) as [[run rest] Hrun].
  rewrite Hrun. simpl. apply binaryInsertionSort_returns.
  apply countAndMakeRun_Permutation in Hrun.
  intros a b Ha Hb. apply Htot; by rewrite <- Hrun.
Qed.
End V8SortFacts.

Lemma StronglySorted_impl {A} (R R' : A → A → Prop) (l : list A) :
  (∀ x y, x ∈ l → y ∈ l → R x y → R' x y) →
  StronglySorted R l → StronglySorted R' l.
Proof.
  intros Himpl Hl. apply StronglySorted_from_lookup.
  intros k k' x y Hkk' Hx Hy.
  apply Himpl; [by eapply list_elem_of_lookup_2..|].
  by apply (StronglySorted_lookup R l k k').
Qed.

Section V8SortOrder.
Context (comparefn : nat → nat → result Z) (n : nat).
Hypothesis consistent : consistentComparator comparefn (seq 0 n).

(** The stable order on the indices of the array. *)
Let ordered (i j : nat) : Prop :=
  (i < n)%nat ∧ (j < n)%nat ∧ stableLt comparefn i j.

#[local] Instance ordered_trans : Transitive ordered.
Proof.
  intros i j k (Hi & Hj & Hij) (_ & Hk & Hjk). repeat split; [done..|].
  by apply (stableLt_trans comparefn n consistent i j k).
Qed.

Lemma elem_of_indices (i : nat) : (i < n)%nat → i ∈ seq 0 n.
Proof. intros. apply elem_of_seq. lia. Qed.

(** A run that does not descend is in order, and a run that descends
    strictly is in the opposite order. *)
Lemma countRun_ascending (previous : nat) (rest : list nat) (more : nat) :
  StronglySorted lt (previous :: rest) →
  Forall (λ i, (i < n)%nat) (previous :: rest) →
  countRun comparefn false previous rest = Ok more →
  Sorted ordered (previous :: take more rest).
Proof.
  revert previous more. induction rest as [|current rest IH];
    intros previous more Hlt Hn; simpl.
  { intros [= <-]. by repeat constructor. }
  intros H. apply rbind_Ok in H as (order & Horder & H).
  destruct (Z.ltb_spec order 0) as [Hneg|Hpos].
  { injection H as <-. by repeat constructor. }
  apply rbind_Ok in H as (more' & Hmore & [= <-]). simpl.
  apply StronglySorted_inv in Hlt as [Hlt Hprev].
  apply Forall_cons in Hn as [Hp Hn].
  constructor; [by apply IH|]. constructor.
  apply Forall_cons in Hprev as [Hpc _]. pose proof Hn as Hn'.
  apply Forall_cons in Hn' as [Hc _].
  repeat split; [done..|].
  destruct (Z.eq_dec order 0) as [->|Hne].
  - right. split; [|done].
    apply (cc_sym _ _ consistent current previous); auto using elem_of_indices.
  - left. apply (cc_gt_lt _ _ consistent); auto using elem_of_indices.
    exists order. split; [done|lia].
Qed.

Lemma countRun_descending (previous : nat) (rest : list nat) (more : nat) :
  Forall (λ i, (i < n)%nat) (previous :: rest) →
  countRun comparefn true previous rest = Ok more →
  Sorted (flip ordered) (previous :: take more rest).
Proof.
  revert previous more. induction rest as [|current rest IH];
    intros previous more Hn; simpl.
  { intros [= <-]. by repeat constructor. }
  intros H. apply rbind_Ok in H as (order & Horder & H).
  destruct (Z.leb_spec 0 order) as [Hpos|Hneg].
  { injection H as <-. by repeat constructor. }
  apply rbind_Ok in H as (more' & Hmore & [= <-]). simpl.
  apply Forall_cons in Hn as [Hp Hn].
  constructor; [by apply IH|]. constructor.
  apply Forall_cons in Hn as [Hc _].
  repeat split; [done..|]. left. by exists order.
Qed.

(** The run the array starts with, made ascending, and what follows it. *)
Lemma countAndMakeRun_sorted (l run rest : list nat) :
  StronglySorted lt l → Forall (λ i, (i < n)%nat) l →
  countAndMakeRun comparefn l = Ok (run, rest) →
  StronglySorted ordered run ∧ StronglySorted lt rest ∧
  (∀ i j, i ∈ run → j ∈ rest → (i < j)%nat).
Proof.
  intros Hlt Hn. destruct l as [|a [|b l]]; simpl.
  - intros [= <- <-]. repeat split; [constructor..|].
    intros i j Hi. by apply elem_of_nil in Hi.
  - intros [= <- <-]. repeat split; [by repeat constructor|constructor|].
    intros i j _ Hj. by apply elem_of_nil in Hj.
  - intros H. apply rbind_Ok in H as (order & Horder & H).
    apply rbind_Ok in H as (more & Hmore & [= <- <-]).
    assert (Hsplit : a :: b :: l = (a :: b :: take more l) ++ drop more l)
      by (simpl; by rewrite take_drop).
    rewrite Hsplit in Hlt. apply StronglySorted_app in Hlt as (Hcross & Hrun & Hrest).
    assert (Hchain : Sorted ordered
              (if order <? 0 then reverse (a :: b :: take more l)
               else a :: b :: take more l)).
    { pose proof Hn as Hn'. apply Forall_cons in Hn' as [Ha Hbl].
      pose proof Hbl as Hbl'. apply Forall_cons in Hbl' as [Hb _].
      destruct (Z.ltb_spec order 0) as [Hneg|Hpos].
      - apply (Sorted_reverse (flip ordered)). constructor.
        + by apply countRun_descending.
        + constructor. repeat split; [done..|]. left. by exists order.
      - constructor.
        + apply countRun_ascending; [|done..].
          rewrite <- (take_drop more l). rewrite app_comm_cons.
          apply StronglySorted_app_2.
          * intros i j Hi Hj. apply Hcross; [|done]. by right.
          * by apply StronglySorted_inv in Hrun as [? _].
          * done.
        + constructor. apply StronglySorted_inv in Hrun as [_ Hab].
          apply Forall_cons in Hab as [Hab _].
          repeat split; [done..|].
          destruct (Z.eq_dec order 0) as [->|Hne].
          * right. split; [|done].
            apply (cc_sym _ _ consistent b a); auto using elem_of_indices.
          * left. apply (cc_gt_lt _ _ consistent); auto using elem_of_indices.
            exists order. split; [done|lia]. }
    split; [exact (@Sorted_StronglySorted _ ordered ordered_trans _ Hchain)|].
    split; [done|].
    intros i j Hi Hj. apply Hcross; [|done].
    destruct (order <? 0); [by rewrite reverse_Permutation in Hi | done].
Qed.

(** The binary search finds the place behind the last element that is
    not greater than the pivot. *)
Lemma binarySearch_place (fuel : nat) (pivot : nat) (sorted : list nat)
    (left right place : nat) :
  StronglySorted ordered sorted → (pivot < n)%nat →
  Forall (λ i, (i < n)%nat) sorted →
  (right - left ≤ fuel)%nat → (left ≤ right)%nat →
  (∀ k x, (k < left)%nat → sorted !! k = Some x →
          ∃ v, comparefn pivot x = Ok v ∧ 0 ≤ v) →
  (∀ k x, (right ≤ k)%nat → sorted !! k = Some x → ltCF comparefn pivot x) →
  binarySearch comparefn fuel pivot sorted left right = Ok place →
  (∀ k x, (k < place)%nat → sorted !! k = Some x →
          ∃ v, comparefn pivot x = Ok v ∧ 0 ≤ v) ∧
  (∀ k x, (place ≤ k)%nat → sorted !! k = Some x → ltCF comparefn pivot x).
Proof.
  intros Hsorted Hpivot Hn. revert left right.
  induction fuel as [|fuel IH]; intros left right Hfuel Hle Hge Hlt; simpl.
  { intros [= <-]. split; [done|]. intros k x Hk. apply Hlt. lia. }
  destruct (Nat.ltb_spec left right) as [Hlr|Hrl].
  2:{ intros [= <-]. split; [done|]. intros k x Hk. apply Hlt. lia. }
  assert (Hmid : (left + Nat.div2 (right - left) < right)%nat).
  { pose proof (Nat.lt_div2 (right - left)). lia. }
  remember (left + Nat.div2 (right - left))%nat as mid eqn:Emid in *.
  assert (Hhalf : (left ≤ mid ∧ mid - left ≤ fuel ∧ right - S mid ≤ fuel)%nat).
  { clear -Emid Hmid Hfuel. generalize dependent (Nat.div2 (right - left)).
    intros; lia. }
  clear Emid.
  destruct (sorted !! mid) as [element|] eqn:Hel; [|done].
  intros H. apply rbind_Ok in H as (order & Horder & H).
  assert (Hin : ∀ k x, sorted !! k = Some x → x ∈ seq 0 n).
  { intros k x Hx. apply elem_of_indices. rewrite Forall_forall in Hn.
    by eapply Hn, list_elem_of_lookup_2. }
  pose proof (elem_of_indices pivot Hpivot) as Ep.
  pose proof (Hin _ _ Hel) as Ee.
  destruct (Z.ltb_spec order 0) as [Hneg|Hpos].
  - apply (IH left mid); [lia|lia|done| |done].
    intros k x Hk Hx. pose proof (Hin _ _ Hx) as Ex.
    assert (Hpe : ltCF comparefn pivot element) by (by exists order).
    destruct (decide (k = mid)) as [->|Hne].
    { rewrite Hel in Hx. by injection Hx as <-. }
    destruct (StronglySorted_lookup _ sorted mid k element x Hsorted)
      as (_ & _ & [Hex|[Hex _]]); [lia|done..| |].
    + by apply (cc_trans_lt _ _ consistent pivot element x).
    + by apply (cc_lt_eq _ _ consistent pivot element x).
  - apply (IH (S mid) right); [lia|lia| |done|done].
    intros k x Hk Hx. pose proof (Hin _ _ Hx) as Ex.
    destruct (decide (k = mid)) as [->|Hne].
    { rewrite Hel in Hx. injection Hx as <-. by exists order. }
    destruct (cc_cases _ _ consistent pivot x Ep Ex)
      as [Hpx|[Hpx|(v & Hv & Hgt)]].
    + assert (Hpe : ltCF comparefn pivot element).
      { destruct (StronglySorted_lookup _ sorted k mid x element Hsorted)
          as (_ & _ & [Hxe|[Hxe _]]); [lia|done..| |].
        - by apply (cc_trans_lt _ _ consistent pivot x element).
        - by apply (cc_lt_eq _ _ consistent pivot x element). }
      destruct Hpe as (v & Hv & Hlt'). rewrite Horder in Hv.
      injection Hv as <-. lia.
    + by exists 0.
    + exists v. split; [done|lia].
Qed.

Lemma binaryInsertionSort_sorted (sorted rest l' : list nat) :
  StronglySorted ordered sorted → StronglySorted lt rest →
  (∀ i j, i ∈ sorted → j ∈ rest → (i < j)%nat) →
  Forall (λ i, (i < n)%nat) (sorted ++ rest) →
  binaryInsertionSort comparefn sorted rest = Ok l' →
  StronglySorted ordered l'.
Proof.
  revert sorted l'. induction rest as [|pivot rest IH];
    intros sorted l' Hsorted Hrest Hcross Hn; simpl.
  { by intros [= <-]. }
  intros H. apply rbind_Ok in H as (place & Hplace & H).
  apply Forall_app in Hn as [Hn1 Hn2]. apply Forall_cons in Hn2 as [Hp Hn2].
  apply StronglySorted_inv in Hrest as [Hrest Hpr].
  apply (binarySearch_place _ pivot sorted 0 (length sorted) place Hsorted Hp Hn1)
    in Hplace as [Hge Hlt]; [|lia|lia| |].
  2:{ intros k x Hk. lia. }
  2:{ intros k x Hk Hx. apply lookup_lt_Some in Hx. lia. }
  pose proof (elem_of_indices pivot Hp) as Ep.
  assert (Hin : ∀ x, x ∈ sorted → x ∈ seq 0 n ∧ (x < n)%nat).
  { intros x Hx. rewrite Forall_forall in Hn1.
    split; [apply elem_of_indices|]; by apply Hn1. }
  apply (IH (take place sorted ++ pivot :: drop place sorted) l');
    [|done| | |done].
  - rewrite <- (take_drop place sorted) in Hsorted.
    apply StronglySorted_app in Hsorted as (Hx & Hs1 & Hs2).
    apply StronglySorted_app_2; [|done|].
    + intros x y Hx' Hy. apply elem_of_cons in Hy as [->|Hy]; [|by apply Hx].
      apply elem_of_take in Hx' as (k & Hk & Hkp).
      assert (Ex : x ∈ sorted) by (by eapply list_elem_of_lookup_2).
      destruct (Hin x Ex) as [Ex' Hxn]. repeat split; [done..|].
      destruct (Hge k x Hkp Hk) as (v & Hv & Hpos).
      destruct (Z.eq_dec v 0) as [->|Hne].
      * right. split; [by apply (cc_sym _ _ consistent pivot x)|].
        apply Hcross; [done|by left].
      * left. apply (cc_gt_lt _ _ consistent); [done..|].
        exists v. split; [done|lia].
    + constructor; [done|]. apply Forall_forall. intros y Hy.
      apply list_elem_of_lookup in Hy as [k Hk]. rewrite lookup_drop in Hk.
      assert (Ey : y ∈ sorted) by (by eapply list_elem_of_lookup_2).
      destruct (Hin y Ey) as [_ Hyn]. repeat split; [done..|]. left.
      apply (Hlt (place + k)%nat); [lia|done].
  - intros i j Hi Hj. rewrite insert_Permutation in Hi.
    apply elem_of_cons in Hi as [->|Hi].
    + rewrite Forall_forall in Hpr. by apply Hpr.
    + apply Hcross; [done|by right].
  - rewrite insert_Permutation. apply Forall_app. split; [|done].
    by constructor.
Qed.

Lemma v8Sort_sorted (p : list nat) :
  v8Sort comparefn (seq 0 n) = Ok p → StronglySorted (stableLt comparefn) p.
Proof.
  unfold v8Sort. rewrite length_seq.
  destruct (Nat.ltb_spec n 2) as [Hn|Hn].
  { intros [= <-]. destruct n as [|[|?]]; [|by repeat constructor|lia].
    constructor. }
  intros H. apply rbind_Ok in H as ([run rest] & Hrun & H). simpl in H.
  assert (Hall : Forall (λ i, (i < n)%nat) (seq 0 n)).
  { apply Forall_forall. intros i Hi. apply elem_of_seq in Hi. lia. }
  pose proof (countAndMakeRun_Permutation _ _ _ _ Hrun) as Hperm.
  apply countAndMakeRun_sorted in Hrun as (Hs & Hr & Hcross);
    [|apply StronglySorted_lt_seq|done].
  apply (StronglySorted_impl ordered); [by intros x y _ _ (_ & _ & ?)|].
  apply (binaryInsertionSort_sorted run rest); [done..| |done].
  by rewrite Hperm.
Qed.
End V8SortOrder.

Lemma v8Sort_indices_ext comparefn comparefn' n :
  (∀ i j, (i < n)%nat → (j < n)%nat → comparefn i j = comparefn' i j) →
  v8Sort comparefn (seq 0 n) = v8Sort comparefn' (seq 0 n).
Proof.
  intros Hext. apply v8Sort_ext.
  intros i j Hi Hj. apply elem_of_seq in Hi, Hj. apply Hext; lia.
Qed.

Lemma v8Sort_indices_returns (comparefn : nat → nat → result Z) n :
  (∀ i j, (i < n)%nat → (j < n)%nat → ∃ v, comparefn i j = Ok v) →
  ∃ p, v8Sort comparefn (seq 0 n) = Ok p.
Proof.
  intros Htot. apply v8Sort_returns.
  intros i j Hi Hj. apply elem_of_seq in Hi, Hj. apply Htot; lia.
Qed.

Lemma v8Sort_indices_small (comparefn : nat → nat → result Z) n :
  (n < 2)%nat → v8Sort comparefn (seq 0 n) = Ok (seq 0 n).
Proof.
  intros Hn. unfold v8Sort. rewrite length_seq.
  by destruct (Nat.ltb_spec n 2); [|lia].
Qed.

Lemma v8Sort_indices_sortOrder (comparefn : nat → nat → result Z) n p :
  consistentComparator comparefn (seq 0 n) →
  v8Sort comparefn (seq 0 n) = Ok p → sortOrder comparefn n p.
Proof.
  intros Hc Hp. apply StronglySorted_sortOrder; [done| |].
  - by apply v8Sort_Permutation in Hp.
  - by apply (v8Sort_sorted comparefn n Hc).
Qed.

(** The sort of V8 is an engine. *)
Definition v8Engine : Engine := {|
  sortIndices comparefn n := v8Sort comparefn (seq 0 n);
  sortIndices_ext := v8Sort_indices_ext;
  sortIndices_Permutation comparefn n := v8Sort_Permutation comparefn (seq 0 n);
  sortIndices_returns := v8Sort_indices_returns;
  sortIndices_small := v8Sort_indices_small;
  sortIndices_sortOrder := v8Sort_indices_sortOrder
|}.

(** * The sorter *)

(** Induction on a row with its sub-rows. *)
Lemma BodyRow_forest_ind (P : BodyRow → Prop) :
  (∀ row, subRows row = None → P row) →
  (∀ row sub, subRows row = Some sub → Forall P sub → P row) →
  ∀ row, P row.
Proof.
  intros Hleaf Hnode.
  fix IH 1. intros [rid cells [sub|]].
  - apply (Hnode _ sub); [done|].
    induction sub as [|r sub IHsub]; constructor; [apply IH | apply IHsub].
  - by apply Hleaf.
Qed.

Lemma getCloned_same (row : BodyRow) (sub : list BodyRow) :
  subRows row = Some sub → getCloned row sub = row.
Proof. destruct row; simpl. by intros ->. Qed.

Section SorterFacts.
Context {E : Engine}.
Context (compare : Value → Value → Z).
Context (sortKeys : list SortKey.t).
Context (columnOptions : gmap string SortByColumnOptions).

#[local] Abbreviation rowCompare_ := (rowCompare compare sortKeys columnOptions).
#[local] Abbreviation withSortedSubRows_ :=
  (withSortedSubRows compare sortKeys columnOptions).
#[local] Abbreviation getSortedRows_ :=
  (getSortedRows compare sortKeys columnOptions).

(** The function as the source has it: sort the level, then replace
    the sub-rows of each row of the sorted level, in that order. *)
Lemma getSortedRows_unfold (rows : list BodyRow) :
  getSortedRows_ rows =
  let* sorted := arraySort rowCompare_ rows in mapM withSortedSubRows_ sorted.
Proof.
  unfold getSortedRows.
  set (pair := λ r : BodyRow, (r, withSortedSubRows_ r)).
  replace rows with (map fst (map pair rows)) at 2
    by (rewrite map_map; apply map_id).
  rewrite (arraySort_map fst rowCompare_).
  destruct (arraySort _ (map pair rows)) as [sorted|] eqn:Hs; simpl; [|done].
  rewrite mapM_map. apply mapM_ext_Forall.
  apply arraySort_Permutation in Hs.
  eapply Forall_impl with (P := λ p, p.2 = withSortedSubRows_ p.1); [|done].
  rewrite Hs. apply Forall_forall. intros p Hp.
  apply list_elem_of_fmap in Hp as (r & -> & _). done.
Qed.

Lemma withSortedSubRows_unfold (row : BodyRow) :
  withSortedSubRows_ row =
  match subRows row with
  | None => Ok row
  | Some sub =>
      let* sortedSubRows := getSortedRows_ sub in
      Ok (getCloned row sortedSubRows)
  end.
Proof. by destruct row as [rid cells [sub|]]. Qed.

(** The comparison function reads the cells of the rows and nothing else. *)
Lemma compareRows_cells (keys : list SortKey.t) (a a' b b' : BodyRow) :
  cellForId a = cellForId a' → cellForId b = cellForId b' →
  compareRows compare columnOptions keys a b =
  compareRows compare columnOptions keys a' b'.
Proof.
  intros Ha Hb. induction keys as [|key keys IH]; simpl; [done|].
  by rewrite Ha, Hb, IH.
Qed.

Lemma withSortedSubRows_cells (row row' : BodyRow) :
  withSortedSubRows_ row = Ok row' →
  cellForId row' = cellForId row ∧ rowId row' = rowId row.
Proof.
  rewrite withSortedSubRows_unfold. destruct (subRows row) as [sub|].
  - intros H. apply rbind_Ok in H as (s & _ & [= <-]). done.
  - by intros [= <-].
Qed.
End SorterFacts.

Section Comparator.
Context (compare : Value → Value → Z).
Context (columnOptions : gmap string SortByColumnOptions).

#[local] Abbreviation compareRows_ := (compareRows compare columnOptions).

Lemma compareRows_missing_cell (key : SortKey.t) (keys : list SortKey.t)
    (a b : BodyRow) :
  cellForId a !! SortKey.id key = None →
  compareRows_ (key :: keys) a b = TypeError.
Proof. intros H. simpl. by rewrite H. Qed.

Lemma compareRows_total (keys : list SortKey.t) (a b : BodyRow) :
  hasCellsFor keys a → hasCellsFor keys b →
  ∃ c, compareRows_ keys a b = Ok c.
Proof.
  induction keys as [|key keys IH]; intros Ha Hb; simpl; [by eexists|].
  destruct (Ha key) as [cellA ->]; [by left|].
  destruct (Hb key) as [cellB ->]; [by left|].
  destruct (negb (Cell.isData cellA)); [by eexists|].
  match goal with |- context [negb ?t] => destruct (negb t) end; [by eexists|].
  apply IH; intros k Hk; [apply Ha | apply Hb]; by right.
Qed.

(** C1, as the code has it: when the first row's cell for the column
    of a key is there and is not a data cell, the comparison function
    answers 0 for the pair at that key, whatever the keys after it
    would say. *)
Theorem compareRows_not_data_cell (key : SortKey.t) (keys : list SortKey.t)
    (a b : BodyRow) (cellA : BodyCell) :
  cellForId a !! SortKey.id key = Some cellA →
  Cell.isData cellA = false →
  compareRows_ (key :: keys) a b = Ok 0.
Proof. intros Hc Hd. simpl. by rewrite Hc, Hd. Qed.
End Comparator.

(** The rows 30 and 25 differ by age, yet with the action column as
    first key they compare equal and are left in their order: the age
    key is not reached.  (The sorts are run on [v8Engine].) *)
Lemma compareRows_not_data_cell_counterexample :
  let a := withAction "0" 30 in
  let b := withAction "1" 25 in
  let byAction := SortKey.mk "action" asc in
  let byAge := SortKey.mk "age" asc in
  Cell.isData <$> cellForId a !! "action" = Some false ∧
  compareRows specCompare noOptions [byAge] a b = Ok 5 ∧
  compareRows specCompare noOptions [byAction; byAge] a b = Ok 0 ∧
  compareRows specCompare noOptions [byAction; byAge] a b ≠
    compareRows specCompare noOptions [byAge] a b ∧
  rowIds (getSortedRows (E := v8Engine) specCompare [byAge] noOptions [a; b])
    = Ok ["1"; "0"] ∧
  rowIds (getSortedRows (E := v8Engine) specCompare [byAction; byAge] noOptions
            [a; b])
    = Ok ["0"; "1"].
Proof. vm_compute. repeat split; congruence. Qed.

Lemma compareRows_not_data_cell_witness :
  let a := withAction "0" 30 in
  let b := withAction "1" 25 in
  compareRows specCompare noOptions
    [SortKey.mk "action" asc; SortKey.mk "age" asc] a b = Ok 0.
Proof.
  intros a b.
  apply (compareRows_not_data_cell specCompare noOptions
           (SortKey.mk "action" asc) [SortKey.mk "age" asc] a b
           (DisplayBodyCell "action")); reflexivity.
Defined.

Section Totality.
Context {E : Engine}.
Context (compare : Value → Value → Z).
Context (sortKeys : list SortKey.t).
Context (columnOptions : gmap string SortByColumnOptions).

Lemma EveryRow_here (P : BodyRow → Prop) (row : BodyRow) :
  EveryRow P row → P row.
Proof. by inversion 1. Qed.

Lemma withSortedSubRows_total (row : BodyRow) :
  EveryRow (hasCellsFor sortKeys) row →
  ∃ row', withSortedSubRows compare sortKeys columnOptions row = Ok row'.
Proof.
  induction row as [row Hsub|row sub Hsub IH] using BodyRow_forest_ind;
    intros Hrow; rewrite withSortedSubRows_unfold, Hsub; [by eexists|].
  inversion Hrow as [? _ Hall]; subst. specialize (Hall sub Hsub).
  rewrite getSortedRows_unfold.
  destruct (arraySort_total (rowCompare compare sortKeys columnOptions) sub)
    as [sorted Hs].
  { intros a b Ha Hb. rewrite Forall_forall in Hall.
    apply compareRows_total; by apply EveryRow_here, Hall. }
  rewrite Hs. simpl.
  destruct (mapM_total (withSortedSubRows compare sortKeys columnOptions) sorted)
    as [out Hout].
  { apply arraySort_Permutation in Hs. rewrite Hs.
    rewrite Forall_forall in IH, Hall |- *. intros r Hr. by apply IH, Hall. }
  rewrite Hout. by eexists.
Qed.

Lemma getSortedRows_returns (rows : list BodyRow) :
  Forall (EveryRow (hasCellsFor sortKeys)) rows →
  ∃ out, getSortedRows compare sortKeys columnOptions rows = Ok out.
Proof.
  intros Hall. rewrite getSortedRows_unfold.
  destruct (arraySort_total (rowCompare compare sortKeys columnOptions) rows)
    as [sorted Hs].
  { intros a b Ha Hb. rewrite Forall_forall in Hall.
    apply compareRows_total; by apply EveryRow_here, Hall. }
  rewrite Hs. simpl. apply mapM_total.
  apply arraySort_Permutation in Hs. rewrite Hs.
  rewrite Forall_forall in Hall |- *. intros r Hr.
  by apply withSortedSubRows_total, Hall.
Qed.

(** C2, as the code has it: the sort returns a result on every forest
    whose rows, at every level, have a cell for the column of every
    key; a key whose column is missing from the first row of a
    comparison makes the comparison throw a [TypeError]. *)
Theorem getSortedRows_total (rows : list BodyRow) :
  (Forall (EveryRow (hasCellsFor sortKeys)) rows →
   ∃ out, getSortedRows compare sortKeys columnOptions rows = Ok out) ∧
  (∀ key keys a b,
     cellForId a !! SortKey.id key = None →
     compareRows compare columnOptions (key :: keys) a b = TypeError).
Proof.
  split; [apply getSortedRows_returns|].
  intros; by apply compareRows_missing_cell.
Qed.
End Totality.

(** No row of [people] has an email cell: sorting by email throws. *)
Lemma getSortedRows_total_counterexample :
  let byEmail := [SortKey.mk "email" asc] in
  Forall (λ row, cellForId row !! "email" = None) people ∧
  getSortedRows (E := v8Engine) specCompare byEmail noOptions people = TypeError ∧
  ¬ ∃ out, getSortedRows (E := v8Engine) specCompare byEmail noOptions people = Ok out.
Proof.
  intros byEmail.
  assert (H : getSortedRows (E := v8Engine) specCompare byEmail noOptions people = TypeError)
    by (vm_compute; reflexivity).
  split; [repeat constructor|]. split; [exact H|].
  intros [out Hout]. rewrite H in Hout. discriminate.
Qed.

Lemma EveryRow_leaf (P : BodyRow → Prop) (row : BodyRow) :
  subRows row = None → P row → EveryRow P row.
Proof. intros Hsub HP. constructor; [done|]. intros sub. by rewrite Hsub. Defined.

Ltac hasCells :=
  let key := fresh "key" in
  let Hk := fresh "Hk" in
  intros key Hk;
  repeat (apply elem_of_cons in Hk as [->|Hk]; [vm_compute; eexists; reflexivity|]);
  by apply elem_of_nil in Hk.

Lemma people_cells : Forall (EveryRow (hasCellsFor byAgeDescNameAsc)) people.
Proof.
  unfold people.
  repeat (apply Forall_cons_2; [apply EveryRow_leaf; [reflexivity | hasCells]|]).
  apply Forall_nil_2.
Defined.

Lemma getSortedRows_total_witness :
  Forall (EveryRow (hasCellsFor byAgeDescNameAsc)) people ∧
  ∃ out, getSortedRows (E := v8Engine) specCompare byAgeDescNameAsc noOptions people = Ok out.
Proof.
  split; [exact people_cells|].
  destruct (getSortedRows_total (E := v8Engine) specCompare byAgeDescNameAsc noOptions people)
    as [Htotal _].
  exact (Htotal people_cells).
Defined.

(** * Sorting with comparison functions that agree *)

Section Extensionality.
Context {E : Engine}.
Context (compare : Value → Value → Z).
Context (keys keys' : list SortKey.t).
Context (options options' : gmap string SortByColumnOptions).
Hypothesis agree :
  ∀ a b, rowCompare compare keys options a b =
         rowCompare compare keys' options' a b.

Lemma getSortedRows_ext_level (rows : list BodyRow) :
  Forall (λ row, withSortedSubRows compare keys options row =
                 withSortedSubRows compare keys' options' row) rows →
  getSortedRows compare keys options rows =
  getSortedRows compare keys' options' rows.
Proof.
  intros Hrows. rewrite !getSortedRows_unfold.
  rewrite (arraySort_ext _ (rowCompare compare keys' options'))
    by (intros; apply agree).
  destruct (arraySort _ rows) as [sorted|] eqn:Hs; simpl; [|done].
  apply mapM_ext_Forall. apply arraySort_Permutation in Hs. by rewrite Hs.
Qed.

Lemma withSortedSubRows_ext (row : BodyRow) :
  withSortedSubRows compare keys options row =
  withSortedSubRows compare keys' options' row.
Proof.
  induction row as [row Hsub|row sub Hsub IH] using BodyRow_forest_ind;
    rewrite !withSortedSubRows_unfold, Hsub; [done|].
  by rewrite (getSortedRows_ext_level sub IH).
Qed.

Lemma getSortedRows_ext (rows : list BodyRow) :
  getSortedRows compare keys options rows =
  getSortedRows compare keys' options' rows.
Proof.
  apply getSortedRows_ext_level, Forall_forall. intros row _.
  apply withSortedSubRows_ext.
Qed.
End Extensionality.

(** C8: a single ascending key on a column whose options invert it sorts
    every forest as the descending key does without [invert], and the
    descending key with [invert] sorts as the ascending key without;
    the two option maps differ in [invert] of that column only. *)
Theorem invert_equivalence {E : Engine} (compare : Value → Value → Z)
    (inverted plain : gmap string SortByColumnOptions) (columnId : string)
    (rows : list BodyRow) :
  invertOf inverted columnId = true →
  invertOf plain columnId = false →
  (∀ id, getSortValueOf inverted id = getSortValueOf plain id) →
  getSortedRows compare [SortKey.mk columnId asc] inverted rows =
    getSortedRows compare [SortKey.mk columnId desc] plain rows ∧
  getSortedRows compare [SortKey.mk columnId desc] inverted rows =
    getSortedRows compare [SortKey.mk columnId asc] plain rows.
Proof.
  intros Hinv Hplain Hget.
  split; apply getSortedRows_ext; intros a b; unfold rowCompare; simpl;
    rewrite Hinv, Hplain;
    destruct (cellForId a !! columnId) as [cellA|]; try done;
    rewrite Hget; reflexivity.
Qed.

Lemma invert_equivalence_witness :
  let inverted := invertColumn "age" true in
  let plain := invertColumn "age" false in
  invertOf inverted "age" = true ∧
  invertOf plain "age" = false ∧
  (∀ id, getSortValueOf inverted id = getSortValueOf plain id) ∧
  rowIds (getSortedRows (E := v8Engine) specCompare [SortKey.mk "age" asc] inverted people)
    = Ok ["0"; "1"; "2"] ∧
  getSortedRows (E := v8Engine) specCompare [SortKey.mk "age" asc] inverted people =
    getSortedRows (E := v8Engine) specCompare [SortKey.mk "age" desc] plain people.
Proof.
  intros inverted plain.
  assert (Hget : ∀ id, getSortValueOf inverted id = getSortValueOf plain id).
  { intros id. unfold getSortValueOf, inverted, plain, invertColumn.
    destruct (decide (id = "age")) as [->|Hne].
    - by rewrite !lookup_singleton_eq.
    - by rewrite !lookup_singleton_ne. }
  split; [reflexivity|]. split; [reflexivity|]. split; [exact Hget|].
  split; [vm_compute; reflexivity|].
  exact (proj1 (invert_equivalence specCompare inverted plain "age" people
                  eq_refl eq_refl Hget)).
Defined.

(** * The contract of the result *)

Section Contract.
Context {E : Engine}.
Context (compare : Value → Value → Z).
Context (sortKeys : list SortKey.t).
Context (columnOptions : gmap string SortByColumnOptions).

End Contract.

(** * Forests on which the comparison function is consistent *)

Lemma mapM_same {A} (f : A → result A) (l : list A) :
  Forall (λ x, f x = Ok x) l → mapM f l = Ok l.
Proof. induction 1 as [|x l Hx _ IH]; simpl; [done|]. by rewrite Hx, IH. Qed.

Lemma EveryLevel_impl (Q Q' : list BodyRow → Prop) (rows : list BodyRow) :
  (∀ level, Q level → Q' level) → EveryLevel Q rows → EveryLevel Q' rows.
Proof.
  intros HQ. revert rows. fix IH 2. intros rows [level Hlevel Hsub].
  constructor; [by apply HQ|].
  clear Hlevel.
  induction Hsub as [|row level' Hrow _ IHsub];
    [apply Forall_nil_2 | apply Forall_cons_2; [|exact IHsub]].
  intros sub Hs. apply IH, (Hrow sub Hs).
Qed.

Lemma EveryLevel_here (Q : list BodyRow → Prop) (rows : list BodyRow) :
  EveryLevel Q rows → Q rows.
Proof. by inversion 1. Qed.

Lemma EveryLevel_sub (Q : list BodyRow → Prop) (rows sub : list BodyRow)
    (row : BodyRow) :
  EveryLevel Q rows → row ∈ rows → subRows row = Some sub → EveryLevel Q sub.
Proof.
  intros Hlev Hin Hsub. inversion Hlev as [? _ Hall]; subst.
  rewrite Forall_forall in Hall. by apply (Hall row).
Qed.

(** A comparison function that is consistent on an array is consistent
    on an array of elements it cannot tell from those. *)
Lemma consistentComparator_Forall2 {A B} (comparefn : A → A → result Z)
    (comparefn' : B → B → result Z) (R : A → B → Prop)
    (l : list A) (l' : list B) :
  (∀ a b a' b', R a a' → R b b' → comparefn' a' b' = comparefn a b) →
  Forall2 R l l' →
  consistentComparator comparefn l → consistentComparator comparefn' l'.
Proof.
  intros Hcmp HR Hc.
  assert (Hin : ∀ a', a' ∈ l' → ∃ a, a ∈ l ∧ R a a').
  { intros a' Ha'. apply list_elem_of_lookup in Ha' as [k Hk].
    destruct (Forall2_lookup_r _ _ _ _ _ HR Hk) as (a & Ha & Haa').
    exists a. split; [by eapply list_elem_of_lookup_2|done]. }
  split; unfold ltCF, eqCF, gtCF.
  - intros a' b' Ha' Hb'.
    destruct (Hin a' Ha') as (a & Ha & Ra), (Hin b' Hb') as (b & Hb & Rb).
    rewrite (Hcmp a b a' b') by done. by apply (cc_returns _ _ Hc).
  - intros a' Ha'. destruct (Hin a' Ha') as (a & Ha & Ra).
    rewrite (Hcmp a a a' a') by done. by apply (cc_refl _ _ Hc).
  - intros a' b' Ha' Hb'.
    destruct (Hin a' Ha') as (a & Ha & Ra), (Hin b' Hb') as (b & Hb & Rb).
    rewrite (Hcmp a b a' b'), (Hcmp b a b' a') by done.
    by apply (cc_sym _ _ Hc).
  - intros a' b' c' Ha' Hb' Hc'.
    destruct (Hin a' Ha') as (a & Ha & Ra), (Hin b' Hb') as (b & Hb & Rb),
      (Hin c' Hc') as (c & Hc'' & Rc).
    rewrite (Hcmp a b a' b'), (Hcmp b c b' c'), (Hcmp a c a' c') by done.
    by apply (cc_trans_eq _ _ Hc).
  - intros a' b' c' Ha' Hb' Hc'.
    destruct (Hin a' Ha') as (a & Ha & Ra), (Hin b' Hb') as (b & Hb & Rb),
      (Hin c' Hc') as (c & Hc'' & Rc).
    rewrite (Hcmp a b a' b'), (Hcmp b c b' c'), (Hcmp a c a' c') by done.
    by apply (cc_trans_lt _ _ Hc).
  - intros a' b' c' Ha' Hb' Hc'.
    destruct (Hin a' Ha') as (a & Ha & Ra), (Hin b' Hb') as (b & Hb & Rb),
      (Hin c' Hc') as (c & Hc'' & Rc).
    rewrite (Hcmp a b a' b'), (Hcmp b c b' c'), (Hcmp a c a' c') by done.
    by apply (cc_trans_gt _ _ Hc).
Qed.

Lemma StronglySorted_Forall2 {A B} (comparefn : A → A → result Z)
    (comparefn' : B → B → result Z) (R : A → B → Prop)
    (l : list A) (l' : list B) :
  (∀ a b a' b', R a a' → R b b' → comparefn' a' b' = comparefn a b) →
  Forall2 R l l' →
  StronglySorted (inOrder comparefn) l → StronglySorted (inOrder comparefn') l'.
Proof.
  intros Hcmp HR Hl. apply StronglySorted_from_lookup.
  intros k k' a' b' Hkk' Ha' Hb'.
  destruct (Forall2_lookup_r _ _ _ _ _ HR Ha') as (a & Ha & Ra).
  destruct (Forall2_lookup_r _ _ _ _ _ HR Hb') as (b & Hb & Rb).
  unfold inOrder. rewrite (Hcmp a b a' b') by done.
  by apply (StronglySorted_lookup (inOrder comparefn) l k k').
Qed.

Section ConsistentForest.
Context {E : Engine}.
Context (compare : Value → Value → Z).
Context (sortKeys : list SortKey.t).
Context (columnOptions : gmap string SortByColumnOptions).

#[local] Abbreviation cmpRow := (rowCompare compare sortKeys columnOptions).
#[local] Abbreviation sortSub := (withSortedSubRows compare sortKeys columnOptions).
#[local] Abbreviation sortLevel := (getSortedRows compare sortKeys columnOptions).
#[local] Abbreviation consistentBelow :=
  (λ row : BodyRow, ∀ sub, subRows row = Some sub →
                           EveryLevel (consistentComparator cmpRow) sub).

(** What the sort of a level gives when the comparison function is
    consistent on it: the level sorted by the engine, which is in
    order and a stable reordering of the level, and the rows of that
    with their sub-rows sorted. *)
Lemma getSortedRows_consistent_level (rows out : list BodyRow) :
  consistentComparator cmpRow rows →
  sortLevel rows = Ok out →
  ∃ sorted p,
    arraySort cmpRow rows = Ok sorted ∧
    stableReordering (tied compare columnOptions sortKeys) rows p ∧
    Forall2 (λ i row, rows !! i = Some row) p sorted ∧
    StronglySorted (inOrder cmpRow) sorted ∧
    Forall2 (λ row row', sortSub row = Ok row') sorted out ∧
    consistentComparator cmpRow out ∧
    StronglySorted (inOrder cmpRow) out.
Proof.
  intros Hc Hout. rewrite getSortedRows_unfold in Hout.
  apply rbind_Ok in Hout as (sorted & Hs & Hout). apply mapM_Ok in Hout.
  destruct (arraySort_stable _ _ _ Hc Hs) as (p & Hstable & Hp).
  pose proof (arraySort_sorted _ _ _ Hc Hs) as Hsorted.
  pose proof (arraySort_Permutation _ _ _ Hs) as Hperm.
  assert (Hcells : ∀ a b a' b', sortSub a = Ok a' → sortSub b = Ok b' →
                                cmpRow a' b' = cmpRow a b).
  { intros a b a' b' Ha Hb.
    apply withSortedSubRows_cells in Ha as [Ha _], Hb as [Hb _].
    by apply compareRows_cells. }
  exists sorted, p. do 5 (split; [done|]). split.
  - apply (consistentComparator_Forall2 cmpRow cmpRow _ sorted out Hcells Hout).
    by apply (consistentComparator_Permutation cmpRow rows).
  - by apply (StronglySorted_Forall2 cmpRow cmpRow _ sorted out Hcells Hout).
Qed.

(** The sort returns on a forest on whose levels the comparison
    function is consistent. *)
Lemma withSortedSubRows_consistent_returns (row : BodyRow) :
  consistentBelow row → ∃ row', sortSub row = Ok row'.
Proof.
  induction row as [row Hsub|row sub Hsub IH] using BodyRow_forest_ind;
    intros Hlev; rewrite withSortedSubRows_unfold, Hsub; [by eexists|].
  specialize (Hlev sub Hsub). rewrite getSortedRows_unfold.
  destruct (arraySort_consistent_returns cmpRow sub (EveryLevel_here _ _ Hlev))
    as [sorted Hs].
  rewrite Hs. simpl.
  destruct (mapM_total sortSub sorted) as [out Hout].
  { apply arraySort_Permutation in Hs. rewrite Hs.
    rewrite Forall_forall in IH |- *. intros r Hr. apply IH; [done|].
    intros s. by apply (EveryLevel_sub _ sub s r). }
  rewrite Hout. by eexists.
Qed.

Lemma getSortedRows_consistent_returns (rows : list BodyRow) :
  EveryLevel (consistentComparator cmpRow) rows → ∃ out, sortLevel rows = Ok out.
Proof.
  intros Hlev. rewrite getSortedRows_unfold.
  destruct (arraySort_consistent_returns cmpRow rows (EveryLevel_here _ _ Hlev))
    as [sorted Hs].
  rewrite Hs. simpl. apply mapM_total.
  apply arraySort_Permutation in Hs. rewrite Hs.
  apply Forall_forall. intros r Hr. apply withSortedSubRows_consistent_returns.
  intros s. by apply (EveryLevel_sub _ rows s r).
Qed.
End ConsistentForest.

(** * Well-typed levels *)

Lemma consistentComparator_ext {A} (comparefn comparefn' : A → A → result Z)
    (l : list A) :
  (∀ a b, a ∈ l → b ∈ l → comparefn' a b = comparefn a b) →
  consistentComparator comparefn l → consistentComparator comparefn' l.
Proof.
  intros Hext Hc.
  apply (consistentComparator_Forall2 comparefn comparefn' (λ a a', a ∈ l ∧ a' = a) l l);
    [| |done].
  - intros a b a' b' [Ha ->] [Hb ->]. by apply Hext.
  - apply Forall2_same_length_lookup_2; [done|].
    intros i a a' Ha Ha'. rewrite Ha in Ha'. injection Ha' as <-.
    split; [by eapply list_elem_of_lookup_2|done].
Qed.

Lemma consistentComparator_fmap {A B} (f : B → A) (comparefn : A → A → result Z)
    (l : list B) :
  consistentComparator comparefn (f <$> l) →
  consistentComparator (λ p q, comparefn (f p) (f q)) l.
Proof.
  intros Hc.
  apply (consistentComparator_Forall2 comparefn _ (λ a p, a = f p) (f <$> l) l);
    [| |done].
  - by intros a b p q -> ->.
  - apply Forall2_fmap_l, Forall_Forall2_diag, Forall_forall. by intros.
Qed.

(** A comparison function that answers 0 for every pair. *)
Lemma consistentComparator_tie {A} (l : list A) :
  consistentComparator (λ _ _ : A, Ok 0) l.
Proof.
  split; unfold ltCF, eqCF, gtCF; try done;
    try (intros; by eexists);
    intros a b c _ _ _ (v & [= <-] & ?); lia.
Qed.

(** The answers multiplied by 1 or by -1. *)
Lemma consistentComparator_factor {A} (order : A → A → Z) (factor : Z)
    (l : list A) :
  factor = 1 ∨ factor = -1 →
  consistentComparator (λ a b, Ok (order a b)) l →
  consistentComparator (λ a b, Ok (order a b * factor)) l.
Proof.
  intros [->| ->] Hc.
  { eapply consistentComparator_ext; [|exact Hc].
    intros a b _ _. simpl. by rewrite Z.mul_1_r. }
  assert (Elt : ∀ a b, ltCF (λ a b, Ok (order a b * -1)) a b ↔
                       gtCF (λ a b, Ok (order a b)) a b).
  { intros a b. unfold ltCF, gtCF. split; intros (v & [= <-] & Hv);
      eexists; (split; [done|lia]). }
  assert (Egt : ∀ a b, gtCF (λ a b, Ok (order a b * -1)) a b ↔
                       ltCF (λ a b, Ok (order a b)) a b).
  { intros a b. unfold ltCF, gtCF. split; intros (v & [= <-] & Hv);
      eexists; (split; [done|lia]). }
  assert (Eeq : ∀ a b, eqCF (λ a b, Ok (order a b * -1)) a b ↔
                       eqCF (λ a b, Ok (order a b)) a b).
  { intros a b. unfold eqCF. split; intros [= H]; f_equal; lia. }
  split.
  - intros; by eexists.
  - intros a Ha. apply Eeq. by apply (cc_refl _ _ Hc).
  - intros a b Ha Hb. rewrite !Eeq. by apply (cc_sym _ _ Hc).
  - intros a b c Ha Hb Hc'. rewrite !Eeq. by apply (cc_trans_eq _ _ Hc).
  - intros a b c Ha Hb Hc'. rewrite !Elt. by apply (cc_trans_gt _ _ Hc).
  - intros a b c Ha Hb Hc'. rewrite !Egt. by apply (cc_trans_lt _ _ Hc).
Qed.

Section ThenBy.
Context {A : Type} (first rest : A → A → result Z) (l : list A).
Hypothesis first_consistent : consistentComparator first l.
Hypothesis rest_consistent : consistentComparator rest l.

Lemma thenBy_ltCF (a b : A) :
  ltCF (thenBy first rest) a b ↔
  ltCF first a b ∨ (eqCF first a b ∧ ltCF rest a b).
Proof.
  unfold thenBy, ltCF, eqCF. destruct (first a b) as [[|v|v]|]; split.
  - intros H. by right.
  - intros [(v & [= <-] & ?)|[_ H]]; [lia|done].
  - intros (w & [= <-] & ?). lia.
  - intros [(w & [= <-] & ?)|[[=] _]]. lia.
  - intros H. by left.
  - intros _. exists (Z.neg v). split; [done|lia].
  - by intros (? & ? & ?).
  - by intros [(? & ? & ?)|[? _]].
Qed.

Lemma thenBy_gtCF (a b : A) :
  gtCF (thenBy first rest) a b ↔
  gtCF first a b ∨ (eqCF first a b ∧ gtCF rest a b).
Proof.
  unfold thenBy, gtCF, eqCF. destruct (first a b) as [[|v|v]|]; split.
  - intros H. by right.
  - intros [(v & [= <-] & ?)|[_ H]]; [lia|done].
  - intros H. by left.
  - intros _. exists (Z.pos v). split; [done|lia].
  - intros (w & [= <-] & ?). lia.
  - intros [(w & [= <-] & ?)|[[=] _]]. lia.
  - by intros (? & ? & ?).
  - by intros [(? & ? & ?)|[? _]].
Qed.

Lemma thenBy_eqCF (a b : A) :
  eqCF (thenBy first rest) a b ↔ eqCF first a b ∧ eqCF rest a b.
Proof.
  unfold thenBy, eqCF. destruct (first a b) as [[|v|v]|]; split;
    try done; by intros [? ?].
Qed.

Lemma cc_gt_eq (comparefn : A → A → result Z) (a b c : A) :
  consistentComparator comparefn l → a ∈ l → b ∈ l → c ∈ l →
  gtCF comparefn a b → eqCF comparefn b c → gtCF comparefn a c.
Proof.
  intros Hc Ha Hb Hc' Hab Hbc. apply (cc_lt_gt _ _ Hc); [done..|].
  apply (cc_eq_lt _ _ Hc c b a); [done..| |].
  - by apply (cc_sym _ _ Hc).
  - by apply (cc_gt_lt _ _ Hc).
Qed.

Lemma cc_eq_gt (comparefn : A → A → result Z) (a b c : A) :
  consistentComparator comparefn l → a ∈ l → b ∈ l → c ∈ l →
  eqCF comparefn a b → gtCF comparefn b c → gtCF comparefn a c.
Proof.
  intros Hc Ha Hb Hc' Hab Hbc. apply (cc_lt_gt _ _ Hc); [done..|].
  apply (cc_lt_eq _ _ Hc c b a); [done..| |].
  - by apply (cc_gt_lt _ _ Hc).
  - by apply (cc_sym _ _ Hc).
Qed.

(** Two consistent comparators, one after the other, are one. *)
Lemma thenBy_consistent : consistentComparator (thenBy first rest) l.
Proof.
  split.
  - intros a b Ha Hb. unfold thenBy.
    destruct (cc_returns _ _ first_consistent a b Ha Hb) as [v ->].
    destruct v; [by apply (cc_returns _ _ rest_consistent)|by eexists..].
  - intros a Ha. apply thenBy_eqCF.
    split; [by apply (cc_refl _ _ first_consistent)
           |by apply (cc_refl _ _ rest_consistent)].
  - intros a b Ha Hb. rewrite !thenBy_eqCF. intros [H1 H2].
    split; [by apply (cc_sym _ _ first_consistent)
           |by apply (cc_sym _ _ rest_consistent)].
  - intros a b c Ha Hb Hc. rewrite !thenBy_eqCF. intros [H1 H2] [H3 H4].
    split; [by apply (cc_trans_eq _ _ first_consistent a b c)
           |by apply (cc_trans_eq _ _ rest_consistent a b c)].
  - intros a b c Ha Hb Hc. rewrite !thenBy_ltCF.
    intros [H1|[H1 H2]] [H3|[H3 H4]].
    + left. by apply (cc_trans_lt _ _ first_consistent a b c).
    + left. by apply (cc_lt_eq _ _ first_consistent a b c).
    + left. by apply (cc_eq_lt _ _ first_consistent a b c).
    + right. split; [by apply (cc_trans_eq _ _ first_consistent a b c)
                    |by apply (cc_trans_lt _ _ rest_consistent a b c)].
  - intros a b c Ha Hb Hc. rewrite !thenBy_gtCF.
    intros [H1|[H1 H2]] [H3|[H3 H4]].
    + left. by apply (cc_trans_gt _ _ first_consistent a b c).
    + left. by apply (cc_gt_eq first a b c).
    + left. by apply (cc_eq_gt first a b c).
    + right. split; [by apply (cc_trans_eq _ _ first_consistent a b c)
                    |by apply (cc_trans_gt _ _ rest_consistent a b c)].
Qed.
End ThenBy.

Section WellTyped.
Context (compare : Value → Value → Z).
Context (columnOptions : gmap string SortByColumnOptions).

(** The value of the row in the column of the key. *)
Let valueAt (key : SortKey.t) (row : BodyRow) : Value :=
  match cellForId row !! SortKey.id key with
  | Some cell => Cell.value cell
  | None => VUndefined
  end.

Let factorOf (key : SortKey.t) : Z :=
  (if is_desc (SortKey.order key) then 1 * -1 else 1)
  * (if invertOf columnOptions (SortKey.id key) then -1 else 1).

Lemma compareRows_wellTyped (key : SortKey.t) (keys : list SortKey.t)
    (rows : list BodyRow) :
  wellTypedColumn compare columnOptions rows key →
  ∃ first,
    consistentComparator first rows ∧
    ∀ a b, a ∈ rows → b ∈ rows →
      compareRows compare columnOptions (key :: keys) a b =
      thenBy first (compareRows compare columnOptions keys) a b.
Proof.
  intros (values & Hcells & Htyped).
  assert (Hcell : ∀ a, a ∈ rows →
            ∃ v, v ∈ values ∧
                 cellForId a !! SortKey.id key
                 = Some (DataBodyCell (SortKey.id key) v)).
  { intros a Ha. apply list_elem_of_lookup in Ha as [i Hi].
    destruct (Forall2_lookup_l _ _ _ _ _ Hcells Hi) as (v & Hv & Hc).
    exists v. split; [by eapply list_elem_of_lookup_2|done]. }
  assert (Hpm : factorOf key = 1 ∨ factorOf key = -1).
  { unfold factorOf. destruct (is_desc _), (invertOf _ _); lia. }
  destruct Htyped as [[Hnone Hun]|[Hcomparable Hc]].
  - (* no value of the column is compared *)
    exists (λ _ _, Ok 0). split; [apply consistentComparator_tie|].
    intros a b Ha Hb. destruct (Hcell a Ha) as (va & Eva & Hca).
    destruct (Hcell b Hb) as (vb & Evb & Hcb).
    rewrite Forall_forall in Hun.
    unfold thenBy. simpl. rewrite Hca, Hcb. simpl.
    by rewrite Hnone, (Hun va Eva).
  - (* the values are compared, as they are or through [getSortValue] *)
    set (project := λ v : Value,
           match getSortValueOf columnOptions (SortKey.id key) with
           | Some f => f v
           | None => v
           end).
    exists (λ a b, Ok (compare (project (valueAt key a)) (project (valueAt key b))
                       * factorOf key)).
    split.
    + apply consistentComparator_factor; [done|].
      apply (consistentComparator_fmap (λ row, project (valueAt key row))
               (λ u v, Ok (compare u v))).
      eapply consistentComparator_subseteq; [exact Hc|].
      intros u Hu. apply list_elem_of_fmap in Hu as (a & -> & Ha).
      destruct (Hcell a Ha) as (va & Eva & Hca).
      unfold valueAt, project, sortValues. rewrite Hca. simpl.
      destruct (getSortValueOf _ _); [by apply list_elem_of_fmap_2|done].
    + intros a b Ha Hb. destruct (Hcell a Ha) as (va & Eva & Hca).
      destruct (Hcell b Hb) as (vb & Evb & Hcb).
      unfold thenBy, valueAt, project. simpl. rewrite Hca, Hcb. simpl.
      destruct (getSortValueOf columnOptions (SortKey.id key)) as [f|] eqn:Hget.
      * destruct (Z.eqb_spec (compare (f va) (f vb)) 0) as [->|Hne]; simpl;
          [done|].
        replace (1 * -1) with (-1) by lia.
        destruct (compare (f va) (f vb)) eqn:Ho; [done|..];
          unfold factorOf; destruct (is_desc _), (invertOf _ _); simpl; done.
      * specialize (Hcomparable eq_refl). rewrite Forall_forall in Hcomparable.
        rewrite (Hcomparable va Eva).
        destruct (Z.eqb_spec (compare va vb) 0) as [->|Hne]; simpl; [done|].
        destruct (compare va vb) eqn:Ho; [done|..];
          unfold factorOf; destruct (is_desc _), (invertOf _ _); simpl; done.
Qed.

(** On a well-typed level the comparison function is a consistent
    comparator. *)
Theorem wellTypedLevel_consistent (sortKeys : list SortKey.t)
    (rows : list BodyRow) :
  wellTypedLevel compare columnOptions sortKeys rows →
  consistentComparator (rowCompare compare sortKeys columnOptions) rows.
Proof.
  unfold rowCompare. induction 1 as [|key keys Hkey _ IH].
  - apply (consistentComparator_tie rows).
  - destruct (compareRows_wellTyped key keys rows Hkey) as (first & Hc & Heq).
    apply (consistentComparator_ext (thenBy first (compareRows compare columnOptions keys)));
      [done|].
    by apply thenBy_consistent.
Qed.
End WellTyped.

(** X19: on a forest whose levels are well typed for the keys, the
    comparison function is a consistent comparator at every level, so
    that on every engine the sort of such a forest is stable, in order
    and the same when run again. *)
Theorem wellTyped_consistent (compare : Value → Value → Z)
    (columnOptions : gmap string SortByColumnOptions)
    (sortKeys : list SortKey.t) (rows : list BodyRow) :
  EveryLevel (wellTypedLevel compare columnOptions sortKeys) rows →
  EveryLevel (consistentComparator (rowCompare compare sortKeys columnOptions))
    rows.
Proof. apply EveryLevel_impl. intros level. apply wellTypedLevel_consistent. Qed.

(** * Stability *)

Section ForestStability.
Context {E : Engine}.
Context (compare : Value → Value → Z).
Context (columnOptions : gmap string SortByColumnOptions).

Lemma getSortedRows_stable_level (sortKeys : list SortKey.t)
    (rows out : list BodyRow) :
  Forall (λ row, ∀ row',
            (∀ sub, subRows row = Some sub →
               EveryLevel (consistentComparator
                             (rowCompare compare sortKeys columnOptions)) sub) →
            withSortedSubRows compare sortKeys columnOptions row = Ok row' →
            StablySortedRow (tied compare columnOptions sortKeys) row row') rows →
  EveryLevel (consistentComparator (rowCompare compare sortKeys columnOptions))
    rows →
  getSortedRows compare sortKeys columnOptions rows = Ok out →
  StablySorted (tied compare columnOptions sortKeys) rows out.
Proof.
  intros Hrows Hlev Hout.
  destruct (getSortedRows_consistent_level compare sortKeys columnOptions rows out
              (EveryLevel_here _ _ Hlev) Hout)
    as (sorted & p & _ & Hstable & Hp & _ & Hsub & _).
  apply (StablySorted_level _ rows out p Hstable).
  eapply Forall2_trans; [|exact Hp|exact Hsub].
  intros i row row' Hi Hrow. simpl in *. exists row. split; [done|].
  rewrite Forall_forall in Hrows.
  assert (Hin : row ∈ rows) by (by eapply list_elem_of_lookup_2).
  apply Hrows; [done| |exact Hrow].
  intros sub. by apply (EveryLevel_sub _ rows sub row).
Qed.

Lemma withSortedSubRows_stable (sortKeys : list SortKey.t) (row row' : BodyRow) :
  (∀ sub, subRows row = Some sub →
     EveryLevel (consistentComparator
                   (rowCompare compare sortKeys columnOptions)) sub) →
  withSortedSubRows compare sortKeys columnOptions row = Ok row' →
  StablySortedRow (tied compare columnOptions sortKeys) row row'.
Proof.
  revert row'.
  induction row as [row Hsub|row sub Hsub IH] using BodyRow_forest_ind;
    intros row' Hlev; rewrite withSortedSubRows_unfold, Hsub.
  - intros [= <-]. by constructor.
  - intros H. apply rbind_Ok in H as (sub' & Hsub' & [= <-]).
    apply (StablySorted_node _ row sub sub' Hsub).
    by apply getSortedRows_stable_level; [|apply Hlev|].
Qed.

(** With no keys the comparison function answers 0 for every pair:
    it is consistent, and every array is in order. *)
Lemma rowCompare_no_keys_consistent (rows : list BodyRow) :
  consistentComparator (rowCompare compare [] columnOptions) rows ∧
  StronglySorted (inOrder (rowCompare compare [] columnOptions)) rows.
Proof.
  split.
  - split; unfold ltCF, eqCF, gtCF, rowCompare; simpl; try done;
      try (intros; by eexists);
      intros a b c _ _ _ (v & [= <-] & ?); lia.
  - apply StronglySorted_from_lookup. intros k k' a b _ _ _. by exists 0.
Qed.

Lemma withSortedSubRows_no_keys (row : BodyRow) :
  withSortedSubRows compare [] columnOptions row = Ok row.
Proof.
  induction row as [row Hsub|row sub Hsub IH] using BodyRow_forest_ind;
    rewrite withSortedSubRows_unfold, Hsub; [done|].
  rewrite getSortedRows_unfold.
  destruct (rowCompare_no_keys_consistent sub) as [Hc Hs].
  rewrite (arraySort_sorted_id _ _ Hc Hs). simpl.
  rewrite (mapM_same _ _ IH). simpl. by rewrite getCloned_same.
Qed.

(** C4, as the code has it: the sort is stable at every level of a
    forest on whose levels the comparison function is a consistent
    comparator.  The sort then returns, and every level of the result
    is a reordering of the level of the input in which two rows for
    which all keys tie (the comparison function answers 0) stand in
    the order they had in the input.  With no keys the result is the
    input forest, for every forest.  This holds on every engine. *)
Theorem getSortedRows_stable (rows : list BodyRow) :
  (∀ sortKeys,
     EveryLevel (consistentComparator
                   (rowCompare compare sortKeys columnOptions)) rows →
     ∃ out,
       getSortedRows compare sortKeys columnOptions rows = Ok out ∧
       StablySorted (tied compare columnOptions sortKeys) rows out) ∧
  getSortedRows compare [] columnOptions rows = Ok rows.
Proof.
  split.
  - intros sortKeys Hlev.
    destruct (getSortedRows_consistent_returns compare sortKeys columnOptions
                rows Hlev) as [out Hout].
    exists out. split; [done|].
    apply getSortedRows_stable_level; [|done..].
    apply Forall_forall. intros row _ row'. apply withSortedSubRows_stable.
  - rewrite getSortedRows_unfold.
    destruct (rowCompare_no_keys_consistent rows) as [Hc Hs].
    rewrite (arraySort_sorted_id _ _ Hc Hs). simpl.
    apply mapM_same, Forall_forall. intros row _.
    apply withSortedSubRows_no_keys.
Qed.
End ForestStability.

(** * Sorting again *)

Section Idempotence.
Context {E : Engine}.
Context (compare : Value → Value → Z).
Context (sortKeys : list SortKey.t).
Context (columnOptions : gmap string SortByColumnOptions).

#[local] Abbreviation rowCompare' := (rowCompare compare sortKeys columnOptions).
#[local] Abbreviation withSortedSubRows' :=
  (withSortedSubRows compare sortKeys columnOptions).
#[local] Abbreviation getSortedRows' :=
  (getSortedRows compare sortKeys columnOptions).



End Idempotence.

(** * The sort on different engines *)

Section EngineIndependence.
Context (E E' : Engine).
Context (compare : Value → Value → Z).
Context (sortKeys : list SortKey.t).
Context (columnOptions : gmap string SortByColumnOptions).

#[local] Abbreviation cmpRows' := (rowCompare compare sortKeys columnOptions).

Lemma getSortedRows_independent_level (rows : list BodyRow) :
  Forall (λ row,
            (∀ sub, subRows row = Some sub →
                    EveryLevel (consistentComparator cmpRows') sub) →
            withSortedSubRows (E := E) compare sortKeys columnOptions row =
            withSortedSubRows (E := E') compare sortKeys columnOptions row) rows →
  EveryLevel (consistentComparator cmpRows') rows →
  getSortedRows (E := E) compare sortKeys columnOptions rows =
  getSortedRows (E := E') compare sortKeys columnOptions rows.
Proof.
  intros Hrows Hlev. rewrite !getSortedRows_unfold.
  rewrite (arraySort_engine_independent E E' _ _ (EveryLevel_here _ _ Hlev)).
  destruct (arraySort (E := E') cmpRows' rows) as [sorted|] eqn:Hs; simpl; [|done].
  apply mapM_ext_Forall. apply arraySort_Permutation in Hs. rewrite Hs.
  rewrite Forall_forall in Hrows |- *. intros row Hin. apply Hrows; [done|].
  intros sub. by apply (EveryLevel_sub _ rows sub row).
Qed.

Lemma withSortedSubRows_independent (row : BodyRow) :
  (∀ sub, subRows row = Some sub →
          EveryLevel (consistentComparator cmpRows') sub) →
  withSortedSubRows (E := E) compare sortKeys columnOptions row =
  withSortedSubRows (E := E') compare sortKeys columnOptions row.
Proof.
  induction row as [row Hsub|row sub Hsub IH] using BodyRow_forest_ind;
    intros Hlev; rewrite !withSortedSubRows_unfold, Hsub; [done|].
  by rewrite (getSortedRows_independent_level sub IH (Hlev sub Hsub)).
Qed.

(** X20: on a forest on whose levels the comparison function is a
    consistent comparator the result of the sort is the same on all
    engines: it is fixed by what ECMAScript asks of
    [Array.prototype.sort]. *)
Theorem getSortedRows_engine_independent (rows : list BodyRow) :
  EveryLevel (consistentComparator cmpRows') rows →
  getSortedRows (E := E) compare sortKeys columnOptions rows =
  getSortedRows (E := E') compare sortKeys columnOptions rows.
Proof.
  intros Hlev. apply getSortedRows_independent_level; [|done].
  apply Forall_forall. intros row _. apply withSortedSubRows_independent.
Qed.
End EngineIndependence.

(** * What the sort writes *)

Module StoreFacts.
#[local] Abbreviation sortedForest := getSortedRows.
Import Store.

Lemma keeps_ret {A} h0 (a : A) : keeps h0 (ret a).
Proof. by intros h Hh. Qed.

Lemma keeps_throw {A} h0 : keeps h0 (@throw A).
Proof. by intros h Hh. Qed.

Lemma keeps_bind {A B} h0 (m : M A) (f : A → M B) :
  keeps h0 m → (∀ a, keeps h0 (f a)) → keeps h0 (bind m f).
Proof.
  intros Hm Hf h Hh. unfold bind. specialize (Hm h Hh).
  destruct (m h) as [[a| |] h']; simpl in *; [by apply Hf|done..].
Qed.

Lemma keeps_load h0 (l : loc) : keeps h0 (load l).
Proof. intros h Hh. unfold load. by destruct (h !! l). Qed.

Lemma keeps_loadRows h0 (l : loc) : keeps h0 (loadRows l).
Proof.
  apply keeps_bind; [apply keeps_load|].
  intros [| |]; auto using @keeps_ret, @keeps_throw.
Qed.

(** Writing to a location that is not one of [h0] keeps [h0]. *)
Lemma keeps_store h0 (l : loc) (o : object) :
  h0 !! l = None → keeps h0 (store l o).
Proof. intros Hl h Hh. simpl. by apply insert_subseteq_r. Qed.

Lemma alloc_fresh (o : object) (h : gmap loc object) :
  ∃ l, alloc o h = (Returned l, <[l := o]> h) ∧ h !! l = None.
Proof.
  exists (fresh (dom h)). split; [done|].
  apply not_elem_of_dom, is_fresh.
Qed.

Lemma keeps_alloc h0 (o : object) : keeps h0 (alloc o).
Proof.
  intros h Hh. destruct (alloc_fresh o h) as (l & -> & Hl). simpl.
  apply insert_subseteq_r; [|done].
  by eapply lookup_weaken_None.
Qed.

Section Sorter.
Context {E : Engine}.
Context (compare : Value → Value → Z).
Context (sortKeys : loc).
Context (columnOptions : gmap string SortByColumnOptions).

Lemma keeps_sortInPlace h0 (arr : loc) :
  h0 !! arr = None → keeps h0 (sortInPlace compare sortKeys columnOptions arr).
Proof.
  intros Harr. apply keeps_bind; [apply keeps_loadRows|].
  intros elems h Hh.
  destruct (arraySort _ elems); [by apply keeps_store | done].
Qed.

Lemma keeps_sortSubRowsFrom h0 (rec : loc → M loc) (arr : loc)
    (indices : list nat) :
  h0 !! arr = None → (∀ l, keeps h0 (rec l)) →
  keeps h0 (sortSubRowsFrom rec arr indices).
Proof.
  intros Harr Hrec.
  induction indices as [|i indices IH]; simpl; [apply keeps_ret|].
  apply keeps_bind; [apply keeps_loadRows|]. intros elems.
  destruct (elems !! i) as [r|]; [|apply keeps_throw].
  apply keeps_bind; [apply keeps_load|].
  intros [rid cells [sub|]| |]; auto using @keeps_throw.
  apply keeps_bind; [apply Hrec|]. intros sorted.
  apply keeps_bind; [apply keeps_alloc|]. intros clone.
  apply keeps_bind; [by apply keeps_store|]. by intros _.
Qed.

(** Every store the call starts from is kept, whatever the store
    holds at the new array. *)
Lemma keeps_getSortedRows (fuel : nat) (rows : loc) h0 :
  keeps h0 (getSortedRows compare sortKeys columnOptions fuel rows).
Proof.
  revert rows h0. induction fuel as [|fuel IH]; intros rows h0; simpl.
  - by intros h Hh.
  - apply keeps_bind; [apply keeps_loadRows|]. intros elems h Hh.
    unfold bind at 1.
    destruct (alloc_fresh (RowsObj elems) h) as (arr & -> & Harr).
    assert (Harr0 : h0 !! arr = None) by by eapply lookup_weaken_None.
    apply keeps_bind; [by apply keeps_sortInPlace| |by apply insert_subseteq_r].
    intros _. apply keeps_bind; [|intros; apply keeps_ret].
    by apply keeps_sortSubRowsFrom.
Qed.
End Sorter.

Lemma bind_Returned {A B} (m : M A) (f : A → M B) h (b : B) h' :
  bind m f h = (Returned b, h') →
  ∃ a h1, m h = (Returned a, h1) ∧ f a h1 = (Returned b, h').
Proof.
  unfold bind. destruct (m h) as [[a| |] h1]; try discriminate.
  intros H. by exists a, h1.
Qed.

Lemma loadRows_Returned (l : loc) h (elems : list loc) h' :
  loadRows l h = (Returned elems, h') →
  h' = h ∧ h !! l = Some (RowsObj elems).
Proof.
  unfold loadRows, bind, load.
  destruct (h !! l) as [[| |]|]; simpl; try discriminate.
  by intros [= <- <-].
Qed.

(** C6: the call leaves every object of the store it starts from as
    it was, whether it returns, throws or runs out of stack: the
    array of rows it is given, each row with its [subRows] field,
    the sub-row arrays and the array of keys.  The array it returns
    is a new object. *)
Theorem getSortedRows_no_mutation {E : Engine} (compare : Value → Value → Z)
    (sortKeys : loc) (columnOptions : gmap string SortByColumnOptions)
    (fuel : nat) (rows : loc) (h : gmap loc object) :
  let '(outcome, h') :=
    getSortedRows compare sortKeys columnOptions fuel rows h in
  (∀ l o, h !! l = Some o → h' !! l = Some o) ∧
  match outcome with
  | Returned sorted => h !! sorted = None
  | _ => True
  end.
Proof.
  destruct (getSortedRows _ _ _ fuel rows h) as [outcome h'] eqn:Hrun.
  pose proof (keeps_getSortedRows compare sortKeys columnOptions fuel rows h h
                (reflexivity h)) as Hkeep.
  rewrite Hrun in Hkeep. simpl in Hkeep. split.
  - intros l o Hl. by eapply lookup_weaken.
  - destruct outcome as [sorted| |]; [|done..].
    destruct fuel as [|fuel]; [discriminate|]. simpl in Hrun.
    apply bind_Returned in Hrun as (elems & h1 & Hload & Hrun).
    apply loadRows_Returned in Hload as [-> _].
    apply bind_Returned in Hrun as (arr & h2 & Halloc & Hrun).
    destruct (alloc_fresh (RowsObj elems) h) as (arr' & Harr' & Hfresh).
    rewrite Harr' in Halloc. injection Halloc as <- <-.
    apply bind_Returned in Hrun as ([] & h3 & Hsort & Hrun).
    apply bind_Returned in Hrun as ([] & h4 & Hloop & Hrun).
    by injection Hrun as <- <-.
Qed.

(** [family] in the store, sorted by age, descending: the new root
    array is at 9, the sorted sub-rows of row 0 are at 10 and its
    copy is at 11; locations 1 to 8 hold what they held. *)
Example getSortedRows_familyStore :
  let '(outcome, h') :=
    getSortedRows (E := v8Engine) specCompare 1%positive noOptions 2 2%positive familyStore in
  outcome = Returned 9%positive ∧
  h' !! 9%positive = Some (RowsObj [11; 5; 3]%positive) ∧
  h' !! 11%positive =
    Some (RowObj "0" (cellForId (person "0" "Bob" 30)) (Some 10%positive)) ∧
  h' !! 10%positive = Some (RowsObj [8; 7]%positive) ∧
  h' !! 2%positive = Some (RowsObj [3; 4; 5]%positive) ∧
  h' !! 4%positive = familyStore !! 4%positive ∧
  h' !! 6%positive = Some (RowsObj [7; 8]%positive) ∧
  h' !! 1%positive = Some (KeysObj byAgeDesc).
Proof. vm_compute. repeat split; reflexivity. Qed.


(** ** The sort over the store and [getSortedRows] *)

Lemma reprRow_mono h h' l row : h ⊆ h' → reprRow h l row → reprRow h' l row.
Proof.
  intros Hsub. revert l row. fix IH 3. intros l row [l' row' Hl Hs|l' row' s elems sub Hl Hs Hs' Hall].
  - apply reprRow_leaf; [by eapply lookup_weaken|done].
  - apply (reprRow_node h' l' row' s elems sub);
      [by eapply lookup_weaken|done|by eapply lookup_weaken|].
    clear Hl Hs Hs'.
    induction Hall as [|e r elems' sub' He _ IHall];
      [apply Forall2_nil_2 | apply Forall2_cons_2; [by apply IH|done]].
Qed.

Lemma reprRows_mono h h' l rows : h ⊆ h' → reprRows h l rows → reprRows h' l rows.
Proof.
  intros Hsub (elems & Hl & Hall). exists elems. split; [by eapply lookup_weaken|].
  eapply Forall2_impl; [exact Hall|]. intros ??. by apply reprRow_mono.
Qed.


Lemma bind_eq {A B} (m : M A) (f : A → M B) h a h1 :
  m h = (Returned a, h1) → bind m f h = f a h1.
Proof. unfold bind. by intros ->. Qed.

Lemma bind_Thrown {A B} (m : M A) (f : A → M B) h h1 :
  m h = (Thrown, h1) → bind m f h = (Thrown, h1).
Proof. unfold bind. by intros ->. Qed.

Lemma loadRows_eq (l : loc) h elems :
  h !! l = Some (RowsObj elems) → loadRows l h = (Returned elems, h).
Proof. intros Hl. unfold loadRows, bind, load. by rewrite Hl. Qed.

Lemma load_eq (l : loc) h o :
  h !! l = Some o → load l h = (Returned o, h).
Proof. intros Hl. unfold load. by rewrite Hl. Qed.

(** Two parts of one store lie in their union. *)
Lemma union_subseteq_r_same {V} (m1 m2 h : gmap loc V) :
  m1 ⊆ h → m2 ⊆ h → m2 ⊆ m1 ∪ m2.
Proof.
  intros H1 H2. apply map_subseteq_spec. intros i x Hx.
  apply lookup_union_Some_raw. destruct (m1 !! i) as [y|] eqn:Hy; [left|by right].
  rewrite map_subseteq_spec in H1, H2.
  apply H1 in Hy. apply H2 in Hx. congruence.
Qed.

Lemma reprRow_lookup h l row :
  reprRow h l row →
  ∃ sub, h !! l = Some (RowObj (rowId row) (cellForId row) sub).
Proof. intros [?? Hl _|????? Hl _ _ _]; eauto. Qed.

(** Sorting related arrays with comparison functions that agree on
    related elements gives related results. *)
Section ArraySortRel.
Context {E : Engine} {A B : Type} (R : A → B → Prop).
Context (cmpA : A → A → result Z) (cmpB : B → B → result Z).
Hypothesis agree : ∀ a b a' b', R a a' → R b b' → cmpA a b = cmpB a' b'.

Lemma mapM_elementAt_rel l l' (p : list nat) :
  Forall2 R l l' → Forall (λ i, (i < length l)%nat) p →
  ∃ out out',
    mapM (elementAt l) p = Ok out ∧ mapM (elementAt l') p = Ok out' ∧
    Forall2 R out out'.
Proof.
  intros Hl. induction 1 as [|i p Hi _ (out & out' & Hout & Hout' & IH)]; simpl.
  { exists [], []. by repeat split. }
  destruct (lookup_lt_is_Some_2 l i Hi) as [a Ha].
  destruct (Forall2_lookup_l _ _ _ _ _ Hl Ha) as (a' & Ha' & Raa').
  unfold elementAt at 1 3. rewrite Ha, Ha', Hout, Hout'. simpl.
  exists (a :: out), (a' :: out'). by repeat split; [..|constructor].
Qed.

Lemma arraySort_rel l l' :
  Forall2 R l l' →
  resultRel (Forall2 R) (arraySort cmpA l) (arraySort cmpB l').
Proof.
  intros Hl. unfold arraySort. rewrite <- (Forall2_length _ _ _ Hl).
  rewrite (sortIndices_ext (comparefnAt cmpB l') (comparefnAt cmpA l)).
  - destruct (sortIndices (comparefnAt cmpA l) (length l)) as [p|] eqn:Hp;
      simpl; [|done].
    destruct (mapM_elementAt_rel l l' p Hl) as (out & out' & -> & -> & Hout);
      [|done].
    apply sortIndices_Permutation in Hp. rewrite Hp.
    apply Forall_forall. intros i Hi. apply elem_of_seq in Hi. lia.
  - intros i j Hi Hj.
    destruct (lookup_lt_is_Some_2 l i Hi) as [a Ha].
    destruct (lookup_lt_is_Some_2 l j Hj) as [b Hb].
    destruct (Forall2_lookup_l _ _ _ _ _ Hl Ha) as (a' & Ha' & Raa').
    destruct (Forall2_lookup_l _ _ _ _ _ Hl Hb) as (b' & Hb' & Rbb').
    rewrite (comparefnAt_lookup _ l i j a b),
      (comparefnAt_lookup _ l' i j a' b') by done.
    symmetry. by apply agree.
Qed.
End ArraySortRel.

Section Refinement.
Context {E : Engine}.
Context (compare : Value → Value → Z).
Context (keysLoc : loc) (keys : list SortKey.t).
Context (columnOptions : gmap string SortByColumnOptions).

#[local] Abbreviation run := (Store.getSortedRows compare keysLoc columnOptions).
#[local] Abbreviation pure := (sortedForest compare keys columnOptions).
#[local] Abbreviation W := (withSortedSubRows compare keys columnOptions).

Lemma comparefn_repr h hs a b ra rb :
  hs ⊆ h → h !! keysLoc = Some (KeysObj keys) →
  reprRow hs a ra → reprRow hs b rb →
  comparefn compare keysLoc columnOptions h a b =
  rowCompare compare keys columnOptions ra rb.
Proof.
  intros Hsub Hkeys Ha Hb. unfold comparefn, rowView. rewrite Hkeys.
  apply reprRow_lookup in Ha as [sa Ha], Hb as [sb Hb].
  rewrite (lookup_weaken _ _ _ _ Ha Hsub), (lookup_weaken _ _ _ _ Hb Hsub).
  by apply compareRows_cells.
Qed.

(** What the induction on the forest carries: the part [hs] of the
    store that holds the forest, and that the part that holds the
    result lies in [hs] and in the new locations. *)
Let refinesLevel (rows : list BodyRow) : Prop :=
  ∀ fuel h hs l,
    fits fuel rows → hs ⊆ h → h !! keysLoc = Some (KeysObj keys) →
    reprRows hs l rows →
    match pure rows with
    | Ok out =>
        ∃ l' h' hs',
          run fuel l h = (Returned l', h') ∧ hs' ⊆ h' ∧
          reprRows hs' l' out ∧ dom hs' ⊆ dom hs ∪ (dom h' ∖ dom h)
    | TypeError => ∃ h', run fuel l h = (Thrown, h')
    end.

Lemma fits_sub (fuel : nat) (row : BodyRow) (sub : list BodyRow) :
  subRows row = Some sub → (rowDepth row ≤ fuel)%nat → fits fuel sub.
Proof.
  intros Hsub Hd. destruct row as [rid cells s]; simpl in *. subst s.
  split; [lia|]. apply Forall_forall. intros r Hr.
  assert (rowDepth r ≤ list_max (map rowDepth sub))%nat; [|lia].
  assert (Hle : (list_max (map rowDepth sub) ≤ list_max (map rowDepth sub))%nat) by lia.
  apply list_max_le in Hle. rewrite Forall_forall in Hle. apply Hle.
  apply list_elem_of_In, in_map, list_elem_of_In, Hr.
Qed.

Lemma loop_refines (fuel' : nat) (arr : loc) (D D0 : gset loc) (todoRows : list BodyRow) :
  Forall (λ row, ∀ sub, subRows row = Some sub → refinesLevel sub) todoRows →
  Forall (λ row, (rowDepth row ≤ fuel')%nat) todoRows →
  ∀ todoLocs doneLocs h F,
    Forall2 (reprRow F) todoLocs todoRows →
    F ⊆ h → F !! arr = None → h !! keysLoc = Some (KeysObj keys) →
    dom F ⊆ D ∪ (dom h ∖ D0) → D0 ⊆ dom h →
    h !! arr = Some (RowsObj (doneLocs ++ todoLocs)) →
    match mapM W todoRows with
    | Ok outTail =>
        ∃ h' F' newLocs,
          sortSubRowsFrom (run fuel') arr
            (seq (length doneLocs) (length todoLocs)) h = (Returned tt, h') ∧
          F ⊆ F' ∧ F' ⊆ h' ∧ F' !! arr = None ∧
          dom F' ⊆ D ∪ (dom h' ∖ D0) ∧
          h' !! arr = Some (RowsObj (doneLocs ++ newLocs)) ∧
          Forall2 (reprRow F') newLocs outTail
    | TypeError =>
        ∃ h',
          sortSubRowsFrom (run fuel') arr
            (seq (length doneLocs) (length todoLocs)) h = (Thrown, h')
    end.
Proof.
  intros Hrec Hdepth.
  induction todoRows as [|row todoRows IH];
    intros todoLocs doneLocs h F Htodo HF Harr Hkeys Hdom HD0 Hh.
  { inversion Htodo; subst. simpl. exists h, F, []. by repeat split. }
  inversion Htodo as [|r ? todoLocs' ? Hr Htodo']; subst.
  inversion Hrec as [|?? Hrow Hrec']; subst.
  inversion Hdepth as [|?? Hdrow Hdepth']; subst.
  specialize (IH Hrec' Hdepth').
  cbn [length seq sortSubRowsFrom].
  rewrite (bind_eq _ _ _ _ _ (loadRows_eq _ _ _ Hh)).
  rewrite list_lookup_middle by done.
  cbn [mapM]. rewrite withSortedSubRows_unfold.
  inversion Hr as [?? Hl Hs|?? s elems sub Hl Hs Hs' Hall]; subst.
  - (* no sub-rows *)
    rewrite (bind_eq _ _ _ _ _ (load_eq _ _ _ (lookup_weaken _ _ _ _ Hl HF))).
    rewrite Hs. simpl.
    specialize (IH todoLocs' (doneLocs ++ [r]) h F Htodo' HF Harr Hkeys Hdom HD0).
    rewrite <- app_assoc in IH. specialize (IH Hh).
    rewrite length_app in IH. simpl in IH.
    replace (length doneLocs + 1)%nat with (S (length doneLocs)) in IH by lia.
    destruct (mapM W todoRows) as [outTail|]; simpl; [|done].
    destruct IH as (h' & F' & newLocs & Hrun & HFF & HF' & Harr' & Hdom' & Hh' & Hnew).
    exists h', F', (r :: newLocs). rewrite <- app_assoc in Hh'.
    repeat split; try done. constructor; [|done]. by eapply reprRow_mono.
  - (* sub-rows *)
    rewrite (bind_eq _ _ _ _ _ (load_eq _ _ _ (lookup_weaken _ _ _ _ Hl HF))).
    rewrite Hs.
    pose proof (Hrow sub Hs fuel' h F s (fits_sub _ _ _ Hs Hdrow) HF Hkeys
                  (ex_intro _ elems (conj Hs' Hall))) as Hsubcall.
    destruct (pure sub) as [sub'|]; simpl.
    2:{ destruct Hsubcall as [h' Hthrow].
        rewrite (bind_Thrown _ _ _ _ Hthrow). by exists h'. }
    destruct Hsubcall as (s' & h1 & hs1 & Hcall & Hhs1 & Hrepr1 & Hdom1).
    rewrite (bind_eq _ _ _ _ _ Hcall).
    pose proof (keeps_getSortedRows compare keysLoc columnOptions fuel' s h h
                  (reflexivity h)) as Hkeep.
    rewrite Hcall in Hkeep. simpl in Hkeep.
    set (clone := RowObj (rowId row) (cellForId row) (Some s')).
    destruct (alloc_fresh clone h1) as (c & Halloc & Hc).
    rewrite (bind_eq _ _ _ _ _ Halloc).
    unfold bind at 1, store at 1.
    assert (Harr1 : is_Some (h1 !! arr)) by (eexists; by eapply lookup_weaken).
    assert (Hca : c ≠ arr) by (intros ->; rewrite Hc in Harr1; by destruct Harr1).
    assert (Harrhs1 : hs1 !! arr = None).
    { apply not_elem_of_dom. intros Hin. apply Hdom1 in Hin.
      apply elem_of_union in Hin as [Hin|Hin].
      - by apply not_elem_of_dom in Harr.
      - apply elem_of_difference in Hin as [_ Hin]. apply Hin.
        apply elem_of_dom. by eexists. }
    assert (HFh1 : F ⊆ h1) by (by transitivity h).
    set (F1 := F ∪ hs1).
    assert (HF1 : F1 ⊆ h1) by (by apply map_union_least).
    set (F2 := <[c := clone]> F1).
    set (elems' := <[length doneLocs := c]> (doneLocs ++ r :: todoLocs')).
    set (h3 := <[arr := RowsObj elems']> (<[c := clone]> h1)).
    assert (Helems' : elems' = (doneLocs ++ [c]) ++ todoLocs').
    { unfold elems'. rewrite <- app_assoc.
      replace (length doneLocs) with (length doneLocs + 0)%nat at 1 by lia.
      by rewrite insert_app_r. }
    assert (HFF1 : F ⊆ F1) by apply map_union_subseteq_l.
    assert (HF1c : F1 !! c = None) by by eapply lookup_weaken_None.
    assert (HFF2 : F ⊆ F2) by (etrans; [exact HFF1|by apply insert_subseteq]).
    assert (Harr2 : F2 !! arr = None).
    { unfold F2. rewrite lookup_insert_ne by done. unfold F1.
      apply lookup_union_None. done. }
    assert (HF2 : F2 ⊆ h3).
    { unfold h3. apply insert_subseteq_r; [done|]. by apply insert_mono. }
    assert (Hdomh : dom h ⊆ dom h1) by by apply subseteq_dom.
    assert (Hdom2 : dom F2 ⊆ D ∪ (dom h3 ∖ D0)).
    { apply not_elem_of_dom in Hc.
      assert (Hold : ∀ x, x ∈ D ∪ (dom h ∖ D0) → x ∈ D ∪ (dom h3 ∖ D0)).
      { intros x Hx. apply elem_of_union in Hx as [Hx|Hx];
          apply elem_of_union; [by left|right].
        apply elem_of_difference in Hx as [Hx Hnx]. apply elem_of_difference.
        split; [|done]. unfold h3. rewrite !dom_insert, !elem_of_union.
        right. right. by apply Hdomh. }
      unfold F2, F1. rewrite dom_insert, dom_union.
      intros x Hx. apply elem_of_union in Hx as [Hx|Hx].
      - apply elem_of_singleton in Hx as ->. apply elem_of_union. right.
        apply elem_of_difference. split.
        + unfold h3. rewrite !dom_insert, !elem_of_union, !elem_of_singleton.
          right. by left.
        + intros Hin. apply Hc, Hdomh, HD0, Hin.
      - apply elem_of_union in Hx as [Hx|Hx]; [by apply Hold, Hdom|].
        apply Hdom1 in Hx. apply elem_of_union in Hx as [Hx|Hx];
          [by apply Hold, Hdom|].
        apply elem_of_union. right.
        apply elem_of_difference in Hx as [Hx Hnx]. apply elem_of_difference.
        split.
        + unfold h3. rewrite !dom_insert, !elem_of_union. right. by right.
        + intros Hin. apply Hnx, HD0, Hin. }
    assert (Hkeys3 : h3 !! keysLoc = Some (KeysObj keys)).
    { unfold h3. rewrite lookup_insert_ne by (intros <-; congruence).
      rewrite lookup_insert_ne.
      - by eapply lookup_weaken.
      - intros <-. apply (lookup_weaken _ _ _ _ Hkeys) in Hkeep. congruence. }
    assert (Hh3 : h3 !! arr = Some (RowsObj ((doneLocs ++ [c]) ++ todoLocs'))).
    { unfold h3. by rewrite lookup_insert_eq, Helems'. }
    assert (HD03 : D0 ⊆ dom h3).
    { intros x Hx. unfold h3. rewrite !dom_insert, !elem_of_union.
      right. right. by apply Hdomh, HD0. }
    assert (Htodo3 : Forall2 (reprRow F2) todoLocs' todoRows).
    { eapply Forall2_impl; [exact Htodo'|]. intros ??. by apply reprRow_mono. }
    specialize (IH todoLocs' (doneLocs ++ [c]) h3 F2 Htodo3 HF2 Harr2 Hkeys3
                  Hdom2 HD03 Hh3).
    rewrite length_app in IH. simpl in IH.
    replace (length doneLocs + 1)%nat with (S (length doneLocs)) in IH by lia.
    fold elems' h3.
    destruct (mapM W todoRows) as [outTail|]; simpl; [|done].
    destruct IH as (h' & F' & newLocs & Hrun & HFF' & HF' & Harr' & Hdom' & Hh' & Hnew).
    exists h', F', (c :: newLocs). rewrite <- app_assoc in Hh'.
    repeat split; try done; [by etrans|].
    constructor; [|done]. apply (reprRow_mono F2); [done|].
    destruct Hrepr1 as (elems1 & Hs1 & Hall1).
    assert (Hhs1F2 : hs1 ⊆ F2).
    { etrans; [|by apply insert_subseteq].
      by apply (union_subseteq_r_same F hs1 h1). }
    apply (reprRow_node F2 c (getCloned row sub') s' elems1 sub'); simpl.
    + unfold F2. by rewrite lookup_insert_eq.
    + done.
    + by eapply lookup_weaken.
    + eapply Forall2_impl; [exact Hall1|]. intros ??. by apply reprRow_mono.
Qed.

Lemma level_refines (rows : list BodyRow) :
  Forall (λ row, ∀ sub, subRows row = Some sub → refinesLevel sub) rows →
  refinesLevel rows.
Proof.
  intros Hrec fuel h hs l [Hpos Hfit] Hhs Hkeys (elems & Hl & Hall).
  destruct fuel as [|fuel']; [lia|].
  rewrite getSortedRows_unfold.
  destruct (alloc_fresh (RowsObj elems) h) as (arr & Halloc & Harr).
  set (h1 := <[arr := RowsObj elems]> h) in *.
  assert (Hstart :
    run (S fuel') l h =
    bind (sortInPlace compare keysLoc columnOptions arr)
      (λ _, bind (sortSubRowsFrom (run fuel') arr (seq 0 (length elems)))
                 (λ _, ret arr)) h1).
  { cbn [Store.getSortedRows].
    rewrite (bind_eq _ _ _ _ _ (loadRows_eq _ _ _ (lookup_weaken _ _ _ _ Hl Hhs))).
    by rewrite (bind_eq _ _ _ _ _ Halloc). }
  rewrite Hstart. clear Hstart.
  assert (Hh1 : h ⊆ h1) by by apply insert_subseteq.
  assert (Hhs1 : hs ⊆ h1) by by transitivity h.
  assert (Hkeys1 : h1 !! keysLoc = Some (KeysObj keys)) by by eapply lookup_weaken.
  assert (Harrhs : hs !! arr = None) by by eapply lookup_weaken_None.
  assert (Hsort :
    sortInPlace compare keysLoc columnOptions arr h1 =
    match arraySort (comparefn compare keysLoc columnOptions h1) elems with
    | Ok sorted => (Returned tt, <[arr := RowsObj sorted]> h1)
    | TypeError => (Thrown, h1)
    end).
  { unfold sortInPlace.
    by rewrite (bind_eq _ _ _ _ _ (loadRows_eq arr h1 elems (lookup_insert_eq _ _ _))). }
  pose proof (arraySort_rel (reprRow hs)
                (comparefn compare keysLoc columnOptions h1)
                (rowCompare compare keys columnOptions)
                (λ a b a' b' Ha Hb, comparefn_repr h1 hs a b a' b' Hhs1 Hkeys1 Ha Hb)
                elems rows Hall) as Hrel.
  destruct (arraySort (comparefn compare keysLoc columnOptions h1) elems)
    as [slocs|] eqn:Hslocs;
    destruct (arraySort (rowCompare compare keys columnOptions) rows)
      as [srows|] eqn:Hsrows; simpl in Hrel; try done; simpl.
  2:{ rewrite (bind_Thrown _ _ _ _ Hsort). by eexists. }
  rewrite (bind_eq _ _ _ _ _ Hsort). clear Hsort.
  set (h2 := <[arr := RowsObj slocs]> h1).
  apply arraySort_Permutation in Hsrows, Hslocs.
  assert (Hlen : length elems = length slocs) by by rewrite Hslocs.
  rewrite Hlen.
  assert (Hrec' : Forall (λ row, ∀ sub, subRows row = Some sub → refinesLevel sub) srows)
    by by rewrite Hsrows.
  assert (Hdepth : Forall (λ row, (rowDepth row ≤ fuel')%nat) srows).
  { rewrite Hsrows. eapply Forall_impl; [exact Hfit|]. intros r Hr. simpl in Hr. lia. }
  assert (Hhs2 : hs ⊆ h2) by (by apply insert_subseteq_r).
  assert (Hkeys2 : h2 !! keysLoc = Some (KeysObj keys)).
  { unfold h2. rewrite lookup_insert_ne; [done|]. intros <-.
    apply (lookup_weaken _ _ _ _ Hkeys) in Hh1. unfold h1 in Hh1.
    rewrite lookup_insert_eq in Hh1. congruence. }
  assert (Hdom2 : dom h ⊆ dom h2).
  { unfold h2, h1. rewrite !dom_insert. intros x Hx.
    rewrite !elem_of_union. by do 2 right. }
  pose proof (loop_refines fuel' arr (dom hs) (dom h) srows Hrec' Hdepth
                slocs [] h2 hs Hrel Hhs2 Harrhs Hkeys2
                (union_subseteq_l _ _) Hdom2 (lookup_insert_eq _ _ _)) as Hloop.
  simpl in Hloop.
  destruct (mapM W srows) as [out|].
  - destruct Hloop as (h' & F' & newLocs & Hrun & HFF' & HF' & Harr' & Hdom' & Hh' & Hnew).
    rewrite (bind_eq _ _ _ _ _ Hrun).
    exists arr, h', (<[arr := RowsObj newLocs]> F'). split; [done|].
    assert (HF'' : F' ⊆ <[arr := RowsObj newLocs]> F') by by apply insert_subseteq.
    repeat split.
    + by apply insert_subseteq_l.
    + exists newLocs. split; [apply lookup_insert_eq|].
      eapply Forall2_impl; [exact Hnew|]. intros ??. by apply reprRow_mono.
    + rewrite dom_insert. intros x Hx. apply elem_of_union in Hx as [Hx|Hx];
        [|by apply Hdom'].
      apply elem_of_singleton in Hx as ->. apply elem_of_union. right.
      apply elem_of_difference. split; [apply elem_of_dom; by eexists|].
      by apply not_elem_of_dom.
  - destruct Hloop as [h' Hrun]. rewrite (bind_Thrown _ _ _ _ Hrun). by eexists.
Qed.

Lemma refinesLevel_all (rows : list BodyRow) : refinesLevel rows.
Proof.
  assert (Hrow : ∀ row sub, subRows row = Some sub → refinesLevel sub).
  { intros row.
    induction row as [row Hsub|row sub Hsub IH] using BodyRow_forest_ind;
      intros sub' Hsub'; [congruence|].
    rewrite Hsub in Hsub'. injection Hsub' as <-. by apply level_refines. }
  apply level_refines, Forall_forall. intros row _. apply Hrow.
Qed.

(** X16: the sort over the store computes what [getSortedRows] computes: on
    a store that holds the forest and the keys, with fuel for the depth
    of the forest, it returns an array that holds the sorted forest
    when [getSortedRows] returns it and throws when that throws. *)
Theorem getSortedRows_refines (rows : list BodyRow) (h : gmap loc object)
    (l : loc) (fuel : nat) :
  h !! keysLoc = Some (KeysObj keys) → reprRows h l rows → fits fuel rows →
  match pure rows with
  | Ok out =>
      ∃ l' h', run fuel l h = (Returned l', h') ∧ reprRows h' l' out
  | TypeError => ∃ h', run fuel l h = (Thrown, h')
  end.
Proof.
  intros Hkeys Hrepr Hfits.
  pose proof (refinesLevel_all rows fuel h h l Hfits (reflexivity h) Hkeys Hrepr) as H.
  destruct (pure rows) as [out|]; [|done].
  destruct H as (l' & h' & hs' & Hrun & Hhs' & Hout & _).
  exists l', h'. split; [done|]. by eapply reprRows_mono.
Qed.
End Refinement.

(** [familyStore] holds [family], and fuel 2 is enough for it. *)
Example familyStore_holds_family :
  reprRows familyStore 2%positive family ∧ fits 2 family.
Proof.
  split.
  - exists [3; 4; 5]%positive. split; [reflexivity|].
    repeat apply Forall2_cons_2; try apply Forall2_nil_2.
    + by apply reprRow_leaf.
    + apply (reprRow_node _ _ _ 6%positive [7; 8]%positive
               [person "0.0" "Zed" 5; person "0.1" "Al" 7]);
        [reflexivity..|].
      repeat apply Forall2_cons_2; try apply Forall2_nil_2;
        by apply reprRow_leaf.
    + by apply reprRow_leaf.
  - split; [lia|]. repeat apply Forall_cons_2; try apply Forall_nil_2; simpl; lia.
Qed.


(** ** Which rows the result shares with the input *)

Lemma load_Returned (l : loc) h (o : object) h' :
  load l h = (Returned o, h') → h' = h ∧ h !! l = Some o.
Proof.
  unfold load. destruct (h !! l); [|discriminate]. by intros [= <- <-].
Qed.

Lemma getSortedRows_Returned_new {E : Engine} (compare : Value → Value → Z) (sortKeys : loc)
    (columnOptions : gmap string SortByColumnOptions) (fuel : nat)
    (rows out : loc) (h h' : gmap loc object) :
  getSortedRows compare sortKeys columnOptions fuel rows h = (Returned out, h') →
  h !! out = None ∧ is_Some (h !! rows).
Proof.
  intros Hrun. destruct fuel as [|fuel]; [discriminate|]. simpl in Hrun.
  apply bind_Returned in Hrun as (elems & h1 & Hload & Hrun).
  apply loadRows_Returned in Hload as [-> Hrows].
  apply bind_Returned in Hrun as (arr & h2 & Halloc & Hrun).
  destruct (alloc_fresh (RowsObj elems) h) as (arr' & Harr' & Hfresh).
  rewrite Harr' in Halloc. injection Halloc as <- <-.
  apply bind_Returned in Hrun as ([] & h3 & Hsort & Hrun).
  apply bind_Returned in Hrun as ([] & h4 & Hloop & Hrun).
  injection Hrun as <- <-. split; [done|by eexists].
Qed.

Section Sharing.
Context {E : Engine}.
Context (compare : Value → Value → Z).
Context (sortKeys : loc).
Context (columnOptions : gmap string SortByColumnOptions).

#[local] Abbreviation sortAt := (getSortedRows compare sortKeys columnOptions).

Lemma loop_shares (fuel' : nat) (arr : loc) (h0 : gmap loc object)
    (todo : list loc) :
  ∀ done h h',
    (∀ l, h !! l = None → h0 !! l = None) →
    h !! arr = Some (RowsObj (done ++ todo)) →
    sortSubRowsFrom (sortAt fuel') arr (seq (length done) (length todo)) h
      = (Returned tt, h') →
    ∃ new,
      h' !! arr = Some (RowsObj (done ++ new)) ∧
      Forall2 (sharedRow h0 h') todo new.
Proof.
  induction todo as [|r todo IH]; intros done h h' Hnew Harr Hrun.
  { simpl in Hrun. injection Hrun as <-. exists []. by split. }
  cbn [length seq sortSubRowsFrom] in Hrun.
  apply bind_Returned in Hrun as (elems & h1 & Hload & Hrun).
  apply loadRows_Returned in Hload as [-> Helems].
  rewrite Harr in Helems. injection Helems as <-.
  rewrite list_lookup_middle in Hrun by done.
  apply bind_Returned in Hrun as (o & h1 & Hload & Hrun).
  apply load_Returned in Hload as [-> Hr].
  assert (Hra : r ≠ arr) by (intros ->; rewrite Harr in Hr; by destruct o).
  destruct o as [rid cells [s|]| |]; try discriminate.
  - apply bind_Returned in Hrun as (s' & h1 & Hcall & Hrun).
    apply bind_Returned in Hrun as (c & h2 & Halloc & Hrun).
    destruct (alloc_fresh (RowObj rid cells (Some s')) h1) as (c' & Hc' & Hc).
    rewrite Hc' in Halloc. injection Halloc as <- <-.
    apply bind_Returned in Hrun as ([] & h3 & Hstore & Hrun).
    unfold store in Hstore. injection Hstore as <-.
    pose proof (keeps_getSortedRows compare sortKeys columnOptions fuel' s h h
                  (reflexivity h)) as Hkeep.
    rewrite Hcall in Hkeep. simpl in Hkeep.
    apply getSortedRows_Returned_new in Hcall as [Hs' _].
    set (h3 := <[arr := RowsObj (<[length done := c']> (done ++ r :: todo))]>
                 (<[c' := RowObj rid cells (Some s')]> h1)) in *.
    assert (Hca : c' ≠ arr).
    { intros ->. apply (lookup_weaken _ _ _ _ Harr) in Hkeep. congruence. }
    assert (Hcr : c' ≠ r).
    { intros ->. apply (lookup_weaken _ _ _ _ Hr) in Hkeep. congruence. }
    assert (Hnew3 : ∀ l, h3 !! l = None → h0 !! l = None).
    { intros l Hl. unfold h3 in Hl.
      apply lookup_insert_None in Hl as [Hl _].
      apply lookup_insert_None in Hl as [Hl _].
      apply Hnew. by eapply lookup_weaken_None. }
    assert (Harr3 : h3 !! arr = Some (RowsObj ((done ++ [c']) ++ todo))).
    { unfold h3. rewrite lookup_insert_eq. do 2 f_equal. rewrite <- app_assoc.
      replace (length done) with (length done + 0)%nat at 1 by lia.
      by rewrite insert_app_r. }
    replace (S (length done)) with (length (done ++ [c'])) in Hrun
      by (rewrite length_app; simpl; lia).
    destruct (IH (done ++ [c']) h3 h' Hnew3 Harr3 Hrun) as (new & Harr' & Hall).
    exists (c' :: new). rewrite <- app_assoc in Harr'. split; [done|].
    constructor; [|done]. right.
    pose proof (keeps_sortSubRowsFrom (delete arr h3) (sortAt fuel') arr
                  (seq (length (done ++ [c'])) (length todo))
                  (lookup_delete_eq _ _)
                  (λ l, keeps_getSortedRows compare sortKeys columnOptions fuel' l _)
                  h3 (delete_subseteq _ _)) as Hrest.
    rewrite Hrun in Hrest. simpl in Hrest.
    split; [apply Hnew; by eapply lookup_weaken_None|].
    exists rid, cells, s, s'. repeat split.
    + eapply lookup_weaken; [|exact Hrest].
      rewrite lookup_delete_ne by done. unfold h3.
      rewrite !lookup_insert_ne by done. by eapply lookup_weaken.
    + eapply lookup_weaken; [|exact Hrest].
      rewrite lookup_delete_ne by done. unfold h3.
      rewrite lookup_insert_ne by done. by rewrite lookup_insert_eq.
    + by apply Hnew.
  - replace (S (length done)) with (length (done ++ [r])) in Hrun
      by (rewrite length_app; simpl; lia).
    assert (Harr1 : h !! arr = Some (RowsObj ((done ++ [r]) ++ todo)))
      by by rewrite <- app_assoc.
    destruct (IH (done ++ [r]) h h' Hnew Harr1 Hrun) as (new & Harr' & Hall).
    exists (r :: new). rewrite <- app_assoc in Harr'. split; [done|].
    constructor; [|done]. left. split; [done|]. exists rid, cells.
    pose proof (keeps_sortSubRowsFrom (delete arr h) (sortAt fuel') arr
                  (seq (length (done ++ [r])) (length todo))
                  (lookup_delete_eq _ _)
                  (λ l, keeps_getSortedRows compare sortKeys columnOptions fuel' l _)
                  h (delete_subseteq _ _)) as Hrest.
    rewrite Hrun in Hrest. simpl in Hrest.
    eapply lookup_weaken; [|exact Hrest]. by rewrite lookup_delete_ne.
Qed.

(** X17: the array that is returned is a new array whose rows are the
    rows of the given array, reordered; a row without sub-rows is the
    very object of the input, and a row with sub-rows is a new object
    with the same id and cells and a new array of sub-rows.  No row is
    copied unless it has sub-rows. *)
Theorem getSortedRows_shares (fuel : nat) (rows out : loc)
    (h h' : gmap loc object) :
  sortAt fuel rows h = (Returned out, h') →
  h !! out = None ∧
  ∃ elems sorted outElems,
    h !! rows = Some (RowsObj elems) ∧ sorted ≡ₚ elems ∧
    h' !! out = Some (RowsObj outElems) ∧
    Forall2 (sharedRow h h') sorted outElems.
Proof.
  intros Hrun. split; [by apply getSortedRows_Returned_new in Hrun as [? _]|].
  destruct fuel as [|fuel']; [discriminate|]. simpl in Hrun.
  apply bind_Returned in Hrun as (elems & h1 & Hload & Hrun).
  apply loadRows_Returned in Hload as [-> Hrows].
  apply bind_Returned in Hrun as (arr & h1 & Halloc & Hrun).
  destruct (alloc_fresh (RowsObj elems) h) as (arr' & Harr' & Hfresh).
  rewrite Harr' in Halloc. injection Halloc as <- <-.
  apply bind_Returned in Hrun as ([] & h2 & Hsort & Hrun).
  apply bind_Returned in Hrun as ([] & h3 & Hloop & Hrun).
  injection Hrun as <- <-.
  unfold sortInPlace in Hsort.
  rewrite (bind_eq _ _ _ _ _ (loadRows_eq arr' _ elems (lookup_insert_eq _ _ _)))
    in Hsort.
  destruct (arraySort _ elems) as [sorted|] eqn:Hsorted; [|discriminate].
  unfold store in Hsort. injection Hsort as <-.
  apply arraySort_Permutation in Hsorted.
  rewrite <- (Permutation_length Hsorted) in Hloop.
  set (h2 := <[arr' := RowsObj sorted]> (<[arr' := RowsObj elems]> h)) in *.
  assert (Hnew : ∀ l, h2 !! l = None → h !! l = None).
  { intros l Hl. apply lookup_insert_None in Hl as [Hl _].
    by apply lookup_insert_None in Hl as [Hl _]. }
  assert (Harr2 : h2 !! arr' = Some (RowsObj ([] ++ sorted)))
    by apply lookup_insert_eq.
  destruct (loop_shares fuel' arr' h sorted [] h2 h3 Hnew Harr2 Hloop)
    as (new & Hout & Hall).
  by exists elems, sorted, new.
Qed.
End Sharing.

(** ** The rows the plugin keeps *)

(** X18: after the function of [deriveRows] has run, [preSortedRows]
    holds the array it was given, and that array and every other object
    of the store are as they were; when the sort returns, [sortedRows]
    holds the result, which is another array, a new one; when it
    throws, [sortedRows] holds what it held. *)
Theorem deriveRows_preSortedRows {E : Engine} (compare : Value → Value → Z)
    (sortKeys : loc) (columnOptions : gmap string SortByColumnOptions)
    (fuel : nat) (rows : loc) (stores : PluginStores) (h : gmap loc object) :
  let '(outcome, stores', h') :=
    deriveRows compare sortKeys columnOptions fuel rows stores h in
  preSortedRows stores' = rows ∧
  (∀ l o, h !! l = Some o → h' !! l = Some o) ∧
  match outcome with
  | Returned sorted =>
      sortedRows stores' = sorted ∧ sorted ≠ rows ∧ h !! sorted = None
  | _ => sortedRows stores' = sortedRows stores
  end.
Proof.
  unfold deriveRows.
  pose proof (keeps_getSortedRows compare sortKeys columnOptions fuel rows h h
                (reflexivity h)) as Hkeep.
  destruct (getSortedRows _ _ _ fuel rows h) as [outcome h'] eqn:Hrun.
  simpl in Hkeep.
  assert (Hframe : ∀ l o, h !! l = Some o → h' !! l = Some o)
    by (intros l o Hl; by eapply lookup_weaken).
  destruct outcome as [sorted| |]; simpl; [|done..].
  apply getSortedRows_Returned_new in Hrun as [Hnew [o Hrows]].
  repeat split; [done..| |done]. intros ->. congruence.
Qed.

End StoreFacts.

(** * The properties on [family] *)

Example getSortedRows_people :
  rowIds (getSortedRows (E := v8Engine) specCompare byAgeDescNameAsc noOptions people)
    = Ok ["1"; "0"; "2"].
Proof. vm_compute. reflexivity. Qed.

Example getSortedRows_family :
  getSortedRows (E := v8Engine) specCompare byAgeDesc noOptions family = Ok familySorted.
Proof. vm_compute. reflexivity. Qed.

(** The comparison by age, descending, is consistent on [family] and
    on the sub-rows of row 0. *)
Ltac consistentLevels :=
  repeat first
    [ apply Forall_nil_2
    | apply Forall_cons_2; [intros ? [=]; subst|]
    | apply EveryLevel_intro;
      [apply consistentb_sound; vm_compute; reflexivity|] ].

Lemma family_consistent :
  EveryLevel (consistentComparator (rowCompare specCompare byAgeDesc noOptions))
    family.
Proof. unfold family. consistentLevels. Defined.

(** On [family] the two engines agree. *)
Lemma getSortedRows_engine_independent_witness :
  EveryLevel (consistentComparator (rowCompare specCompare byAgeDesc noOptions))
    family ∧
  getSortedRows (E := insertionEngine) specCompare byAgeDesc noOptions family
    = Ok familySorted ∧
  getSortedRows (E := v8Engine) specCompare byAgeDesc noOptions family =
  getSortedRows (E := insertionEngine) specCompare byAgeDesc noOptions family.
Proof.
  split; [exact family_consistent|]. split; [vm_compute; reflexivity|].
  exact (getSortedRows_engine_independent v8Engine insertionEngine specCompare
           byAgeDesc noOptions family family_consistent).
Defined.

(** [family] is well typed for the age. *)
Ltac wellTypedLevels values :=
  apply EveryLevel_intro;
  [ apply Forall_cons_2; [|apply Forall_nil_2];
    exists values; split;
    [ repeat first [apply Forall2_nil_2 | apply Forall2_cons_2; [reflexivity|]]
    | right; split;
      [ intros _; repeat first [apply Forall_nil_2 | apply Forall_cons_2; [reflexivity|]]
      | apply consistentb_sound; vm_compute; reflexivity ] ]
  | ].

Lemma family_wellTyped :
  EveryLevel (wellTypedLevel specCompare noOptions byAgeDesc) family.
Proof.
  unfold family. wellTypedLevels [VNumber 25; VNumber 30; VNumber 30].
  repeat first [apply Forall_nil_2 | apply Forall_cons_2; [intros ? [=]; subst|]].
  wellTypedLevels [VNumber 5; VNumber 7].
  repeat first [apply Forall_nil_2 | apply Forall_cons_2; [intros ? [=]|]].
Defined.

Lemma wellTyped_consistent_witness :
  EveryLevel (wellTypedLevel specCompare noOptions byAgeDesc) family ∧
  EveryLevel (consistentComparator (rowCompare specCompare byAgeDesc noOptions))
    family.
Proof.
  split; [exact family_wellTyped|].
  exact (wellTyped_consistent specCompare noOptions byAgeDesc family
           family_wellTyped).
Defined.

(** Bob and Amy are both 30 and keep their order; so do the sub-rows. *)
Lemma getSortedRows_stable_witness :
  EveryLevel (consistentComparator (rowCompare specCompare byAgeDesc noOptions))
    family ∧
  ∃ out,
    getSortedRows (E := v8Engine) specCompare byAgeDesc noOptions family = Ok out ∧
    StablySorted (tied specCompare noOptions byAgeDesc) family out.
Proof.
  split; [exact family_consistent|].
  exact (proj1 (getSortedRows_stable (E := v8Engine) specCompare noOptions family)
               byAgeDesc family_consistent).
Defined.

(** In a forest of rows without sub-rows the result of a stable sort
    holds the rows of the input themselves. *)
Lemma StablySorted_leaves (tie : BodyRow → BodyRow → Prop)
    (rows out : list BodyRow) :
  Forall (λ row, subRows row = None) rows →
  StablySorted tie rows out →
  ∃ p, stableReordering tie rows p ∧
       Forall2 (λ i row, rows !! i = Some row) p out.
Proof.
  intros Hleaves Hs. inversion Hs as [? ? p Hp Hout]; subst.
  exists p. split; [done|]. eapply Forall2_impl; [exact Hout|].
  intros i row' (row & Hi & Hrow). simpl.
  rewrite Forall_forall in Hleaves.
  pose proof (Hleaves row (list_elem_of_lookup_2 _ _ _ Hi)) as Hleaf.
  inversion Hrow as [|? sub ? Hsub]; subst; [done|congruence].
Qed.

Ltac indexOf H :=
  match type of H with
  | _ !! ?i = Some _ =>
      do 4 (try destruct i as [|i]);
      try (apply (f_equal (fmap rowId)) in H; vm_compute in H; discriminate H)
  end.

(** Sorted by age, the row without an age and the last row tie,
    whichever is asked first, and V8 puts the last row before the
    other; the sort by insertion keeps their order.  The comparison
    function is not a consistent comparator for these rows: the row
    without an age ties with rows that do not tie with each other.
    In the second table the row whose action cell shows no data ties
    with the row that follows it, and V8 swaps the two. *)
Lemma getSortedRows_stable_counterexample :
  let r2 := leafRow "r2" [("age"%string, VUndefined)] in
  let r3 := leafRow "r3" [("age"%string, VNumber 0)] in
  mixedAges !! 2%nat = Some r2 ∧ mixedAges !! 3%nat = Some r3 ∧
  tied specCompare noOptions byAgeAsc r2 r3 ∧
  tied specCompare noOptions byAgeAsc r3 r2 ∧
  rowIds (getSortedRows (E := v8Engine) specCompare byAgeAsc noOptions mixedAges)
    = Ok ["r1"; "r3"; "r0"; "r2"] ∧
  (∀ out,
     getSortedRows (E := v8Engine) specCompare byAgeAsc noOptions mixedAges = Ok out →
     ¬ StablySorted (tied specCompare noOptions byAgeAsc) mixedAges out) ∧
  rowIds (getSortedRows (E := insertionEngine) specCompare byAgeAsc noOptions
            mixedAges)
    = Ok ["r1"; "r0"; "r2"; "r3"] ∧
  ¬ consistentComparator (rowCompare specCompare byAgeAsc noOptions) mixedAges ∧
  rowCompare specCompare byActionAge noOptions (withAction "0" 30)
    (leafRow "1" [("action"%string, VString "x"); ("age"%string, VNumber 25)])
    = Ok 0 ∧
  rowIds (getSortedRows (E := v8Engine) specCompare byActionAge noOptions actionRows)
    = Ok ["1"; "0"] ∧
  rowIds (getSortedRows (E := insertionEngine) specCompare byActionAge noOptions
            actionRows)
    = Ok ["0"; "1"].
Proof.
  intros r2 r3.
  do 5 (split; [vm_compute; reflexivity|]). split.
  { intros out Hout Hstable.
    assert (out = [leafRow "r1" [("age"%string, VNumber 0)]; r3;
                   leafRow "r0" [("age"%string, VNumber 1)]; r2]) as ->.
    { vm_compute in Hout. injection Hout as <-. vm_compute. reflexivity. }
    apply StablySorted_leaves in Hstable as (p & [_ Hkeep] & Hp);
      [|unfold mixedAges; by repeat constructor].
    destruct (Hkeep 2%nat 3%nat r2 r3) as (k & k' & Hk & Hk' & Hlt);
      [lia|reflexivity|reflexivity|vm_compute; reflexivity|].
    inversion Hp as [|i1 ? p1 ? H1 Hp1]; subst.
    inversion Hp1 as [|i2 ? p2 ? H2 Hp2]; subst.
    inversion Hp2 as [|i3 ? p3 ? H3 Hp3]; subst.
    inversion Hp3 as [|i4 ? p4 ? H4 Hp4]; subst.
    inversion Hp4; subst.
    indexOf H1. indexOf H2. indexOf H3. indexOf H4.
    do 4 (try destruct k as [|k]); do 4 (try destruct k' as [|k']);
      simpl in Hk, Hk'; try discriminate; lia. }
  split; [vm_compute; reflexivity|]. split.
  { intros Hc.
    assert (H : eqCF (rowCompare specCompare byAgeAsc noOptions)
                  (leafRow "r0" [("age"%string, VNumber 1)])
                  (leafRow "r1" [("age"%string, VNumber 0)])).
    { apply (cc_trans_eq _ _ Hc _ r2); unfold mixedAges;
        rewrite ?elem_of_cons; auto; vm_compute; reflexivity. }
    vm_compute in H. discriminate H. }
  repeat split; vm_compute; reflexivity.
Qed.




(** A click on the header of a disabled column, and one on the header
    of a column that shows no data. *)
Lemma thProps_suppressed_witness :
  let options : gmap string SortByColumnOptions :=
    {[ "age"%string :=
         {| disable := Some true; getSortValue := None; invert := None |} ]} in
  let config : SortByConfig bool :=
    {| initialSortKeys := None; disableMultiSort := None;
       isMultiSortEvent := None |} in
  let ageHeader := {| cellId := "age"; isData := true |} in
  let keys := [SortKey.mk "name" asc] in
  (∃ o, options !! cellId ageHeader = Some o ∧ disable o = Some true) ∧
  thToggle bool (λ shift, shift) config options ageHeader true keys = keys ∧
  thClear options ageHeader keys = keys.
Proof.
  intros options config ageHeader keys.
  assert (Hdis : ∃ o, options !! cellId ageHeader = Some o ∧ disable o = Some true).
  { eexists. split; [apply lookup_singleton_eq | reflexivity]. }
  split; [exact Hdis|].
  exact (thProps_suppressed bool (λ shift, shift) config options ageHeader true keys
           (or_intror Hdis)).
Defined.
(** * Further properties of the sort-key store *)

Lemma otherKeys_app (id : string) (l k : list SortKey.t) :
  otherKeys id (l ++ k) = otherKeys id l ++ otherKeys id k.
Proof. apply filter_app. Qed.

Lemma otherKeys_own (id : string) (o : Order) (l : list SortKey.t) :
  otherKeys id (SortKey.mk id o :: l) = otherKeys id l.
Proof. unfold otherKeys. by rewrite filter_cons_False by (simpl; tauto). Qed.

Lemma otherKeys_absent (id : string) (keys : list SortKey.t) :
  id ∉ keyIds keys → otherKeys id keys = keys.
Proof.
  intros H. apply no_key_with_id in H. unfold otherKeys.
  induction H as [|key keys Hk _ IH]; [done|].
  apply has_id_false in Hk. by rewrite filter_cons_True, IH.
Qed.

Lemma orderOf_otherKeys (id id' : string) (keys : list SortKey.t) :
  id' ≠ id → orderOf id' (otherKeys id keys) = orderOf id' keys.
Proof.
  intros Hne. unfold orderOf, otherKeys. f_equal.
  induction keys as [|key keys IH]; [done|].
  destruct (decide (SortKey.id key = id)) as [E|E].
  - rewrite filter_cons_False by tauto. simpl.
    replace (has_id id' key) with false; [done|].
    symmetry. apply has_id_false. congruence.
  - rewrite filter_cons_True by done. simpl. by rewrite IH.
Qed.

Lemma otherKeys_not_in (id : string) (keys : list SortKey.t) :
  id ∉ keyIds (otherKeys id keys).
Proof.
  unfold keyIds, otherKeys. rewrite list_elem_of_fmap.
  intros (key & -> & Hin). apply list_elem_of_filter in Hin as [Hne _]. done.
Qed.

(** X1: with [multiSort], [toggleId] leaves the keys of the other
    columns as they are and in their order; the order shown for any
    other column does not change. *)
Theorem toggleId_multi_other_columns (id : string) (options : ToggleOptions)
    (keys : list SortKey.t) :
  isMulti options = true →
  otherKeys id (toggleId id options keys) = otherKeys id keys ∧
  ∀ id', id' ≠ id →
    orderOf id' (toggleId id options keys) = orderOf id' keys.
Proof.
  intros Hmulti.
  assert (H : otherKeys id (toggleId id options keys) = otherKeys id keys).
  { destruct (keys_split id keys) as [Habs|(before & o & after & -> & Hb)].
    - rewrite (toggleId_absent _ _ _ Habs), Hmulti.
      by rewrite otherKeys_app, otherKeys_own, app_nil_r.
    - rewrite (toggleId_present _ _ _ _ _ Hb), Hmulti.
      destruct o; by rewrite !otherKeys_app, !otherKeys_own. }
  split; [exact H|]. intros id' Hne.
  by rewrite <- (orderOf_otherKeys id id' (toggleId _ _ _)), H, orderOf_otherKeys.
Qed.

Lemma toggleId_multi_other_columns_witness :
  let keys := [SortKey.mk "name" asc; SortKey.mk "age" desc; SortKey.mk "city" asc] in
  let multi := {| multiSort := None |} in
  isMulti multi = true ∧
  toggleId "age" multi keys = [SortKey.mk "name" asc; SortKey.mk "city" asc] ∧
  otherKeys "age" (toggleId "age" multi keys) = otherKeys "age" keys.
Proof.
  intros keys multi. split; [reflexivity|]. split; [reflexivity|].
  exact (proj1 (toggleId_multi_other_columns "age" multi keys eq_refl)).
Defined.

(** X2: without [multiSort], [toggleId] leaves at most one key, and it
    is a key of the toggled column: every other column becomes absent. *)
Theorem toggleId_single_resets (id : string) (options : ToggleOptions)
    (keys : list SortKey.t) :
  isMulti options = false →
  (length (toggleId id options keys) ≤ 1)%nat ∧
  otherKeys id (toggleId id options keys) = [] ∧
  ∀ id', id' ≠ id → orderOf id' (toggleId id options keys) = None.
Proof.
  intros Hsingle.
  assert (H : (length (toggleId id options keys) ≤ 1)%nat ∧
              otherKeys id (toggleId id options keys) = []).
  { destruct (keys_split id keys) as [Habs|(before & o & after & -> & Hb)].
    - rewrite (toggleId_absent _ _ _ Habs), Hsingle. simpl.
      by rewrite otherKeys_own.
    - rewrite (toggleId_present _ _ _ _ _ Hb), Hsingle.
      destruct o; simpl; [by rewrite otherKeys_own|]. split; [lia|done]. }
  destruct H as [Hlen Hother]. repeat split; [done..|].
  intros id' Hne. by rewrite <- (orderOf_otherKeys id id'), Hother.
Qed.

Lemma toggleId_single_resets_witness :
  let keys := [SortKey.mk "name" asc; SortKey.mk "age" asc; SortKey.mk "city" asc] in
  let single := {| multiSort := Some false |} in
  isMulti single = false ∧
  toggleId "age" single keys = [SortKey.mk "age" desc] ∧
  orderOf "name" (toggleId "age" single keys) = None.
Proof.
  intros keys single. split; [reflexivity|]. split; [reflexivity|].
  destruct (toggleId_single_resets "age" single keys eq_refl) as (_ & _ & H).
  by apply H.
Defined.

Lemma clearId_removes_column_helper (id : string) (keys : list SortKey.t) :
  NoDup (keyIds keys) →
  clearId id keys = otherKeys id keys ∧ orderOf id (clearId id keys) = None.
Proof.
  intros Hnd.
  assert (Hc : clearId id keys = otherKeys id keys).
  { destruct (keys_split id keys) as [Habs|(before & o & after & -> & Hb)].
    - by rewrite (clearId_absent _ _ Habs), (otherKeys_absent _ _ Habs).
    - rewrite (clearId_present _ _ _ _ Hb), otherKeys_app, otherKeys_own.
      rewrite keyIds_app in Hnd. simpl in Hnd.
      apply NoDup_app in Hnd as (_ & _ & Hnd). apply NoDup_cons in Hnd as [Ha _].
      by rewrite (otherKeys_absent _ _ Hb), (otherKeys_absent _ _ Ha). }
  split; [exact Hc|]. rewrite Hc. apply orderOf_absent, otherKeys_not_in.
Qed.

(** X3: [clearId] removes the first key of the column and nothing
    else: keys without a key of the column are left as they are, and
    otherwise exactly the first key of the column is taken out, also
    when further keys of the column follow.  So the keys of the other
    columns stay, in their order, and on keys without duplicate
    columns what is left is exactly those keys, so that the column is
    absent afterwards. *)
Theorem clearId_removes_column (id : string) (keys : list SortKey.t) :
  (id ∉ keyIds keys → clearId id keys = keys) ∧
  (∀ before o after,
     keys = before ++ SortKey.mk id o :: after → id ∉ keyIds before →
     clearId id keys = before ++ after) ∧
  otherKeys id (clearId id keys) = otherKeys id keys ∧
  (∀ id', id' ≠ id → orderOf id' (clearId id keys) = orderOf id' keys) ∧
  (NoDup (keyIds keys) →
   clearId id keys = otherKeys id keys ∧ orderOf id (clearId id keys) = None).
Proof.
  assert (H : otherKeys id (clearId id keys) = otherKeys id keys).
  { destruct (keys_split id keys) as [Habs|(before & o & after & -> & Hb)].
    - by rewrite (clearId_absent _ _ Habs).
    - by rewrite (clearId_present _ _ _ _ Hb), !otherKeys_app, otherKeys_own. }
  split; [apply clearId_absent|]. split.
  { intros before o after -> Hb. by apply clearId_present. }
  split; [exact H|]. split.
  - intros id' Hne.
    by rewrite <- (orderOf_otherKeys id id' (clearId _ _)), H, orderOf_otherKeys.
  - apply clearId_removes_column_helper.
Qed.

(** Of two keys of one column the first is removed and the second
    stays; without duplicate columns the column is absent afterwards. *)
Lemma clearId_removes_column_witness :
  let twice := [SortKey.mk "name" asc; SortKey.mk "age" desc; SortKey.mk "age" asc] in
  let keys := [SortKey.mk "name" asc; SortKey.mk "age" desc; SortKey.mk "city" asc] in
  ("age"%string ∉ keyIds [SortKey.mk "name" asc]) ∧
  clearId "age" twice = [SortKey.mk "name" asc; SortKey.mk "age" asc] ∧
  NoDup (keyIds keys) ∧
  clearId "age" keys = [SortKey.mk "name" asc; SortKey.mk "city" asc] ∧
  orderOf "age" (clearId "age" keys) = None.
Proof.
  intros twice keys.
  assert (Hb : "age" ∉ keyIds [SortKey.mk "name" asc]).
  { apply (bool_decide_unpack _). vm_compute. exact I. }
  assert (Hnd : NoDup (keyIds keys)).
  { apply (bool_decide_unpack _). vm_compute. exact I. }
  split; [exact Hb|]. split.
  { destruct (clearId_removes_column "age" twice) as (_ & H & _).
    exact (H [SortKey.mk "name" asc] desc [SortKey.mk "age" asc] eq_refl Hb). }
  split; [exact Hnd|]. split; [reflexivity|].
  destruct (clearId_removes_column "age" keys) as (_ & _ & _ & _ & H).
  exact (proj2 (H Hnd)).
Defined.

Lemma clearId_cons (id : string) (key : SortKey.t) (keys : list SortKey.t) :
  clearId id (key :: keys) =
  if has_id id key then keys else key :: clearId id keys.
Proof.
  unfold clearId. simpl. destruct (has_id id key); [done|].
  pose proof (findIndex_ge (has_id id) keys) as Hge.
  destruct (Z.eqb_spec (findIndex (has_id id) keys) (-1)) as [E|E]; [done|].
  destruct (Z.eqb_spec (findIndex (has_id id) keys + 1) (-1)) as [E'|_]; [lia|].
  unfold slice_to, slice_from.
  replace (Z.to_nat (findIndex (has_id id) keys + 1 + 1))
    with (S (Z.to_nat (findIndex (has_id id) keys + 1))) by lia.
  replace (Z.to_nat (findIndex (has_id id) keys + 1))
    with (S (Z.to_nat (findIndex (has_id id) keys))) by lia.
  done.
Qed.

(** X4: two [clearId] calls commute, whatever the keys. *)
Theorem clearId_comm (id id' : string) (keys : list SortKey.t) :
  clearId id (clearId id' keys) = clearId id' (clearId id keys).
Proof.
  induction keys as [|key keys IH]; [done|].
  rewrite (clearId_cons id' key), (clearId_cons id key).
  destruct (has_id id' key) eqn:H', (has_id id key) eqn:H;
    rewrite ?clearId_cons, ?H, ?H'; try done.
  - apply has_id_true in H, H'. by subst.
  - by rewrite IH.
Qed.

Lemma orderOf_toggleId (id : string) (options : ToggleOptions)
    (keys : list SortKey.t) :
  NoDup (keyIds keys) →
  orderOf id (toggleId id options keys) = cycleNext (orderOf id keys).
Proof.
  intros Hnd.
  destruct (keys_split id keys) as [Habs|(before & o & after & -> & Hb)].
  - rewrite (orderOf_absent _ _ Habs), (toggleId_absent _ _ _ Habs). simpl.
    destruct (isMulti options).
    + by apply orderOf_present.
    + by apply (orderOf_present id [] []), not_elem_of_nil.
  - rewrite (orderOf_present _ _ _ _ Hb), (toggleId_present _ _ _ _ _ Hb).
    destruct o; simpl.
    + destruct (isMulti options).
      * by apply orderOf_present.
      * by apply (orderOf_present id [] []), not_elem_of_nil.
    + destruct (isMulti options); [|done].
      apply orderOf_absent. rewrite keyIds_app in *. simpl in Hnd.
      apply NoDup_app in Hnd as (_ & _ & Hnd). apply NoDup_cons in Hnd as [Hn _].
      rewrite elem_of_app. tauto.
Qed.

(** X5: with [multiSort], clearing a column after toggling it gives
    what clearing it at once gives, on keys without duplicate columns;
    and toggling a descending column is clearing it. *)
Theorem clearId_after_toggleId (id : string) (options : ToggleOptions)
    (keys : list SortKey.t) :
  isMulti options = true →
  (NoDup (keyIds keys) →
   clearId id (toggleId id options keys) = clearId id keys) ∧
  (orderOf id keys = Some desc → toggleId id options keys = clearId id keys).
Proof.
  intros Hmulti.
  destruct (keys_split id keys) as [Habs|(before & o & after & -> & Hb)].
  - split.
    + intros _. rewrite (toggleId_absent _ _ _ Habs), Hmulti.
      by rewrite (clearId_present _ _ _ _ Habs), app_nil_r, (clearId_absent _ _ Habs).
    + by rewrite (orderOf_absent _ _ Habs).
  - rewrite (toggleId_present _ _ _ _ _ Hb), Hmulti, (clearId_present _ _ _ _ Hb).
    rewrite (orderOf_present _ _ _ _ Hb). split.
    + intros Hnd. destruct o; [by rewrite (clearId_present _ _ _ _ Hb)|].
      apply clearId_absent. rewrite keyIds_app in *. simpl in Hnd.
      apply NoDup_app in Hnd as (_ & _ & Hnd). apply NoDup_cons in Hnd as [Hn _].
      rewrite elem_of_app. tauto.
    + by intros [= ->].
Qed.

Lemma clearId_after_toggleId_witness :
  let keys := [SortKey.mk "name" asc; SortKey.mk "age" asc] in
  let multi := {| multiSort := Some true |} in
  isMulti multi = true ∧ NoDup (keyIds keys) ∧
  clearId "age" (toggleId "age" multi keys) = clearId "age" keys.
Proof.
  intros keys multi.
  assert (Hnd : NoDup (keyIds keys)).
  { apply (bool_decide_unpack _). vm_compute. exact I. }
  split; [reflexivity|]. split; [exact Hnd|].
  exact (proj1 (clearId_after_toggleId "age" multi keys eq_refl) Hnd).
Defined.

(** X6: three calls of [toggleId] for a column bring the shown order of
    the column back to what it was, on keys without duplicate columns;
    with [multiSort], for a column that was absent, they bring back the
    keys themselves. *)
Theorem toggleId_three_times (id : string) (options : ToggleOptions)
    (keys : list SortKey.t) :
  (NoDup (keyIds keys) →
   orderOf id (toggleTimes 3 id options keys) = orderOf id keys) ∧
  (isMulti options = true → orderOf id keys = None →
   toggleTimes 3 id options keys = keys).
Proof.
  split.
  - intros Hnd. simpl.
    pose proof (toggleId_NoDup id options keys Hnd) as Hnd1.
    pose proof (toggleId_NoDup id options _ Hnd1) as Hnd2.
    rewrite (orderOf_toggleId _ _ _ Hnd2), (orderOf_toggleId _ _ _ Hnd1),
      (orderOf_toggleId _ _ _ Hnd).
    by destruct (orderOf id keys) as [[]|].
  - intros Hmulti Habs. simpl.
    assert (Hnot : id ∉ keyIds keys).
    { destruct (keys_split id keys) as [?|(before & o & after & -> & Hb)]; [done|].
      by rewrite (orderOf_present _ _ _ _ Hb) in Habs. }
    rewrite (toggleId_absent _ _ _ Hnot), Hmulti.
    rewrite (toggleId_present _ _ keys [] asc Hnot), Hmulti.
    rewrite (toggleId_present _ _ keys [] desc Hnot), Hmulti.
    apply app_nil_r.
Qed.

Lemma toggleId_three_times_witness :
  let keys := [SortKey.mk "name" desc] in
  let multi := {| multiSort := Some true |} in
  isMulti multi = true ∧ orderOf "age" keys = None ∧
  toggleTimes 3 "age" multi keys = keys.
Proof.
  intros keys multi. split; [reflexivity|]. split; [reflexivity|].
  exact (proj2 (toggleId_three_times "age" multi keys) eq_refl eq_refl).
Defined.

(** * Further properties of the hooks *)

Section HookFacts.
Context (Event : Type) (isShiftClick : Event → bool).
Context (config : SortByConfig Event).
Context (columnOptions : gmap string SortByColumnOptions).

#[local] Abbreviation props := (thProps Event isShiftClick config columnOptions).

(** X7: the [disabled] prop of a header is true exactly when the
    options of its column have [disable] set to [true]; a column
    without options, or with [disable] absent or [false], is not
    disabled. *)
Theorem propDisabled_iff (cell : HeaderCell) (keys : list SortKey.t) :
  propDisabled Event (props cell keys) = true ↔
  ∃ o, columnOptions !! cellId cell = Some o ∧ disable o = Some true.
Proof.
  simpl. unfold includes. rewrite bool_decide_eq_true.
  apply disabledSortIds_spec.
Qed.

(** X8: when [disableMultiSort] is set, the [toggle] prop does not look
    at the event, whatever [isMultiSortEvent] says: on the header of a
    data column that is not disabled it is [toggleId] without
    [multiSort], which leaves at most one key and none of another
    column; on any other header it leaves the keys as they are. *)
Theorem thToggle_disableMultiSort (cell : HeaderCell) (event : Event)
    (keys : list SortKey.t) :
  disableMultiSort Event config = Some true →
  (∀ event', propToggle Event (props cell keys) event' keys =
             propToggle Event (props cell keys) event keys) ∧
  (isData cell = true → propDisabled Event (props cell keys) = false →
   propToggle Event (props cell keys) event keys =
     toggleId (cellId cell) {| multiSort := Some false |} keys ∧
   (length (propToggle Event (props cell keys) event keys) ≤ 1)%nat ∧
   otherKeys (cellId cell) (propToggle Event (props cell keys) event keys) = []) ∧
  (isData cell = false ∨ propDisabled Event (props cell keys) = true →
   propToggle Event (props cell keys) event keys = keys).
Proof.
  intros Hdis. simpl. unfold thToggle. rewrite Hdis. simpl.
  split; [done|]. split.
  - intros -> ->. simpl. split; [done|].
    destruct (keys_split (cellId cell) keys)
      as [Habs|(before & o & after & -> & Hb)].
    + rewrite (toggleId_absent _ _ _ Habs). simpl. split; [lia|].
      apply otherKeys_own.
    + rewrite (toggleId_present _ _ _ _ _ Hb). destruct o; simpl.
      * split; [lia|]. apply otherKeys_own.
      * split; [lia|done].
  - intros [->| ->]; [done|]. by destruct (negb (isData cell)).
Qed.

(** X9: on the header of a data column that is not disabled, a call of
    [toggle] moves the order shown for the column one step along the
    cycle absent, ascending, descending, absent, and a call of [clear]
    makes it absent; the body cells of the column show the same order
    as the header.  The keys are without duplicate columns. *)
Theorem thProps_order_cycle (cell : HeaderCell) (body : BodyCell)
    (event : Event) (keys : list SortKey.t) :
  isData cell = true →
  propDisabled Event (props cell keys) = false →
  Cell.id body = cellId cell →
  NoDup (keyIds keys) →
  let toggled := propToggle Event (props cell keys) event keys in
  let cleared := propClear Event (props cell keys) keys in
  propOrder Event (props cell toggled) =
    cycleNext (propOrder Event (props cell keys)) ∧
  tdOrder (tdProps body toggled) = propOrder Event (props cell toggled) ∧
  propOrder Event (props cell cleared) = None ∧
  tdOrder (tdProps body cleared) = None.
Proof.
  intros Hdata Hen Hid Hnd. simpl in *. unfold thToggle, thClear.
  rewrite Hdata, Hen, Hid. simpl.
  rewrite (orderOf_toggleId _ _ _ Hnd).
  destruct (clearId_removes_column_helper (cellId cell) keys Hnd) as [_ Hc].
  by rewrite Hc.
Qed.

(** X10: whatever headers are clicked and cleared, in whatever order
    and with whatever events, keys that had pairwise distinct columns
    keep pairwise distinct columns. *)
Theorem callsHeader_unique (calls : list (HeaderCall Event))
    (keys : list SortKey.t) :
  NoDup (keyIds keys) →
  NoDup (keyIds (callsHeader Event isShiftClick config columnOptions calls keys)).
Proof.
  unfold callsHeader. revert keys.
  induction calls as [|c calls IH]; intros keys Hnd; simpl; [done|].
  apply IH. destruct c as [cell event|cell]; simpl; unfold thToggle, thClear.
  - destruct (negb (isData cell)); [done|]. destruct (includes _ _); [done|].
    by apply toggleId_NoDup.
  - destruct (negb (isData cell)); [done|]. destruct (includes _ _); [done|].
    by apply clearId_NoDup.
Qed.
End HookFacts.

Lemma thToggle_disableMultiSort_witness :
  let keys := [SortKey.mk "name" asc] in
  disableMultiSort bool singleSortConfig = Some true ∧
  isData ageHeader = true ∧
  thToggle bool shiftHeld singleSortConfig noOptions ageHeader true keys
    = toggleId "age" {| multiSort := Some false |} keys ∧
  thToggle bool shiftHeld singleSortConfig noOptions ageHeader true keys
    = [SortKey.mk "age" asc] ∧
  thToggle bool shiftHeld singleSortConfig noOptions ageHeader false keys
    = thToggle bool shiftHeld singleSortConfig noOptions ageHeader true keys.
Proof.
  intros keys.
  destruct (thToggle_disableMultiSort bool shiftHeld singleSortConfig
              noOptions ageHeader true keys eq_refl) as (Hevent & Hsingle & _).
  split; [reflexivity|]. split; [reflexivity|].
  split; [exact (proj1 (Hsingle eq_refl eq_refl))|].
  split; [reflexivity|]. exact (Hevent false).
Defined.

Lemma thProps_order_cycle_witness :
  let keys := [SortKey.mk "name" asc; SortKey.mk "age" asc] in
  let toggled := thToggle bool shiftHeld defaultConfig noOptions ageHeader true keys in
  isData ageHeader = true ∧ NoDup (keyIds keys) ∧
  toggled = [SortKey.mk "name" asc; SortKey.mk "age" desc] ∧
  orderOf "age" toggled = Some desc ∧
  tdOrder (tdProps (DataBodyCell "age" (VNumber 30)) toggled) = Some desc.
Proof.
  intros keys toggled.
  assert (Hnd : NoDup (keyIds keys)).
  { apply (bool_decide_unpack _). vm_compute. exact I. }
  split; [reflexivity|]. split; [exact Hnd|]. split; [reflexivity|].
  destruct (thProps_order_cycle bool shiftHeld defaultConfig noOptions ageHeader
              (DataBodyCell "age" (VNumber 30)) true keys
              eq_refl eq_refl eq_refl Hnd) as (H1 & H2 & _).
  split; [exact H1|]. exact (eq_trans H2 H1).
Defined.

Lemma callsHeader_unique_witness :
  let calls :=
    [HeaderToggle ageHeader true; HeaderToggle actionHeader true;
     HeaderToggle ageHeader false; HeaderClear ageHeader] in
  NoDup (keyIds [SortKey.mk "name" asc]) ∧
  callsHeader bool shiftHeld defaultConfig noOptions calls [SortKey.mk "name" asc]
    = [] ∧
  NoDup (keyIds (callsHeader bool shiftHeld defaultConfig noOptions calls
                   [SortKey.mk "name" asc])).
Proof.
  intros calls.
  assert (Hnd : NoDup (keyIds [SortKey.mk "name" asc])).
  { apply (bool_decide_unpack _). vm_compute. exact I. }
  split; [exact Hnd|]. split; [reflexivity|].
  exact (callsHeader_unique bool shiftHeld defaultConfig noOptions calls _ Hnd).
Defined.

(** * Further properties of the comparison function and of the sort *)

Section ComparatorMore.
Context {E : Engine}.
Context (compare : Value → Value → Z).
Context (columnOptions : gmap string SortByColumnOptions).

#[local] Abbreviation cmpRows := (compareRows compare columnOptions).

Lemma compareRows_app_agree (keys rest rest' : list SortKey.t) (a b : BodyRow) :
  cmpRows rest a b = cmpRows rest' a b →
  cmpRows (keys ++ rest) a b = cmpRows (keys ++ rest') a b.
Proof.
  intros H. induction keys as [|key keys IH]; simpl; [done|]. by rewrite IH.
Qed.

(** X11: flipping the direction of every key negates the answer of the
    comparison function, and changes nothing to whether it throws. *)
Theorem compareRows_flip (keys : list SortKey.t) (a b : BodyRow) :
  cmpRows (flipKey <$> keys) a b =
  let* c := cmpRows keys a b in Ok (- c).
Proof.
  induction keys as [|key keys IH]; simpl; [done|].
  destruct (cellForId a !! SortKey.id key) as [cellA|]; [|done].
  destruct (negb (Cell.isData cellA)); [done|].
  destruct (cellForId b !! SortKey.id key) as [cellB|]; [|done].
  match goal with |- context [negb (?o =? 0)] => destruct (negb (o =? 0)) end;
    [|exact IH].
  simpl. f_equal.
  destruct (SortKey.order key), (invertOf columnOptions (SortKey.id key));
    simpl; lia.
Qed.

(** A key on a column whose key before it tied is passed over. *)
Lemma compareRows_same_column (key key' : SortKey.t) (keys rest : list SortKey.t)
    (a b : BodyRow) :
  SortKey.id key' = SortKey.id key →
  cmpRows (key :: keys ++ key' :: rest) a b = cmpRows (key :: keys ++ rest) a b.
Proof.
  intros Hid. simpl.
  destruct (cellForId a !! SortKey.id key) as [cellA|] eqn:HA; [|done].
  destruct (negb (Cell.isData cellA)) eqn:Hdata; [done|].
  destruct (cellForId b !! SortKey.id key) as [cellB|] eqn:HB; [|done].
  match goal with |- context [negb (?o =? 0)] =>
    destruct (negb (o =? 0)) eqn:Horder end; [done|].
  apply compareRows_app_agree. simpl.
  by rewrite Hid, HA, Hdata, HB, Horder.
Qed.

(** X12: a key on a column that an earlier key already names never
    changes the result of the sort, whatever its direction: the keys
    need not be without duplicate columns for the sorter. *)
Theorem getSortedRows_duplicate_key (before between after : list SortKey.t)
    (key key' : SortKey.t) (rows : list BodyRow) :
  SortKey.id key' = SortKey.id key →
  getSortedRows compare (before ++ key :: between ++ key' :: after)
    columnOptions rows =
  getSortedRows compare (before ++ key :: between ++ after) columnOptions rows.
Proof.
  intros Hid. apply getSortedRows_ext. intros a b. unfold rowCompare.
  by apply compareRows_app_agree, compareRows_same_column.
Qed.
End ComparatorMore.

Lemma getSortedRows_duplicate_key_witness :
  let keys := [SortKey.mk "age" desc; SortKey.mk "name" asc; SortKey.mk "age" asc] in
  rowIds (getSortedRows (E := v8Engine) specCompare keys noOptions people) = Ok ["1"; "0"; "2"] ∧
  getSortedRows (E := v8Engine) specCompare keys noOptions people =
  getSortedRows (E := v8Engine) specCompare byAgeDescNameAsc noOptions people.
Proof.
  split; [vm_compute; reflexivity|].
  exact (getSortedRows_duplicate_key specCompare noOptions []
           [SortKey.mk "name" asc] [] (SortKey.mk "age" desc)
           (SortKey.mk "age" asc) people eq_refl).
Defined.

Section SortMore.
Context {E : Engine}.
Context (compare : Value → Value → Z).
Context (columnOptions : gmap string SortByColumnOptions).

(** Comparison functions that agree on the rows with a property sort
    the forests of such rows alike. *)
Section ExtOn.
Context (P : BodyRow → Prop) (keys keys' : list SortKey.t).
Hypothesis agree_on :
  ∀ a b, P a → P b →
    rowCompare compare keys columnOptions a b =
    rowCompare compare keys' columnOptions a b.

Lemma getSortedRows_ext_on_level (rows : list BodyRow) :
  Forall (EveryRow P) rows →
  Forall (λ row, EveryRow P row →
            withSortedSubRows compare keys columnOptions row =
            withSortedSubRows compare keys' columnOptions row) rows →
  getSortedRows compare keys columnOptions rows =
  getSortedRows compare keys' columnOptions rows.
Proof.
  intros Hall Hrows. rewrite !getSortedRows_unfold.
  rewrite (arraySort_ext _ (rowCompare compare keys' columnOptions)).
  - destruct (arraySort _ rows) as [sorted|] eqn:Hs; simpl; [|done].
    apply mapM_ext_Forall. apply arraySort_Permutation in Hs. rewrite Hs.
    rewrite Forall_forall in Hall, Hrows |- *. intros row Hin.
    by apply Hrows, Hall.
  - rewrite Forall_forall in Hall. intros a b Ha Hb.
    apply agree_on; by apply EveryRow_here, Hall.
Qed.

Lemma withSortedSubRows_ext_on (row : BodyRow) :
  EveryRow P row →
  withSortedSubRows compare keys columnOptions row =
  withSortedSubRows compare keys' columnOptions row.
Proof.
  induction row as [row Hsub|row sub Hsub IH] using BodyRow_forest_ind;
    intros Hrow; rewrite !withSortedSubRows_unfold, Hsub; [done|].
  inversion Hrow as [? _ Hall]; subst.
  by rewrite (getSortedRows_ext_on_level sub (Hall sub Hsub) IH).
Qed.

Lemma getSortedRows_ext_on (rows : list BodyRow) :
  Forall (EveryRow P) rows →
  getSortedRows compare keys columnOptions rows =
  getSortedRows compare keys' columnOptions rows.
Proof.
  intros Hall. apply getSortedRows_ext_on_level; [done|].
  apply Forall_forall. intros row _. apply withSortedSubRows_ext_on.
Qed.
End ExtOn.

Lemma compareRows_unsupported (key : SortKey.t) (rest : list SortKey.t)
    (a b : BodyRow) :
  unsupportedAt columnOptions key a → unsupportedAt columnOptions key b →
  compareRows compare columnOptions (key :: rest) a b =
  compareRows compare columnOptions rest a b.
Proof.
  intros (ida & va & Ha & Hva & Hga) (idb & vb & Hb & _ & _). simpl.
  by rewrite Ha, Hb; simpl; rewrite Hga, Hva.
Qed.

(** X13: a key on a column whose values are neither strings nor
    numbers, and for which the options have no [getSortValue], has no
    effect: the forest is sorted as if the key were not among the keys. *)
Theorem getSortedRows_unsupported_key (before after : list SortKey.t)
    (key : SortKey.t) (rows : list BodyRow) :
  Forall (EveryRow (unsupportedAt columnOptions key)) rows →
  getSortedRows compare (before ++ key :: after) columnOptions rows =
  getSortedRows compare (before ++ after) columnOptions rows.
Proof.
  apply getSortedRows_ext_on. intros a b Ha Hb. unfold rowCompare.
  apply compareRows_app_agree. by apply compareRows_unsupported.
Qed.

(** Levels with fewer than two rows are not compared. *)
Lemma withSortedSubRows_small (sortKeys : list SortKey.t) (row : BodyRow) :
  (∀ sub, subRows row = Some sub → EveryLevel (λ level, (length level ≤ 1)%nat) sub) →
  withSortedSubRows compare sortKeys columnOptions row = Ok row.
Proof.
  induction row as [row Hsub|row sub Hsub IH] using BodyRow_forest_ind;
    intros Hsmall; rewrite withSortedSubRows_unfold, Hsub; [done|].
  specialize (Hsmall sub Hsub). inversion Hsmall as [? Hlen Hall]; subst.
  rewrite getSortedRows_unfold.
  rewrite arraySort_small by lia. simpl.
  rewrite mapM_same; simpl; [by rewrite getCloned_same|].
  rewrite Forall_forall in IH, Hall |- *. intros r Hr. by apply IH, Hall.
Qed.

(** X14: a forest in which no level has more than one row is returned
    as it is, for all keys and options, also when its rows lack the
    cells of the keys: no engine calls the comparison function on an
    array of fewer than two elements. *)
Theorem getSortedRows_small_levels (sortKeys : list SortKey.t)
    (rows : list BodyRow) :
  EveryLevel (λ level, (length level ≤ 1)%nat) rows →
  getSortedRows compare sortKeys columnOptions rows = Ok rows.
Proof.
  intros Hsmall. inversion Hsmall as [? Hlen Hall]; subst.
  rewrite getSortedRows_unfold.
  rewrite arraySort_small by lia. simpl. apply mapM_same.
  rewrite Forall_forall in Hall |- *. intros r Hr.
  by apply withSortedSubRows_small, Hall.
Qed.
End SortMore.

(** * The result is sorted *)

Section Sorted.
Context {E : Engine}.
Context (compare : Value → Value → Z).
Context (sortKeys : list SortKey.t).
Context (columnOptions : gmap string SortByColumnOptions).

#[local] Abbreviation rowCmp := (rowCompare compare sortKeys columnOptions).
#[local] Abbreviation subSorted := (withSortedSubRows compare sortKeys columnOptions).

Lemma getSortedRows_sorted_level (rows out : list BodyRow) :
  Forall (λ row, ∀ row' sub',
            (∀ sub, subRows row = Some sub →
                    EveryLevel (consistentComparator rowCmp) sub) →
            subSorted row = Ok row' → subRows row' = Some sub' →
            EveryLevel (StronglySorted (inOrder rowCmp)) sub') rows →
  EveryLevel (consistentComparator rowCmp) rows →
  getSortedRows compare sortKeys columnOptions rows = Ok out →
  EveryLevel (StronglySorted (inOrder rowCmp)) out.
Proof.
  intros Hrows Hlev Hout.
  destruct (getSortedRows_consistent_level compare sortKeys columnOptions rows out
              (EveryLevel_here _ _ Hlev) Hout)
    as (sorted & p & Hs & _ & _ & _ & Hsub & _ & Hsorted).
  apply arraySort_Permutation in Hs. constructor; [done|].
  assert (Hall : Forall (λ row, ∀ row' sub', subSorted row = Ok row' →
                    subRows row' = Some sub' →
                    EveryLevel (StronglySorted (inOrder rowCmp)) sub') sorted).
  { rewrite Hs. rewrite Forall_forall in Hrows |- *.
    intros row Hin row' sub'. apply Hrows; [done|].
    intros sub. by apply (EveryLevel_sub _ rows sub row). }
  clear -Hall Hsub. induction Hsub as [|row row' sorted out Hrow _ IH].
  - constructor.
  - inversion Hall as [|?? Hhead Htail]; subst.
    constructor; [|by apply IH]. intros sub'. by apply Hhead.
Qed.

Lemma withSortedSubRows_sorted (row row' : BodyRow) (sub' : list BodyRow) :
  (∀ sub, subRows row = Some sub →
          EveryLevel (consistentComparator rowCmp) sub) →
  subSorted row = Ok row' → subRows row' = Some sub' →
  EveryLevel (StronglySorted (inOrder rowCmp)) sub'.
Proof.
  revert row' sub'.
  induction row as [row Hsub|row sub Hsub IH] using BodyRow_forest_ind;
    intros row' sub' Hlev; rewrite withSortedSubRows_unfold, Hsub.
  - intros [= <-]. by rewrite Hsub.
  - intros H. apply rbind_Ok in H as (s & Hs & [= <-]). simpl. intros [= <-].
    by apply (getSortedRows_sorted_level sub s IH (Hlev sub Hsub)).
Qed.

(** X15: the result is sorted.  When the comparison function is a
    consistent comparator on every level of the forest, the sort
    returns and every level of the result is in order: no row stands
    before a row that the comparison function puts before it.  This
    holds on every engine. *)
Theorem getSortedRows_sorted (rows : list BodyRow) :
  EveryLevel (consistentComparator rowCmp) rows →
  ∃ out,
    getSortedRows compare sortKeys columnOptions rows = Ok out ∧
    EveryLevel (StronglySorted (inOrder rowCmp)) out.
Proof.
  intros Hlev.
  destruct (getSortedRows_consistent_returns compare sortKeys columnOptions
              rows Hlev) as [out Hout].
  exists out. split; [done|].
  apply (getSortedRows_sorted_level rows); [|done..].
  apply Forall_forall. intros row _ row' sub'. apply withSortedSubRows_sorted.
Qed.
End Sorted.

(** * The further properties on the example tables *)

Lemma getSortedRows_unsupported_key_witness :
  let byTags := SortKey.mk "tags" asc in
  let byAge := SortKey.mk "age" asc in
  Forall (EveryRow (unsupportedAt noOptions byTags)) taggedRows ∧
  rowIds (getSortedRows (E := v8Engine) specCompare [byTags; byAge] noOptions taggedRows)
    = Ok ["1"; "0"] ∧
  getSortedRows (E := v8Engine) specCompare [byTags; byAge] noOptions taggedRows =
  getSortedRows (E := v8Engine) specCompare [byAge] noOptions taggedRows.
Proof.
  intros byTags byAge.
  assert (H : Forall (EveryRow (unsupportedAt noOptions byTags)) taggedRows).
  { unfold taggedRows.
    repeat (apply Forall_cons_2;
            [apply EveryRow_leaf; [reflexivity|]; eexists _, _;
             split; [vm_compute; reflexivity|]; split; reflexivity|]).
    apply Forall_nil_2. }
  split; [exact H|]. split; [vm_compute; reflexivity|].
  exact (getSortedRows_unsupported_key specCompare noOptions [] [byAge] byTags
           taggedRows H).
Defined.

Lemma getSortedRows_small_levels_witness :
  EveryLevel (λ level, (length level ≤ 1)%nat) chain ∧
  getSortedRows (E := v8Engine) specCompare byAgeDesc noOptions chain = Ok chain.
Proof.
  assert (H : EveryLevel (λ level, (length level ≤ 1)%nat) chain).
  { constructor; [simpl; lia|].
    apply Forall_cons_2; [|apply Forall_nil_2].
    intros sub Hsub. injection Hsub as <-.
    constructor; [simpl; lia|].
    apply Forall_cons_2; [|apply Forall_nil_2]. intros sub Hsub. discriminate. }
  split; [exact H|].
  exact (getSortedRows_small_levels specCompare noOptions byAgeDesc chain H).
Defined.

Lemma getSortedRows_sorted_witness :
  EveryLevel (consistentComparator (rowCompare specCompare byAgeDesc noOptions))
    family ∧
  ∃ out,
    getSortedRows (E := v8Engine) specCompare byAgeDesc noOptions family = Ok out ∧
    EveryLevel (StronglySorted (inOrder (rowCompare specCompare byAgeDesc noOptions)))
      out.
Proof.
  split; [exact family_consistent|].
  exact (getSortedRows_sorted (E := v8Engine) specCompare byAgeDesc noOptions
           family family_consistent).
Defined.

(** * The store properties on [familyStore] *)

Lemma getSortedRows_refines_witness :
  familyStore !! 1%positive = Some (Store.KeysObj byAgeDesc) ∧
  reprRows familyStore 2%positive family ∧ fits 2 family ∧
  ∃ l' h',
    Store.getSortedRows (E := v8Engine) specCompare 1%positive noOptions 2 2%positive familyStore
      = (Store.Returned l', h') ∧
    reprRows h' l' familySorted.
Proof.
  destruct StoreFacts.familyStore_holds_family as [Hrepr Hfits].
  split; [reflexivity|]. split; [exact Hrepr|]. split; [exact Hfits|].
  pose proof (StoreFacts.getSortedRows_refines (E := v8Engine) specCompare 1%positive byAgeDesc
                noOptions family familyStore 2%positive 2 eq_refl Hrepr Hfits) as H.
  rewrite getSortedRows_family in H. exact H.
Defined.

Lemma getSortedRows_shares_witness :
  let run :=
    Store.getSortedRows (E := v8Engine) specCompare 1%positive noOptions 2 2%positive familyStore in
  run.1 = Store.Returned 9%positive ∧
  ∃ elems sorted outElems,
    familyStore !! 2%positive = Some (Store.RowsObj elems) ∧ sorted ≡ₚ elems ∧
    run.2 !! 9%positive = Some (Store.RowsObj outElems) ∧
    Forall2 (sharedRow familyStore run.2) sorted outElems.
Proof.
  intros run.
  assert (Hrun : run = (Store.Returned 9%positive, run.2))
    by (vm_compute; reflexivity).
  split; [by rewrite Hrun|].
  exact (proj2 (StoreFacts.getSortedRows_shares specCompare 1%positive noOptions
                  2 2%positive 9%positive familyStore run.2 Hrun)).
Defined.
